(** * QuantPerfector problem engine: SM-2 memory model, priority scoring,
      selection pipeline, drill pool and on-the-fly generation.

    Shallow embedding of [engine.js] (with the helpers it imports from
    [constants.js] and [storage.js]), and of the code around it that
    handles the same data: XP and levels ([constants.js]), the caps and
    personal bests of [storage.js], the merge of [sync.js], two
    summaries of [stats.js], and [nextProblem] and [processAnswer] of
    the session driver [app.js].  Calls into the screen, the sound and
    the timers have no effect on that data and are left out.

    Conventions of the embedding.
    - A JavaScript number is the rational it denotes ([Q]);
      integer-valued fields (counters, operands, intervals, day
      numbers) are [Z].  The arithmetic of [updateSM2] on the ease
      factor and the interval, and the sums and differences of weights
      in [weightedRandom], are rounded to the nearest double by
      [JS.fl], as JavaScript rounds them.  The scores of
      [calculatePriority] and their factors, the accuracies and the
      times are kept exact.  The only division of the engine whose
      divisor is not guarded against zero ([gradeResponse]) is
      modelled with an explicit result type carrying the two
      infinities and NaN.
    - [Math.random] is a sequence [random : nat -> Q] of draws; code
      that draws threads a cursor into that sequence.
    - The clock is a millisecond timestamp [now]; a calendar date (the
      date part of an ISO string) is its day number, printed by
      [isoDate] where the code compares dates as strings.  The time
      zone of the host is a parameter [tz] of the code that calls
      [setDate].
    - An exception is a result [Throws]; code that changes an object
      in place before it throws returns the changed object with it.
    - [null] is [None]. *)

From Stdlib Require Import ZArith QArith Qround Qminmax Qpower Qabs Lqa Lia.
From Stdlib Require Import Bool List String Ascii.
From Stdlib Require Import Sorted Permutation.
From Stdlib Require Import DecimalString DecimalZ.
Import ListNotations.

Local Open Scope Q_scope.
Local Open Scope Z_scope.

(** ** JavaScript numeric primitives *)

Module JS.

(** [Math.round]: nearest integer, ties towards plus infinity. *)
Definition round (x : Q) : Z := Qfloor (x + 0.5).

(** [Math.floor]. *)
Definition floor (x : Q) : Z := Qfloor x.

(** *** Binary64 rounding

    A finite double is the rational it denotes.  An arithmetic
    operation of JavaScript returns the double nearest to the exact
    result, ties going to the even significand. *)

Definition pow2 (e : Z) : Q := (2 ^ e)%Q.

(** The integer nearest to [x], ties to the even one. *)
Definition roundEven (x : Q) : Z :=
  let f := Qfloor x in
  match (x - inject_Z f ?= 1 # 2)%Q with
  | Lt => f
  | Gt => f + 1
  | Eq => if Z.even f then f else f + 1
  end.

(** The binary exponent of a positive [x]: [2^k <= x < 2^(k+1)]. *)
Definition ilog2 (x : Q) : Z :=
  let k := Z.log2 (Qnum x) - Z.log2 (Zpos (Qden x)) in
  if Qle_bool (pow2 k) x then k else k - 1.

(** The double nearest to a positive [x]: a significand of 53 bits, and
    below [2^-1022] the fixed spacing [2^-1074] of the subnormal
    numbers. *)
Definition nearest (x : Q) : Q :=
  let e := Z.max (ilog2 x - 52) (-1074) in
  Qred (inject_Z (roundEven (x / pow2 e)) * pow2 e).

(** The double nearest to [x].  JavaScript rounds a magnitude of
    [2^1024 - 2^970] or more to an infinity; the embedding has no
    infinite numbers, so [fl] is the rounding of JavaScript on the
    magnitudes below that bound ([finite]). *)
Definition fl (x : Q) : Q :=
  match (x ?= 0)%Q with
  | Eq => 0%Q
  | Gt => nearest x
  | Lt => (- nearest (- x))%Q
  end.

(** [x] rounds to a finite double. *)
Definition finite (x : Q) : Prop :=
  (Qabs x < inject_Z (2 ^ 1024 - 2 ^ 970))%Q.

(** [x] is a double. *)
Definition double (x : Q) : Prop := (fl x == x)%Q.

(** A decimal literal of the program text stands for the double
    nearest to it. *)
Definition lit (x : Q) : Q := fl x.

(** [x + y], [x - y] and [x * y] on doubles. *)
Definition add (x y : Q) : Q := fl (x + y).
Definition sub (x y : Q) : Q := fl (x - y).
Definition mul (x y : Q) : Q := fl (x * y).

(** Result of a division whose divisor may be zero. *)
Inductive Quot : Type :=
| Fin (q : Q)
| PosInf
| NegInf
| NaN.

(** [a / b] on finite numbers. *)
Definition quot (a b : Q) : Quot :=
  if Qeq_bool b 0 then
    match a ?= 0 with
    | Gt => PosInf
    | Lt => NegInf
    | Eq => NaN
    end%Q
  else Fin (a / b).

(** [x <= c] for a finite constant [c]; every comparison with NaN is
    false. *)
Definition leb_const (x : Quot) (c : Q) : bool :=
  match x with
  | Fin q => Qle_bool q c
  | NegInf => true
  | PosInf | NaN => false
  end.

(** The order [<=] of JavaScript on division results. *)
Definition le (x y : Quot) : Prop :=
  match x, y with
  | NaN, _ | _, NaN => False
  | NegInf, _ => True
  | _, PosInf => True
  | Fin p, Fin q => (p <= q)%Q
  | _, _ => False
  end.

Definition lt (x y : Quot) : Prop :=
  match x, y with
  | NaN, _ | _, NaN => False
  | NegInf, NegInf | PosInf, PosInf => False
  | NegInf, _ => True
  | _, PosInf => True
  | Fin p, Fin q => (p < q)%Q
  | _, _ => False
  end.

End JS.

(** ** Data model *)

Inductive Operation : Type := add | sub | mul | div.

Definition Operation_eqb (x y : Operation) : bool :=
  match x, y with
  | add, add | sub, sub | mul, mul | div, div => true
  | _, _ => false
  end.

(** [SM2_DEFAULTS] of constants.js.  The literals [2.5] and [3.0] are
    doubles as they are written; [1.3] is not, and stands for the
    double next to it, [1.3000000000000000444...]. *)
Module SM2_DEFAULTS.
Definition EASE_FACTOR : Q := 2.5.
Definition MIN_EASE : Q := JS.lit 1.3.
Definition MAX_EASE : Q := 3.0.
Definition INITIAL_INTERVAL : Z := 1.
Definition SECOND_INTERVAL : Z := 3.
End SM2_DEFAULTS.

(** The record built by [createProblemRecord]. *)
Record ProblemRecord : Type := mkRecord {
  key : string;
  operation : Operation;
  operandA : Z;
  operandB : Z;
  correctAnswer : Z;
  easeFactor : Q;
  interval : Z;
  repetitions : Z;
  nextReviewDate : option Z;
  totalAttempts : Z;
  totalCorrect : Z;
  totalTimeMs : Q;
  lastAttemptDate : option Z;
  lastResponseTimeMs : option Q;
  streak : Z;
  bestStreak : Z
}.

Definition createProblemRecord (k : string) (op : Operation) (a b answer : Z)
  : ProblemRecord :=
  {| key := k; operation := op; operandA := a; operandB := b;
     correctAnswer := answer;
     easeFactor := SM2_DEFAULTS.EASE_FACTOR;
     interval := 0; repetitions := 0; nextReviewDate := None;
     totalAttempts := 0; totalCorrect := 0; totalTimeMs := 0;
     lastAttemptDate := None; lastResponseTimeMs := None;
     streak := 0; bestStreak := 0 |}.

(** One answered turn of the session ([sessionAttempts] entries). *)
Record Attempt : Type := mkAttempt {
  problemKey : string;
  att_operation : Operation;
  isCorrect : bool;
  responseTimeMs : Q
}.

(** ** Memory model *)

Definition gradeResponse (isCorrect : bool) (responseTimeMs timerLimitMs : Q)
    (timedOut : bool) : Z :=
  if timedOut then 0
  else if negb isCorrect then 1
  else
    let ratio := JS.quot responseTimeMs timerLimitMs in
    if JS.leb_const ratio 0.25 then 5
    else if JS.leb_const ratio 0.50 then 4
    else 3.

(** *** Dates

    A calendar date (the date part of an ISO string) is its day number,
    counted from 1970-01-01; an instant is a number of milliseconds. *)

Definition msPerDay : Z := 86400000.

(** The largest time value of a [Date]: 100,000,000 days either side
    of the epoch. *)
Definition maxTime : Z := 8640000000000000.

(** The time zone of the host: the offset of local time from UTC, in
    milliseconds, as it is at a UTC instant and as it is at a local
    instant. *)
Record TimeZone : Type := mkZone {
  offsetAtUTC : Z -> Z;
  offsetAtLocal : Z -> Z
}.

(** A zone whose clocks never change. *)
Definition fixedZone (offset : Z) : TimeZone :=
  mkZone (fun _ => offset) (fun _ => offset).

(** How a call ends: it returns a value, or it throws the [RangeError]
    of [toISOString] on an invalid date. *)
Inductive Completion (A : Type) : Type :=
| Returns (a : A)
| Throws.

Arguments Returns {A} a.
Arguments Throws {A}.

(** [today()]: the date part of the current instant. *)
Definition today (now : Z) : Z := now / msPerDay.

(** [addDays(dateStr, days)].  [new Date(dateStr)] is midnight UTC of
    the date; [getDate] and [setDate] work on local time, so the days
    are added to the local instant, which keeps its time of day;
    [toISOString] prints the UTC date of the instant that local time
    stands for, and throws when that instant is outside the range of
    [Date] (as it does when the date given is itself outside it). *)
Definition addDays (tz : TimeZone) (date days : Z) : Completion Z :=
  let t := date * msPerDay in
  let local := t + offsetAtUTC tz t in
  let local' := local + days * msPerDay in
  let t' := local' - offsetAtLocal tz local' in
  if (Z.abs t <=? maxTime) && (Z.abs t' <=? maxTime)
  then Returns (t' / msPerDay)
  else Throws.

(** A call that changes a problem record in place: the record as the
    call leaves it, whether it returns or throws, and the way the call
    ends. *)
Record Effect (A : Type) : Type := mkEffect {
  after : ProblemRecord;
  result : Completion A
}.

Arguments mkEffect {A} after result.
Arguments after {A} _.
Arguments result {A} _.

Definition set_sm2 (r : ProblemRecord) (i reps : Z) (ease : Q) (next : option Z)
  : ProblemRecord :=
  {| key := key r; operation := operation r; operandA := operandA r;
     operandB := operandB r; correctAnswer := correctAnswer r;
     easeFactor := ease; interval := i; repetitions := reps;
     nextReviewDate := next;
     totalAttempts := totalAttempts r; totalCorrect := totalCorrect r;
     totalTimeMs := totalTimeMs r; lastAttemptDate := lastAttemptDate r;
     lastResponseTimeMs := lastResponseTimeMs r;
     streak := streak r; bestStreak := bestStreak r |}.

(** [updateSM2(record, quality)].  The interval, the repetitions and
    the ease factor are assigned before [addDays] is called: when it
    throws, they keep their new values and [nextReviewDate] its old
    one. *)
Definition updateSM2 (tz : TimeZone) (now : Z) (record : ProblemRecord)
    (quality : Z) : Effect unit :=
  let '(interval', repetitions') :=
    if quality >=? 3 then
      ((if repetitions record =? 0 then SM2_DEFAULTS.INITIAL_INTERVAL
        else if repetitions record =? 1 then SM2_DEFAULTS.SECOND_INTERVAL
        else JS.round (JS.mul (inject_Z (interval record)) (easeFactor record))),
       repetitions record + 1)
    else (0, 0) in
  let q := inject_Z (5 - quality) in
  let ease1 :=
    JS.add (easeFactor record)
      (JS.sub (JS.lit 0.1)
         (JS.mul q (JS.add (JS.lit 0.08) (JS.mul q (JS.lit 0.02))))) in
  let ease2 :=
    Qmax SM2_DEFAULTS.MIN_EASE (Qmin SM2_DEFAULTS.MAX_EASE ease1) in
  match addDays tz (today now) interval' with
  | Returns next =>
      mkEffect (set_sm2 record interval' repetitions' ease2 (Some next))
               (Returns tt)
  | Throws =>
      mkEffect (set_sm2 record interval' repetitions' ease2 (nextReviewDate record))
               Throws
  end.

Definition set_counters (r : ProblemRecord) (attempts correct : Z) (time : Q)
    (lastDate : option Z) (lastTime : option Q) (st best : Z) : ProblemRecord :=
  {| key := key r; operation := operation r; operandA := operandA r;
     operandB := operandB r; correctAnswer := correctAnswer r;
     easeFactor := easeFactor r; interval := interval r;
     repetitions := repetitions r; nextReviewDate := nextReviewDate r;
     totalAttempts := attempts; totalCorrect := correct;
     totalTimeMs := time; lastAttemptDate := lastDate;
     lastResponseTimeMs := lastTime;
     streak := st; bestStreak := best |}.

(** [recordAttempt] changes the record in place and returns
    [{ quality, record }]; the call of [saveProblemRecord], which
    stores the record under its key, is reached when [updateSM2]
    returns, and is made by the caller in this embedding. *)
Definition recordAttempt (tz : TimeZone) (now : Z) (record : ProblemRecord)
    (isCorrect : bool) (responseTimeMs timerLimitMs : Q) (timedOut : bool)
  : Effect Z :=
  let quality := gradeResponse isCorrect responseTimeMs timerLimitMs timedOut in
  let streak' := if isCorrect then streak record + 1 else 0 in
  let best' :=
    if isCorrect && (bestStreak record <? streak') then streak'
    else bestStreak record in
  let r1 :=
    set_counters record
      (totalAttempts record + 1)
      (if isCorrect then totalCorrect record + 1 else totalCorrect record)
      (totalTimeMs record + responseTimeMs)%Q
      (Some now) (Some responseTimeMs) streak' best' in
  let updated := updateSM2 tz now r1 quality in
  match result updated with
  | Returns _ => mkEffect (after updated) (Returns quality)
  | Throws => mkEffect (after updated) Throws
  end.

(** ** Problem keys (constants.js) *)

Definition opName (op : Operation) : string :=
  match op with
  | add => "add"
  | sub => "sub"
  | mul => "mul"
  | div => "div"
  end.

(** Number-to-string conversion of a template literal, on integers:
    decimal digits, with a leading minus sign for negative numbers. *)
Definition numToString (z : Z) : string :=
  NilEmpty.string_of_int (Z.to_int z).

Definition canonicalizeProblemKey (operation : Operation) (a b : Z) : string :=
  if Operation_eqb operation add || Operation_eqb operation mul then
    let lo := Z.min a b in
    let hi := Z.max a b in
    (opName operation ++ ":" ++ numToString lo ++ "x" ++ numToString hi)%string
  else
    (opName operation ++ ":" ++ numToString a ++ "x" ++ numToString b)%string.

(** ** Settings and storage (storage.js) *)

Record Range : Type := mkRange {
  minA : Z;
  maxA : Z;
  minB : Z;
  maxB : Z;
  enabled : bool
}.

Record Settings : Type := mkSettings {
  timerSeconds : Z;
  operationRanges : Operation -> Range
}.

(** [Object.keys(settings.operationRanges)]. *)
Definition operationKeys : list Operation := [add; sub; mul; div].

(** [DEFAULT_SETTINGS] of constants.js. *)
Definition DEFAULT_SETTINGS : Settings :=
  {| timerSeconds := 10;
     operationRanges := fun op =>
       match op with
       | add => mkRange 10 99 10 99 true
       | sub => mkRange 20 99 10 99 true
       | mul => mkRange 2 12 2 12 true
       | div => mkRange 2 12 2 12 true
       end |}.

(** The state the engine reads: the settings and the persisted records
    of the storage layer (an object, in insertion order of its keys),
    and the in-memory pool [currentPool]. *)
Record World : Type := mkWorld {
  settings : Settings;
  problemRecords : list (string * ProblemRecord);
  currentPool : list ProblemRecord
}.

(** [persisted[key]]. *)
Fixpoint lookupRecord (k : string) (m : list (string * ProblemRecord))
  : option ProblemRecord :=
  match m with
  | [] => None
  | (k', r) :: m' => if String.eqb k k' then Some r else lookupRecord k m'
  end.

(** [Object.values(allRecords)]. *)
Definition recordValues (m : list (string * ProblemRecord)) : list ProblemRecord :=
  map snd m.

(** [enabledOps.includes(op)]. *)
Definition includes (ops : list Operation) (op : Operation) : bool :=
  existsb (Operation_eqb op) ops.

Definition enabledOps (s : Settings) : list Operation :=
  filter (fun op => enabled (operationRanges s op)) operationKeys.

(** ** Date strings

    The engine keeps a date as the string that [toISOString] prints
    and compares two dates as strings. *)

(** Year, month and day of a day number, in the Gregorian calendar of
    [Date]. *)
Definition civil (day : Z) : Z * Z * Z :=
  let z := day + 719468 in
  let era := z / 146097 in
  let doe := z - era * 146097 in
  let yoe := (doe - doe / 1460 + doe / 36524 - doe / 146096) / 365 in
  let doy := doe - (365 * yoe + yoe / 4 - yoe / 100) in
  let mp := (5 * doy + 2) / 153 in
  let d := doy - (153 * mp + 2) / 5 + 1 in
  let m := if mp <? 10 then mp + 3 else mp - 9 in
  let y := yoe + era * 400 + (if m <=? 2 then 1 else 0) in
  (y, m, d).

Fixpoint zeros (n : nat) : string :=
  match n with
  | O => EmptyString
  | S k => String "0" (zeros k)
  end.

(** [String(n).padStart(width, '0')] for a natural number. *)
Definition padStart (width : nat) (n : Z) : string :=
  let s := numToString n in
  String.append (zeros (width - String.length s)) s.

(** The date part of [toISOString]: four digits for the years 0 to
    9999, a sign and six digits for the others. *)
Definition isoDate (day : Z) : string :=
  match civil day with
  | (year, month, date) =>
      let yearStr :=
        if (0 <=? year) && (year <=? 9999) then padStart 4 year
        else String.append (if year <? 0 then "-"%string else "+"%string)
                           (padStart 6 (Z.abs year)) in
      String.append yearStr
        (String.append "-" (String.append (padStart 2 month)
           (String.append "-" (padStart 2 date))))
  end.

(** [a >= b] on the date strings of two day numbers. *)
Definition dateGeb (a b : Z) : bool := String.leb (isoDate b) (isoDate a).

(** ** Priority scoring *)

Definition Qltb (x y : Q) : bool := negb (Qle_bool y x).

(** [totalCorrect / totalAttempts] (every use is guarded by a positive
    [totalAttempts]). *)
Definition accuracy (r : ProblemRecord) : Q :=
  inject_Z (totalCorrect r) / inject_Z (totalAttempts r).

(** The loop of factor 5: scan [i] from [n - 1] down to [0] and stop at
    the first attempt on the problem; [-1] when there is none. *)
Fixpoint lastIndexOf (k : string) (sessionAttempts : list Attempt) (n : nat) : Z :=
  match n with
  | O => -1
  | S i =>
      match nth_error sessionAttempts i with
      | Some a =>
          if String.eqb (problemKey a) k then Z.of_nat i
          else lastIndexOf k sessionAttempts i
      | None => lastIndexOf k sessionAttempts i
      end
  end.

Definition sessionWrong (k : string) (sessionAttempts : list Attempt) : nat :=
  List.length
    (filter (fun a => String.eqb (problemKey a) k && negb (isCorrect a))
            sessionAttempts).

Definition calculatePriority (now : Z) (record : ProblemRecord)
    (sessionAttempts : list Attempt) (totalSessionProblems : Z) : Q :=
  let score : Q := 50%Q in
  (* Factor 1: due for review *)
  let score :=
    match nextReviewDate record with
    | None => (score + 20)%Q
    | Some next =>
        let todayStr := today now in
        if dateGeb todayStr next then
          let overdueDays := todayStr - next in
          (score + inject_Z (Z.min 30 (10 + overdueDays * 5)))%Q
        else score
    end in
  (* Factor 2: low accuracy *)
  let score :=
    if 0 <? totalAttempts record then
      (score + (1 - accuracy record) * 40)%Q
    else score in
  (* Factor 3: low ease factor *)
  let score := (score + (SM2_DEFAULTS.MAX_EASE - easeFactor record) * 10)%Q in
  (* Factor 4: recently wrong in this session *)
  let score :=
    (score + inject_Z (Z.of_nat (sessionWrong (key record) sessionAttempts)) * 15)%Q in
  (* Factor 5: recency penalty *)
  let score :=
    if (0 <? List.length sessionAttempts)%nat then
      let lastIdx :=
        lastIndexOf (key record) sessionAttempts (List.length sessionAttempts) in
      if 0 <=? lastIdx then
        let problemsSince := totalSessionProblems - lastIdx - 1 in
        if problemsSince <? 5 then
          (score - inject_Z (5 - problemsSince) * 20)%Q
        else score
      else score
    else score in
  (* Factor 6: slow responses *)
  let score :=
    if 0 <? totalAttempts record then
      let avgTime := (totalTimeMs record / inject_Z (totalAttempts record))%Q in
      if Qltb 7000 avgTime then (score + 10)%Q else score
    else score in
  Qmax 0 score.

(** ** Selection pipeline *)

Inductive Phase : Type := warmup | core | challenge | otherPhase.

(** A candidate with its score: [{ record, score }]. *)
Record Scored : Type := mkScored {
  record : ProblemRecord;
  score : Q
}.

(** The plain problem handed to the caller. *)
Record Problem : Type := mkProblem {
  p_operation : Operation;
  p_a : Z;
  p_b : Z;
  p_answer : Z;
  p_key : string
}.

(** [array.slice(-2)]. *)
Definition sliceLast2 {A : Type} (l : list A) : list A :=
  skipn (List.length l - 2) l.

Definition applyInterleaving (scored : list Scored) (sessionAttempts : list Attempt)
  : list Scored :=
  if (List.length sessionAttempts =? 0)%nat then scored
  else
    let soft :=
      match nth_error sessionAttempts (List.length sessionAttempts - 1) with
      | Some lastAtt =>
          let lastOp := att_operation lastAtt in
          map (fun s =>
                 if Operation_eqb (operation (record s)) lastOp
                 then mkScored (record s) (score s * 0.5)
                 else s) scored
      | None => scored
      end in
    match sliceLast2 sessionAttempts with
    | [x; y] =>
        if Operation_eqb (att_operation x) (att_operation y) then
          let blocked := att_operation x in
          let filtered :=
            filter (fun s => negb (Operation_eqb (operation (record s)) blocked))
                   scored in
          if (0 <? List.length filtered)%nat then filtered else scored
        else soft
    | _ => soft
    end.

(** [counts[op]] after the two loops of [balanceOperations]: defined for
    the enabled operations only. *)
Definition countOps (enabledOps : list Operation) (sessionAttempts : list Attempt)
    (op : Operation) : option nat :=
  if includes enabledOps op then
    Some (List.length
            (filter (fun a => Operation_eqb (att_operation a) op) sessionAttempts))
  else None.

Definition balanceOperations (scored : list Scored) (sessionAttempts : list Attempt)
    (enabledOps : list Operation) : list Scored :=
  if (List.length sessionAttempts <? 4)%nat then scored
  else
    let counts := countOps enabledOps sessionAttempts in
    let total := inject_Z (Z.of_nat (List.length sessionAttempts)) in
    let expected := (1 / inject_Z (Z.of_nat (List.length enabledOps)))%Q in
    map (fun s =>
           match counts (operation (record s)) with
           | Some c =>
               let actual := (inject_Z (Z.of_nat c) / total)%Q in
               if Qltb actual (expected * 0.7) then
                 mkScored (record s) (score s * 1.5)
               else if Qltb (expected * 1.3) actual then
                 mkScored (record s) (score s * 0.6)
               else s
           | None => s   (* undefined / total is NaN: both tests fail *)
           end) scored.

(** [array.sort(cmp)]: the sort is stable, an element goes before the
    ones that follow it unless the comparator is positive. *)
Fixpoint insertBy {A : Type} (cmp : A -> A -> Q) (x : A) (l : list A) : list A :=
  match l with
  | [] => [x]
  | y :: l' => if Qle_bool (cmp x y) 0 then x :: l else y :: insertBy cmp x l'
  end.

Definition sortBy {A : Type} (cmp : A -> A -> Q) (l : list A) : list A :=
  fold_right (insertBy cmp) [] l.

(** The loop of [weightedRandom]. *)
Fixpoint pickWeighted (items : list Scored) (r : Q) : option Scored :=
  match items with
  | [] => None
  | item :: rest =>
      let r' := JS.sub r (Qmax 1 (score item)) in
      if Qle_bool r' 0 then Some item else pickWeighted rest r'
  end.

(** [weightedRandom(items)] for the draw [u] of [Math.random];
    [None] is the [undefined] of an empty [items]. *)
Definition weightedRandom (u : Q) (items : list Scored) : option Scored :=
  let totalWeight :=
    fold_left (fun sum item => JS.add sum (Qmax 1 (score item))) items (0 : Q) in
  match pickWeighted items (JS.mul u totalWeight) with
  | Some item => Some item
  | None => nth_error items (List.length items - 1)
  end.

Definition toProblem (r : ProblemRecord) : Problem :=
  {| p_operation := operation r; p_a := operandA r; p_b := operandB r;
     p_answer := correctAnswer r; p_key := key r |}.

(** The pool with the persisted state of each record substituted,
    restricted to the enabled operations. *)
Definition candidatesOf (w : World) : list ProblemRecord :=
  filter (fun r => includes (enabledOps (settings w)) (operation r))
         (map (fun r =>
                 match lookupRecord (key r) (problemRecords w) with
                 | Some p => p
                 | None => r
                 end) (currentPool w)).

Definition phaseFilter (phase : Phase) (candidates : list ProblemRecord)
  : list ProblemRecord :=
  match phase with
  | warmup =>
      let easy :=
        filter (fun r => Qle_bool 2.3 (easeFactor r) || (totalAttempts r =? 0))
               candidates in
      if (5 <=? List.length easy)%nat then easy else candidates
  | challenge =>
      let hard :=
        filter (fun r =>
                  if totalAttempts r =? 0 then false
                  else
                    let acc := accuracy r in
                    Qltb (easeFactor r) 2.0 || Qltb acc 0.7)
               candidates in
      if (3 <=? List.length hard)%nat then hard else candidates
  | _ => candidates
  end.

Definition scoreAll (now : Z) (candidates : list ProblemRecord)
    (sessionAttempts : list Attempt) : list Scored :=
  map (fun r =>
         mkScored r (calculatePriority now r sessionAttempts
                       (Z.of_nat (List.length sessionAttempts))))
      candidates.

Definition byScoreDesc (a b : Scored) : Q := (score b - score a)%Q.

(** The list [top] that [selectNextProblem] hands to [weightedRandom]. *)
Definition selectionTop (now : Z) (w : World) (sessionAttempts : list Attempt)
    (phase : Phase) : list Scored :=
  let candidates := phaseFilter phase (candidatesOf w) in
  let scored := scoreAll now candidates sessionAttempts in
  let interleaved := applyInterleaving scored sessionAttempts in
  let balanced :=
    balanceOperations interleaved sessionAttempts (enabledOps (settings w)) in
  let sorted := sortBy byScoreDesc balanced in
  firstn (Nat.min 10 (List.length sorted)) sorted.

(** ** Code that draws random numbers *)

(** A computation reads the draws of [Math.random] from a cursor on;
    [None] stands for a call that returns no value (the recursion of
    [generateRandomProblem] not ending within the fuel, or a property
    access on [undefined]). *)
Definition Gen (A : Type) : Type := (nat -> Q) -> nat -> option (A * nat).

Definition ret {A : Type} (a : A) : Gen A := fun _ i => Some (a, i).

Definition bind {A B : Type} (m : Gen A) (f : A -> Gen B) : Gen B :=
  fun random i =>
    match m random i with
    | Some (a, j) => f a random j
    | None => None
    end.

Definition fail {A : Type} : Gen A := fun _ _ => None.

Notation "x <- m ;; k" := (bind m (fun x => k))
  (at level 61, m at next level, right associativity).

Definition Math_random : Gen Q := fun random i => Some (random i, S i).

Definition randInt (min max : Z) : Gen Z :=
  u <- Math_random ;;
  ret (JS.floor (u * inject_Z (max - min + 1)) + min).

(** ** On-the-fly generation *)

Fixpoint generateRandomProblem (fuel : nat) (s : Settings) (operation : Operation)
  : Gen Problem :=
  let range := operationRanges s operation in
  a <- randInt (minA range) (maxA range) ;;
  b <- randInt (minB range) (maxB range) ;;
  match operation with
  | add =>
      ret (mkProblem operation a b (a + b) (canonicalizeProblemKey add a b))
  | sub =>
      let big := Z.max a b in
      let small := Z.min a b in
      if big =? small then
        match fuel with
        | O => fail
        | S fuel' => generateRandomProblem fuel' s sub
        end
      else
        ret (mkProblem operation big small (big - small)
               (canonicalizeProblemKey sub big small))
  | mul =>
      ret (mkProblem operation a b (a * b) (canonicalizeProblemKey mul a b))
  | div =>
      divisor <- randInt (minB range) (maxB range) ;;
      quotient <- randInt (minA range) (maxA range) ;;
      let dividend := divisor * quotient in
      ret (mkProblem operation dividend divisor quotient
             (canonicalizeProblemKey div dividend divisor))
  end.

(** ** Problem selection *)

Definition selectNextProblem (fuel : nat) (now : Z) (w : World)
    (sessionAttempts : list Attempt) (phase : Phase) : Gen (option Problem) :=
  let ops := enabledOps (settings w) in
  if (List.length ops =? 0)%nat then ret None
  else
    let candidates := candidatesOf w in
    if (List.length candidates =? 0)%nat then
      (* absolute fallback *)
      u <- Math_random ;;
      match JS.floor (u * inject_Z (Z.of_nat (List.length ops))) with
      | Z.neg _ => fail
      | idx =>
          match nth_error ops (Z.to_nat idx) with
          | Some op =>
              p <- generateRandomProblem fuel (settings w) op ;;
              ret (Some p)
          | None => fail
          end
      end
    else
      let top := selectionTop now w sessionAttempts phase in
      u <- Math_random ;;
      match weightedRandom u top with
      | Some selected => ret (Some (toProblem (record selected)))
      | None => fail
      end.

(** ** Mistake drill *)

Definition byAccuracyAsc (a b : ProblemRecord) : Q := (accuracy a - accuracy b)%Q.

Definition drillFilter (ops : list Operation) (r : ProblemRecord) : bool :=
  if negb (includes ops (operation r)) then false
  else if totalAttempts r <? 2 then false
  else
    let acc := accuracy r in
    Qltb acc 0.7 || Qltb (easeFactor r) 1.8.

Definition getDrillProblems (w : World) : list ProblemRecord :=
  sortBy byAccuracyAsc
    (filter (drillFilter (enabledOps (settings w)))
            (recordValues (problemRecords w))).

Definition selectDrillProblem (now : Z) (drillPool : list ProblemRecord)
    (sessionAttempts : list Attempt) : Gen (option Problem) :=
  if (List.length drillPool =? 0)%nat then ret None
  else
    let scored := scoreAll now drillPool sessionAttempts in
    let interleaved := applyInterleaving scored sessionAttempts in
    let sorted := sortBy byScoreDesc interleaved in
    let top := firstn (Nat.min 8 (List.length sorted)) sorted in
    u <- Math_random ;;
    match weightedRandom u top with
    | Some selected => ret (Some (toProblem (record selected)))
    | None => fail
    end.

(** ** Predicates used by the statements *)

(** The invariant of a problem record. *)
Definition record_inv (r : ProblemRecord) : Prop :=
  (1.3 <= easeFactor r <= 3.0)%Q /\
  totalCorrect r <= totalAttempts r /\
  0 <= interval r.

Definition valid_quality (q : Z) : Prop :=
  q = 0 \/ q = 1 \/ q = 3 \/ q = 4 \/ q = 5.

(** [Math.random] returns a number of the interval [0, 1). *)
Definition uniform01 (random : nat -> Q) : Prop :=
  forall i, (0 <= random i /\ random i < 1)%Q.

(** ** Predicates and sample data of the statements *)

Definition sampleRecord : ProblemRecord :=
  {| key := "mul:6x7"; operation := mul; operandA := 6; operandB := 7;
     correctAnswer := 42;
     easeFactor := 2.5; interval := 10; repetitions := 2;
     nextReviewDate := Some 19000;
     totalAttempts := 4; totalCorrect := 3; totalTimeMs := 12000;
     lastAttemptDate := Some 1641600000000;
     lastResponseTimeMs := Some 2500%Q;
     streak := 2; bestStreak := 2 |}.

(** The zone of UTC itself. *)
Definition UTC : TimeZone := fixedZone 0.

(** Central European time around the clock change of 2024-03-31: one
    hour ahead of UTC until 01:00 UTC, two hours from then on; a local
    time that the change skips is read with the offset before it. *)
Definition berlin : TimeZone :=
  mkZone (fun t => if t <? 1711846800000 then 3600000 else 7200000)
         (fun local => if local <? 1711854000000 then 3600000 else 7200000).

(** The record of a problem answered nine times, correctly each time,
    with the grades 3, 3, 3, 3, 5, 3, 4, 3, 3. *)
Definition seasonedRecord : ProblemRecord :=
  {| key := "mul:6x7"; operation := mul; operandA := 6; operandB := 7;
     correctAnswer := 42;
     easeFactor := JS.lit 1.6199999999999999; interval := 375; repetitions := 9;
     nextReviewDate := Some 19375;
     totalAttempts := 9; totalCorrect := 9; totalTimeMs := 45000;
     lastAttemptDate := Some 1641600000000;
     lastResponseTimeMs := Some 6000%Q;
     streak := 9; bestStreak := 9 |}.

(** The record of a problem answered once, correctly. *)
Definition passedOnce : ProblemRecord :=
  {| key := "mul:6x7"; operation := mul; operandA := 6; operandB := 7;
     correctAnswer := 42;
     easeFactor := 2.5; interval := 1; repetitions := 1;
     nextReviewDate := Some 19811;
     totalAttempts := 1; totalCorrect := 1; totalTimeMs := 4000;
     lastAttemptDate := Some 1711627200000;
     lastResponseTimeMs := Some 4000%Q;
     streak := 1; bestStreak := 1 |}.

(** Eight candidates whose scores are the doubles 118.5,
    114.36363636363636, 112.5, 72.39999999999999, 62.0,
    61.199999999999996, 49.08 and 41.59090909090909. *)
Definition eightItems : list Scored :=
  map (fun x => mkScored sampleRecord (JS.lit x))
      [118.5; 114.36363636363636; 112.5; 72.39999999999999; 62.0;
       61.199999999999996; 49.08; 41.59090909090909]%Q.

(** The largest double below 1. *)
Definition lastDraw : Q := (1 - 1 / inject_Z (2 ^ 52))%Q.

(** The record after [updateSM2] was called with each grade of a list
    in turn. *)
Definition afterGrades (tz : TimeZone) (now : Z) (grades : list Z)
    (r : ProblemRecord) : ProblemRecord :=
  fold_left (fun r quality => after (updateSM2 tz now r quality)) grades r.

Definition nonneg (s : Scored) : Prop := (0 <= score s)%Q.

Definition attemptsOn (k : string) (atts : list Attempt) : list Attempt :=
  filter (fun a => String.eqb (problemKey a) k) atts.

(** A session history agrees with a record when the record counts at
    least the attempts, and at least the wrong attempts, that the
    history holds for its key: the session driver calls [recordAttempt]
    on the record of the problem before it pushes the attempt. *)
Definition consistent (r : ProblemRecord) (atts : list Attempt) : Prop :=
  Z.of_nat (List.length (attemptsOn (key r) atts)) <= totalAttempts r /\
  Z.of_nat (sessionWrong (key r) atts) <= totalAttempts r - totalCorrect r.

Definition freshRecord : ProblemRecord := createProblemRecord "add:12x30" add 12 30 42.

Definition masteredRecord : ProblemRecord :=
  {| key := "mul:6x7"; operation := mul; operandA := 6; operandB := 7;
     correctAnswer := 42;
     easeFactor := 3.0; interval := 8; repetitions := 10;
     nextReviewDate := Some 19001;
     totalAttempts := 10; totalCorrect := 10; totalTimeMs := 81000;
     lastAttemptDate := Some 1641600000000;
     lastResponseTimeMs := Some 2500%Q;
     streak := 10; bestStreak := 10 |}.

Definition sampleHistory : list Attempt :=
  [ mkAttempt "mul:7x8" mul false 4000;
    mkAttempt "mul:6x7" mul true 2500;
    mkAttempt "sub:40x12" sub true 3000 ].

Definition opOf (s : Scored) : Operation := operation (record s).

Definition struggling (k : string) (a b : Z) : ProblemRecord :=
  {| key := k; operation := mul; operandA := a; operandB := b;
     correctAnswer := a * b;
     easeFactor := 1.7; interval := 0; repetitions := 0;
     nextReviewDate := Some 19000;
     totalAttempts := 3; totalCorrect := 1; totalTimeMs := 15000;
     lastAttemptDate := Some 1641600000000;
     lastResponseTimeMs := Some 5000%Q;
     streak := 0; bestStreak := 1 |}.


Definition twoMulAttempts : list Attempt :=
  [ mkAttempt "mul:6x7" mul false 5000;
    mkAttempt "mul:7x8" mul false 6000 ].

(** [x] may precede [y] under the comparator [cmp]. *)
Definition before {A : Type} (cmp : A -> A -> Q) (x y : A) : Prop :=
  (cmp x y <= 0)%Q.

(** The characters of [s] all differ from [c]. *)
Fixpoint avoids (c : ascii) (s : string) : Prop :=
  match s with
  | EmptyString => True
  | String a s' => a <> c /\ avoids c s'
  end.

(** The integer that [randInt(min, max)] makes of the draw at cursor [i]. *)
Definition drawInt (random : nat -> Q) (i : nat) (min max : Z) : Z :=
  JS.floor (random i * inject_Z (max - min + 1)) + min.

(** The two operands that [generateRandomProblem] draws first. *)
Definition drawA (s : Settings) (op : Operation) (random : nat -> Q) (i : nat) : Z :=
  drawInt random i (minA (operationRanges s op)) (maxA (operationRanges s op)).

Definition drawB (s : Settings) (op : Operation) (random : nat -> Q) (i : nat) : Z :=
  drawInt random (S i) (minB (operationRanges s op)) (maxB (operationRanges s op)).

(** Every problem that [generateRandomProblem] returns is well formed. *)
Definition wellFormed (op : Operation) (p : Problem) : Prop :=
  p_operation p = op /\
  p_key p = canonicalizeProblemKey op (p_a p) (p_b p) /\
  match op with
  | add => p_answer p = p_a p + p_b p
  | sub =>
      p_a p <> p_b p /\ p_answer p = p_a p - p_b p /\ 0 < p_answer p
  | mul => p_answer p = p_a p * p_b p
  | div =>
      p_a p = p_b p * p_answer p /\
      (p_b p <> 0 -> p_a p / p_b p = p_answer p /\ p_a p mod p_b p = 0)
  end.

Definition subOnlySettings : Settings :=
  {| timerSeconds := 10;
     operationRanges := fun op =>
       match op with
       | sub => mkRange 20 99 10 99 true
       | _ => mkRange 2 12 2 12 false
       end |}.

Definition emptyPoolWorld : World :=
  {| settings := subOnlySettings; problemRecords := []; currentPool := [] |}.

(** ** Further definitions of the statements *)

(** The scored candidates of [selectNextProblem] before they are
    sorted: [balanced]. *)
Definition selectionScored (now : Z) (w : World) (sessionAttempts : list Attempt)
    (phase : Phase) : list Scored :=
  balanceOperations
    (applyInterleaving
       (scoreAll now (phaseFilter phase (candidatesOf w)) sessionAttempts)
       sessionAttempts)
    sessionAttempts (enabledOps (settings w)).

(** [totalWeight] of [weightedRandom]: the weights added up from the
    left, each sum rounded. *)
Definition totalWeightOf (items : list Scored) : Q :=
  fold_left (fun sum item => JS.add sum (Qmax 1 (score item))) items (0 : Q).

(** The [commutative] flag of the [OPERATIONS] table. *)
Definition commutative (op : Operation) : bool :=
  match op with
  | add | mul => true
  | sub | div => false
  end.

(** The operand ranges of an operation are usable: no minimum above
    its maximum. *)
Definition rangeOk (rg : Range) : Prop :=
  minA rg <= maxA rg /\ minB rg <= maxB rg.

(** ** Problem pool *)

(** The values of [x] in [for (let x = lo; x <= hi; x++)]. *)
Definition zrange (lo hi : Z) : list Z :=
  map (fun k => lo + Z.of_nat k) (seq 0 (Z.to_nat (hi - lo + 1))).

(** A loop whose body draws random numbers and pushes onto one array. *)
Fixpoint forEach {A B : Type} (l : list A) (body : A -> Gen (list B))
  : Gen (list B) :=
  match l with
  | [] => ret []
  | x :: l' =>
      ys <- body x ;;
      zs <- forEach l' body ;;
      ret (ys ++ zs)
  end.

(** [ensureRecord]: the persisted record of the problem, or a new one
    (which is not persisted yet). *)
Definition ensureRecord (store : list (string * ProblemRecord))
    (operation : Operation) (a b answer : Z) : ProblemRecord :=
  let k := canonicalizeProblemKey operation a b in
  match lookupRecord k store with
  | Some rec => rec
  | None => createProblemRecord k operation a b answer
  end.

Definition bucketSize : Z := 10.

(** One turn of the innermost loop of [generateRangeProblems]. *)
Definition rangeDraw (operation : Operation) (range : Range) (tensA tensB : Z)
  : Gen (list (Z * Z)) :=
  u <- Math_random ;;
  v <- Math_random ;;
  let a := Z.min (maxA range) (tensA * bucketSize + JS.floor (u * inject_Z bucketSize)) in
  let b := Z.min (maxB range) (tensB * bucketSize + JS.floor (v * inject_Z bucketSize)) in
  if (a <? minA range) || (b <? minB range) then ret []
  else if Operation_eqb operation sub && (a <=? b) then ret []
  else ret [(a, b)].

Definition generateRangeProblems (operation : Operation) (range : Range)
  : Gen (list (Z * Z)) :=
  forEach (zrange (minA range / bucketSize) (maxA range / bucketSize))
    (fun tensA =>
       forEach (zrange (minB range / bucketSize) (maxB range / bucketSize))
         (fun tensB =>
            forEach [0; 1; 2]
              (fun _ => rangeDraw operation range tensA tensB))).

(** The [mul] branch of [buildProblemPool]. *)
Definition mulPool (store : list (string * ProblemRecord)) (range : Range)
  : list ProblemRecord :=
  flat_map
    (fun a => map (fun b => ensureRecord store mul a b (a * b))
                  (zrange a (maxB range)))
    (zrange (minA range) (maxA range)).

(** The [div] branch of [buildProblemPool]. *)
Definition divPool (store : list (string * ProblemRecord)) (range : Range)
  : list ProblemRecord :=
  flat_map
    (fun divisor =>
       map (fun quotient =>
              let dividend := divisor * quotient in
              ensureRecord store div dividend divisor quotient)
           (zrange (minA range) (maxA range)))
    (zrange (minB range) (maxB range)).

(** The records that [buildProblemPool] pushes for one operation. *)
Definition poolOf (store : list (string * ProblemRecord)) (op : Operation)
    (range : Range) : Gen (list ProblemRecord) :=
  match op with
  | mul => ret (mulPool store range)
  | div => ret (divPool store range)
  | add =>
      problems <- generateRangeProblems add range ;;
      ret (map (fun p => ensureRecord store add (fst p) (snd p) (fst p + snd p))
               problems)
  | sub =>
      problems <- generateRangeProblems sub range ;;
      ret (map (fun p => ensureRecord store sub (fst p) (snd p) (fst p - snd p))
               problems)
  end.

(** [buildProblemPool]: the world with a new [currentPool]. *)
Definition buildProblemPool (w : World) : Gen World :=
  pool <- forEach operationKeys
            (fun op =>
               let range := operationRanges (settings w) op in
               if negb (enabled range) then ret []
               else poolOf (problemRecords w) op range) ;;
  ret (mkWorld (settings w) (problemRecords w) pool).

(** The answer of a problem is the result of its operation. *)
Definition answerOk (op : Operation) (a b answer : Z) : Prop :=
  match op with
  | add => answer = a + b
  | sub => answer = a - b
  | mul => answer = a * b
  | div => a = b * answer
  end.

(** A record describes its problem: canonical key and right answer. *)
Definition problemOk (r : ProblemRecord) : Prop :=
  key r = canonicalizeProblemKey (operation r) (operandA r) (operandB r) /\
  answerOk (operation r) (operandA r) (operandB r) (correctAnswer r).

(** Every persisted record is stored under its own key and describes
    its problem. *)
Definition storeOk (store : list (string * ProblemRecord)) : Prop :=
  forall (k : string) (r : ProblemRecord),
    lookupRecord k store = Some r -> key r = k /\ problemOk r.

(** A record of the pool is the persisted one, or is new. *)
Definition fromStoreOrNew (store : list (string * ProblemRecord))
    (r : ProblemRecord) : Prop :=
  lookupRecord (key r) store = Some r \/
  (lookupRecord (key r) store = None /\
   totalAttempts r = 0 /\ nextReviewDate r = None).

Definition poolRecordOk (s : Settings) (store : list (string * ProblemRecord))
    (r : ProblemRecord) : Prop :=
  enabled (operationRanges s (operation r)) = true /\
  problemOk r /\
  (operation r = sub -> operandB r < operandA r) /\
  fromStoreOrNew store r.

(** ** Storage layer (storage.js) *)

Definition MAX_SESSIONS : nat := 100.
Definition MAX_ATTEMPTS : nat := 5000.

(** [obj[k] = r] on an object: an existing key keeps its place, a new
    key goes last. *)
Fixpoint assign (k : string) (r : ProblemRecord)
    (m : list (string * ProblemRecord)) : list (string * ProblemRecord) :=
  match m with
  | [] => [(k, r)]
  | (k', r') :: m' =>
      if String.eqb k k' then (k, r) :: m' else (k', r') :: assign k r m'
  end.

(** [getProblemRecord(key)]. *)
Definition getProblemRecord (w : World) (k : string) : option ProblemRecord :=
  lookupRecord k (problemRecords w).

(** [getAllProblemRecords()]. *)
Definition getAllProblemRecords (w : World) : list (string * ProblemRecord) :=
  problemRecords w.

(** [saveProblemRecord(key, record)]. *)
Definition saveProblemRecord (k : string) (r : ProblemRecord) (w : World) : World :=
  mkWorld (settings w) (assign k r (problemRecords w)) (currentPool w).

(** [array.slice(-n)] for a positive [n]. *)
Definition sliceLast {A : Type} (n : nat) (l : list A) : list A :=
  skipn (List.length l - n) l.

(** An entry of the attempt log: the attempt with its id and the
    instant it was answered. *)
Record LoggedAttempt : Type := mkLogged {
  la_id : string;
  la_timestamp : Z;
  la_attempt : Attempt
}.

(** [logAttempt(attempt)]. *)
Definition logAttempt (attempt : LoggedAttempt) (log : list LoggedAttempt)
  : list LoggedAttempt :=
  let log' := log ++ [attempt] in
  if (MAX_ATTEMPTS <? List.length log')%nat then sliceLast MAX_ATTEMPTS log'
  else log'.

(** ** Experience points and levels (constants.js) *)

(** [Math.floor(Math.sqrt(x))] for [x >= 0]: the integer square root
    of the integer part. *)
Definition floorSqrt (x : Q) : Z := Z.sqrt (Qfloor x).

Definition getLevel (totalXP : Z) : Z :=
  floorSqrt (inject_Z totalXP / 50) + 1.

Definition xpForLevel (level : Z) : Z := level * level * 50.

Definition xpProgress (totalXP : Z) : Q :=
  let level := getLevel totalXP in
  let currentLevelXP := (level - 1) * (level - 1) * 50 in
  let nextLevelXP := level * level * 50 in
  let range := nextLevelXP - currentLevelXP in
  if range =? 0 then 0%Q
  else (inject_Z (totalXP - currentLevelXP) / inject_Z range)%Q.

(** The [XP] table. *)
Module XP.
Definition BASE : Z := 5.
Definition SPEED_THRESHOLDS : list (Q * Z) := [(0.25%Q, 5); (0.50%Q, 3); (0.75%Q, 1)].
Definition STREAK_MULTIPLIER : Z := 2.
Definition STREAK_CAP : Z := 20.
End XP.

(** The loop of [calculateXP] over the thresholds: the bonus of the
    first threshold that the ratio does not exceed. *)
Fixpoint speedBonus (speedRatio : JS.Quot) (thresholds : list (Q * Z)) : Z :=
  match thresholds with
  | [] => 0
  | (ratio, bonus) :: rest =>
      if JS.leb_const speedRatio ratio then bonus
      else speedBonus speedRatio rest
  end.

Definition calculateXP (isCorrect : bool) (responseTimeMs timerLimitMs : Q)
    (currentStreak : Z) : Z :=
  if negb isCorrect then 0
  else
    let xp := XP.BASE in
    let speedRatio := JS.quot responseTimeMs timerLimitMs in
    let xp := xp + speedBonus speedRatio XP.SPEED_THRESHOLDS in
    xp + Z.min XP.STREAK_CAP (currentStreak * XP.STREAK_MULTIPLIER).

(** ** Session driver (app.js): answering a problem *)

(** [personalBests] of the profile. *)
Record PersonalBests : Type := mkBests {
  longestStreak : Z;
  fastestCorrect : option (string * Q);
  highestSessionAccuracy : Q;
  mostProblemsInSession : Z
}.

(** The data that [processAnswer] reads and writes: the storage cache
    (records, total XP, personal bests, attempt log) and the variables
    of the running session.  Of an attempt only the fields that the
    engine reads are kept. *)
Record AppState : Type := mkApp {
  st_world : World;
  st_totalXp : Z;
  st_bests : PersonalBests;
  st_log : list LoggedAttempt;
  st_streak : Z;
  st_sessionXp : Z;
  st_attempts : list Attempt;
  st_totalCorrect : Z;
  st_streakPeak : Z
}.

(** [updatePersonalBestSpeed(key, timeMs)]. *)
Definition updatePersonalBestSpeed (k : string) (timeMs : Q) (pb : PersonalBests)
  : PersonalBests :=
  let faster :=
    match fastestCorrect pb with
    | None => true
    | Some (_, best) => Qltb timeMs best
    end in
  if faster then
    mkBests (longestStreak pb) (Some (k, timeMs))
            (highestSessionAccuracy pb) (mostProblemsInSession pb)
  else pb.

(** The id of an attempt: [a_<now>_<position>]. *)
Definition attemptId (now : Z) (position : nat) : string :=
  ("a_" ++ numToString now ++ "_" ++ numToString (Z.of_nat position))%string.

(** The store after the record read under key [k] was changed in place
    into [record']: the store holds the object itself, so a stored
    record shows the change; a record that was just created is in no
    store yet. *)
Definition changedInPlace (k : string) (stored : option ProblemRecord)
    (record' : ProblemRecord) (w : World) : World :=
  match stored with
  | Some _ => mkWorld (settings w) (assign k record' (problemRecords w))
                      (currentPool w)
  | None => w
  end.

(** [processAnswer]: the state the call leaves, and the way it ends:
    it returns (the value kept is whether a level was gained, the one
    thing the feedback on screen depends on), or the [RangeError] of
    [recordAttempt] passes through it and nothing after the call of
    [recordAttempt] is run.  The argument [userAnswer] only goes into
    the logged attempt and is left out. *)
Definition processAnswer (tz : TimeZone) (now : Z) (st : AppState)
    (currentProblem : Problem) (isCorrect : bool)
    (responseTimeMs timerLimitMs : Q) (timedOut : bool)
  : AppState * Completion bool :=
  let prevLevel := getLevel (st_totalXp st) in
  (* update the SM-2 record *)
  let k := p_key currentProblem in
  let stored := getProblemRecord (st_world st) k in
  let rec :=
    match stored with
    | Some r => r
    | None =>
        createProblemRecord k (p_operation currentProblem)
          (p_a currentProblem) (p_b currentProblem) (p_answer currentProblem)
    end in
  let attempted :=
    recordAttempt tz now rec isCorrect responseTimeMs timerLimitMs timedOut in
  let rec' := after attempted in
  let world1 := changedInPlace k stored rec' (st_world st) in
  match result attempted with
  | Throws =>
      (mkApp world1 (st_totalXp st) (st_bests st) (st_log st)
             (st_streak st) (st_sessionXp st) (st_attempts st)
             (st_totalCorrect st) (st_streakPeak st),
       Throws)
  | Returns _ =>
      let world' := saveProblemRecord (key rec') rec' world1 in
      (* XP *)
      let xp := calculateXP isCorrect responseTimeMs timerLimitMs (st_streak st) in
      let totalXp' := if 0 <? xp then st_totalXp st + xp else st_totalXp st in
      let sessionXp' := if 0 <? xp then st_sessionXp st + xp else st_sessionXp st in
      (* streak *)
      let streak' := if isCorrect then st_streak st + 1 else 0 in
      let totalCorrect' :=
        if isCorrect then st_totalCorrect st + 1 else st_totalCorrect st in
      let peak' :=
        if isCorrect && (st_streakPeak st <? streak') then streak'
        else st_streakPeak st in
      let bests' :=
        if isCorrect then updatePersonalBestSpeed k responseTimeMs (st_bests st)
        else st_bests st in
      (* log the attempt *)
      let attempt :=
        mkAttempt k (p_operation currentProblem) isCorrect responseTimeMs in
      let logged :=
        mkLogged (attemptId now (List.length (st_attempts st))) now attempt in
      (mkApp world' totalXp' bests' (logAttempt logged (st_log st))
             streak' sessionXp' (st_attempts st ++ [attempt]) totalCorrect' peak',
       Returns (prevLevel <? getLevel totalXp'))
  end.

(** The state after the same answer was processed [n] times, whichever
    way the calls ended. *)
Fixpoint answerTimes (n : nat) (tz : TimeZone) (now : Z) (st : AppState)
    (p : Problem) (isCorrect : bool) (responseTimeMs timerLimitMs : Q)
    (timedOut : bool) : AppState :=
  match n with
  | O => st
  | S n' =>
      fst (processAnswer tz now
             (answerTimes n' tz now st p isCorrect responseTimeMs timerLimitMs
                          timedOut)
             p isCorrect responseTimeMs timerLimitMs timedOut)
  end.

(** The problem handed to the learner describes itself: canonical key
    and right answer. *)
Definition presentedOk (p : Problem) : Prop :=
  p_key p = canonicalizeProblemKey (p_operation p) (p_a p) (p_b p) /\
  answerOk (p_operation p) (p_a p) (p_b p) (p_answer p).

(** What holds between two answers of a session. *)
Definition sessionInv (st : AppState) : Prop :=
  storeOk (problemRecords (st_world st)) /\
  (forall (k : string) (r : ProblemRecord),
     lookupRecord k (problemRecords (st_world st)) = Some r ->
     record_inv r /\ consistent r (st_attempts st) /\
     0 <= streak r <= bestStreak r) /\
  (forall a : Attempt,
     In a (st_attempts st) ->
     lookupRecord (problemKey a) (problemRecords (st_world st)) <> None) /\
  st_totalCorrect st =
    Z.of_nat (List.length (filter isCorrect (st_attempts st))) /\
  0 <= st_streak st <= st_streakPeak st /\
  st_streakPeak st <= st_totalCorrect st /\
  0 <= st_sessionXp st.

(** The state when a session starts on a new installation. *)
Definition startState : AppState :=
  mkApp (mkWorld DEFAULT_SETTINGS [] []) 0 (mkBests 0 None 0 0) []
        0 0 [] 0 0.

(** ** Sessions and the merge of cloud data (storage.js, sync.js) *)

(** A finished session, with the fields that storage and merge read. *)
Record Session : Type := mkSession {
  s_id : string;
  s_startTime : Z;
  s_totalProblems : Z;
  s_accuracy : Q;
  s_streakPeak : Z
}.

(** The local data: [loadAll()]. *)
Record LocalData : Type := mkLocal {
  ld_totalXp : Z;
  ld_settings : Settings;
  ld_bests : PersonalBests;
  ld_records : list (string * ProblemRecord);
  ld_sessions : list Session;
  ld_log : list LoggedAttempt
}.

(** [saveSession(session)]: push, keep the latest [MAX_SESSIONS],
    raise the personal bests. *)
Definition saveSession (session : Session) (data : LocalData) : LocalData :=
  let sessions := ld_sessions data ++ [session] in
  let sessions :=
    if (MAX_SESSIONS <? List.length sessions)%nat
    then sliceLast MAX_SESSIONS sessions else sessions in
  let pb := ld_bests data in
  let longest :=
    if longestStreak pb <? s_streakPeak session
    then s_streakPeak session else longestStreak pb in
  let highest :=
    if Qltb (highestSessionAccuracy pb) (s_accuracy session)
    then s_accuracy session else highestSessionAccuracy pb in
  let most :=
    if mostProblemsInSession pb <? s_totalProblems session
    then s_totalProblems session else mostProblemsInSession pb in
  mkLocal (ld_totalXp data) (ld_settings data)
          (mkBests longest (fastestCorrect pb) highest most)
          (ld_records data) sessions (ld_log data).

(** The profile of the cloud copy; a missing number counts as 0, the
    settings and the personal bests may be missing. *)
Record CloudProfile : Type := mkCloudProfile {
  cp_totalXp : Z;
  cp_settings : option Settings;
  cp_bests : option PersonalBests
}.

Record CloudData : Type := mkCloud {
  cd_profile : option CloudProfile;
  cd_records : list (string * ProblemRecord);
  cd_sessions : list Session;
  cd_attempts : list LoggedAttempt
}.

(** One turn of the loop over the cloud records: more attempts wins. *)
Definition mergeRecord (local : list (string * ProblemRecord))
    (entry : string * ProblemRecord) : list (string * ProblemRecord) :=
  let '(k, cloudRec) := entry in
  match lookupRecord k local with
  | None => assign k cloudRec local
  | Some localRec =>
      if totalAttempts localRec <? totalAttempts cloudRec
      then assign k cloudRec local
      else local
  end.

Definition mergeRecords (local cloud : list (string * ProblemRecord))
  : list (string * ProblemRecord) :=
  fold_left mergeRecord cloud local.

(** The personal bests of the merge: the maximum of each number, the
    faster of the two fastest answers. *)
Definition mergeBests (lpb : PersonalBests) (cloudBests : option PersonalBests)
  : PersonalBests :=
  let cpb :=
    match cloudBests with
    | Some b => b
    | None => mkBests 0 None 0 0
    end in
  let fastest :=
    match fastestCorrect cpb with
    | Some (ck, ct) =>
        match fastestCorrect lpb with
        | None => Some (ck, ct)
        | Some (_, lt) => if Qltb ct lt then Some (ck, ct) else fastestCorrect lpb
        end
    | None => fastestCorrect lpb
    end in
  mkBests (Z.max (longestStreak lpb) (longestStreak cpb))
          fastest
          (Qmax (highestSessionAccuracy lpb) (highestSessionAccuracy cpb))
          (Z.max (mostProblemsInSession lpb) (mostProblemsInSession cpb)).

(** The entries of the cloud list with an id that no local entry has. *)
Definition newById {A : Type} (idOf : A -> string) (local cloud : list A) : list A :=
  filter (fun c =>
            negb (String.eqb (idOf c) "") &&
            negb (existsb (String.eqb (idOf c)) (map idOf local)))
         cloud.

(** Merge of two lists by id, sorted by time, capped at [cap]. *)
Definition mergeById {A : Type} (idOf : A -> string) (timeOf : A -> Z) (cap : nat)
    (local cloud : list A) : list A :=
  let all := local ++ newById idOf local cloud in
  let sorted := sortBy (fun a b => inject_Z (timeOf a - timeOf b)) all in
  if (cap <? List.length sorted)%nat then sliceLast cap sorted else sorted.

(** [mergeCloudIntoLocal(localData, cloudData)]. *)
Definition mergeCloudIntoLocal (localData : LocalData) (cloudData : option CloudData)
  : LocalData :=
  match cloudData with
  | None => localData
  | Some cloud =>
      let '(xp, sett, bests) :=
        match cd_profile cloud with
        | Some cp =>
            (Z.max (ld_totalXp localData) (cp_totalXp cp),
             match cp_settings cp with
             | Some s => s
             | None => ld_settings localData
             end,
             mergeBests (ld_bests localData) (cp_bests cp))
        | None => (ld_totalXp localData, ld_settings localData, ld_bests localData)
        end in
      mkLocal xp sett bests
        (mergeRecords (ld_records localData) (cd_records cloud))
        (mergeById s_id s_startTime 100 (ld_sessions localData) (cd_sessions cloud))
        (mergeById la_id la_timestamp 5000 (ld_log localData) (cd_attempts cloud))
  end.

(** A store holds, for every entry of a list, a record of its key with
    at least as many attempts. *)
Definition dominates (m cloud : list (string * ProblemRecord)) : Prop :=
  forall k c, In (k, c) cloud ->
    exists r, lookupRecord k m = Some r /\ totalAttempts c <= totalAttempts r.

(** ** Statistics (stats.js) *)

(** [array.slice(start)]: a negative [start] counts from the end. *)
Definition sliceFrom {A : Type} (start : Z) (l : list A) : list A :=
  let len := Z.of_nat (List.length l) in
  let k := if start <? 0 then Z.max (len + start) 0 else Z.min start len in
  skipn (Z.to_nat k) l.

(** [getSessionHistory(limit)]. *)
Definition getSessionHistory (limit : Z) (sessions : list Session) : list Session :=
  rev (sliceFrom (- limit) sessions).

Inductive Trend : Type := stable | improving | declining.

Record OperationStats : Type := mkStats {
  os_totalAttempts : Z;
  os_totalCorrect : Z;
  os_accuracy : Q;
  os_avgTimeMs : Q;
  os_trend : Trend
}.

Definition weekMs : Z := 7 * 86400000.

(** The share of correct attempts of a window of the log, [null] for
    an empty window. *)
Definition windowAccuracy (window : list LoggedAttempt) : option Q :=
  if (0 <? List.length window)%nat then
    Some (inject_Z (Z.of_nat (List.length
                                (filter (fun a => isCorrect (la_attempt a)) window)))
          / inject_Z (Z.of_nat (List.length window)))%Q
  else None.

(** [getOperationStats(operation)]. *)
Definition getOperationStats (now : Z) (allRecords : list (string * ProblemRecord))
    (log : list LoggedAttempt) (op : Operation) : option OperationStats :=
  let records :=
    filter (fun r => Operation_eqb (operation r) op) (recordValues allRecords) in
  if (List.length records =? 0)%nat then None
  else
    let attempts := fold_left (fun s r => s + totalAttempts r) records 0 in
    let correct := fold_left (fun s r => s + totalCorrect r) records 0 in
    let time := fold_left (fun s r => (s + totalTimeMs r)%Q) records (0 : Q) in
    let acc :=
      if 0 <? attempts then (inject_Z correct / inject_Z attempts)%Q else 0%Q in
    let avg := if 0 <? attempts then (time / inject_Z attempts)%Q else 0%Q in
    let recent :=
      filter (fun a =>
                Operation_eqb (att_operation (la_attempt a)) op &&
                (now - la_timestamp a <? weekMs)) log in
    let prev :=
      filter (fun a =>
                Operation_eqb (att_operation (la_attempt a)) op &&
                (weekMs <=? now - la_timestamp a) &&
                (now - la_timestamp a <? 2 * weekMs)) log in
    let trend :=
      match windowAccuracy recent, windowAccuracy prev with
      | Some recentAcc, Some prevAcc =>
          if Qltb (prevAcc + 0.05) recentAcc then improving
          else if Qltb recentAcc (prevAcc - 0.05) then declining
          else stable
      | _, _ => stable
      end in
    Some (mkStats attempts correct acc avg trend).

(** ** Session driver (app.js): the next problem *)

(** The states of the session state machine. *)
Inductive AppMode : Type :=
  IDLE | STARTING | WARMUP | CORE | CHALLENGE | PAUSED | REVIEWING | DRILLING.

(** [state.toLowerCase()] read as a phase by [selectNextProblem]. *)
Definition phaseOf (state : AppMode) : Phase :=
  match state with
  | WARMUP => warmup
  | CORE => core
  | CHALLENGE => challenge
  | _ => otherPhase
  end.

(** What [nextProblem] does: nothing, end the session, or show a
    problem. *)
Inductive NextResult : Type :=
| Ignored
| SessionEnded
| Presented (p : Problem).

(** [enabledOps[Math.floor(Math.random() * enabledOps.length)]] followed
    by [generateRandomProblem]. *)
Definition randomEnabledProblem (fuel : nat) (s : Settings) (ops : list Operation)
  : Gen Problem :=
  u <- Math_random ;;
  match JS.floor (u * inject_Z (Z.of_nat (List.length ops))) with
  | Z.neg _ => fail
  | idx =>
      match nth_error ops (Z.to_nat idx) with
      | Some op => generateRandomProblem fuel s op
      | None => fail
      end
  end.

Definition nextProblem (fuel : nat) (now : Z) (w : World)
    (drillPool : list ProblemRecord) (sessionAttempts : list Attempt)
    (state : AppMode) : Gen NextResult :=
  match state with
  | REVIEWING | IDLE => ret Ignored
  | DRILLING =>
      currentProblem <- selectDrillProblem now drillPool sessionAttempts ;;
      match currentProblem with
      | None => ret SessionEnded
      | Some p => ret (Presented p)
      end
  | _ =>
      currentProblem <-
        selectNextProblem fuel now w sessionAttempts (phaseOf state) ;;
      match currentProblem with
      | Some p => ret (Presented p)
      | None =>
          (* fallback: random problem *)
          let ops := enabledOps (settings w) in
          if (List.length ops =? 0)%nat then ret SessionEnded
          else
            p <- randomEnabledProblem fuel (settings w) ops ;;
            ret (Presented p)
      end
  end.

(** * Properties *)

(** ** Basic facts *)

Lemma Operation_eqb_eq (x y : Operation) : Operation_eqb x y = true <-> x = y.
Proof. destruct x, y; simpl; split; congruence. Qed.

Lemma Operation_eqb_neq (x y : Operation) : Operation_eqb x y = false <-> x <> y.
Proof. destruct x, y; simpl; split; congruence. Qed.

Lemma Qltb_lt (x y : Q) : Qltb x y = true <-> (x < y)%Q.
Proof.
  unfold Qltb. rewrite negb_true_iff. split.
  - intros H. apply Qnot_le_lt. intros Hle.
    apply Qle_bool_iff in Hle. congruence.
  - intros H. destruct (Qle_bool y x) eqn:E; [|reflexivity].
    apply Qle_bool_iff in E. exfalso. apply (Qlt_not_le _ _ H E).
Qed.

Lemma Qle_bool_false (x y : Q) : Qle_bool x y = false <-> (y < x)%Q.
Proof.
  rewrite <- Qltb_lt. unfold Qltb. rewrite negb_true_iff. tauto.
Qed.

Lemma clamp_bounds (lo hi x : Q) :
  (lo <= hi)%Q -> (lo <= Qmax lo (Qmin hi x) <= hi)%Q.
Proof.
  intros H. split.
  - apply Q.le_max_l.
  - apply Q.max_lub; [exact H | apply Q.le_min_l].
Qed.

Lemma round_nonneg (x : Q) : (0 <= x)%Q -> 0 <= JS.round x.
Proof.
  intros H. unfold JS.round.
  change 0 with (Qfloor 0). apply Qfloor_resp_le. lra.
Qed.

(** ** Dates *)

(** Date strings of [toISOString]: the epoch, a leap day, the last day
    of the four-digit years, the first day after it, the two days
    around the year 0, and the last day of [Date]. *)
Example isoDate_examples :
  map isoDate [0; 19782; 2932896; 2932897; -719528; -719529; 100000000] =
  ["1970-01-01"; "2024-02-29"; "9999-12-31"; "+010000-01-01"; "0000-01-01";
   "-000001-12-31"; "+275760-09-13"]%string.
Proof. vm_compute. reflexivity. Qed.

(** A date of the year 10000 compares as not later than a date of this
    century: its string begins with a plus sign. *)
Example dateGeb_year_10000 :
  dateGeb 19000 2932897 = true /\ dateGeb 19000 2932896 = false.
Proof. split; vm_compute; reflexivity. Qed.

(** ** Rounding to the nearest double *)

Lemma pow2_pos (e : Z) : (0 < JS.pow2 e)%Q.
Proof. unfold JS.pow2. apply Qpower_0_lt. reflexivity. Qed.

Lemma pow2_succ (e : Z) : (JS.pow2 (e + 1) == 2 * JS.pow2 e)%Q.
Proof.
  unfold JS.pow2. rewrite Qpower_plus by discriminate. rewrite Qpower_1_r. ring.
Qed.

Lemma pow2_le (a b : Z) : a <= b -> (JS.pow2 a <= JS.pow2 b)%Q.
Proof. intros H. unfold JS.pow2. apply Qpower_le_compat_l; [exact H|]. discriminate. Qed.

Lemma pow2_inject (a : Z) : 0 <= a -> (JS.pow2 a == inject_Z (2 ^ a))%Q.
Proof. intros H. unfold JS.pow2. now rewrite Zpower_Qpower. Qed.

Lemma roundEven_bounds (x : Q) :
  Qfloor x <= JS.roundEven x <= Qfloor x + 1.
Proof.
  unfold JS.roundEven. destruct (_ ?= _)%Q; [destruct (Z.even _)| |]; lia.
Qed.

Lemma roundEven_inject (n : Z) : JS.roundEven (inject_Z n) = n.
Proof.
  unfold JS.roundEven. rewrite Qfloor_Z.
  replace (inject_Z n - inject_Z n ?= 1 # 2)%Q with Lt; [reflexivity|].
  symmetry. apply Qlt_alt.
  assert (E : (inject_Z n - inject_Z n == 0)%Q) by ring.
  rewrite E. reflexivity.
Qed.

Lemma roundEven_mono (x y : Q) : (x <= y)%Q -> JS.roundEven x <= JS.roundEven y.
Proof.
  intros H.
  pose proof (Qfloor_resp_le _ _ H) as Hf.
  destruct (Z.eq_dec (Qfloor x) (Qfloor y)) as [E|N].
  - unfold JS.roundEven. rewrite E.
    destruct (y - inject_Z (Qfloor y) ?= 1 # 2)%Q eqn:Cy;
      destruct (x - inject_Z (Qfloor y) ?= 1 # 2)%Q eqn:Cx;
      try (destruct (Z.even (Qfloor y))); try lia; exfalso;
      repeat match goal with
      | C : (_ ?= _)%Q = Eq |- _ => apply Qeq_alt in C
      | C : (_ ?= _)%Q = Lt |- _ => apply Qlt_alt in C
      | C : (_ ?= _)%Q = Gt |- _ => apply Qgt_alt in C
      end; lra.
  - pose proof (roundEven_bounds x). pose proof (roundEven_bounds y). lia.
Qed.

Lemma ilog2_spec (x : Q) :
  (0 < x)%Q -> (JS.pow2 (JS.ilog2 x) <= x)%Q /\ (x < JS.pow2 (JS.ilog2 x + 1))%Q.
Proof.
  intros Hx. destruct x as [n d].
  assert (Hn : 0 < n) by (unfold Qlt in Hx; simpl in Hx; lia).
  unfold JS.ilog2. cbn [Qnum Qden].
  set (a := Z.log2 n). set (b := Z.log2 (Z.pos d)).
  destruct (Z.log2_spec n Hn) as [A1 A2]. fold a in A1, A2.
  destruct (Z.log2_spec (Z.pos d) (eq_refl : 0 < Z.pos d)) as [B1 B2].
  fold b in B1, B2.
  assert (Ha : 0 <= a) by apply Z.log2_nonneg.
  assert (Hb : 0 <= b) by apply Z.log2_nonneg.
  assert (Ek : (JS.pow2 (a - b) == inject_Z (2 ^ a) / inject_Z (2 ^ b))%Q).
  { unfold JS.pow2. rewrite Qpower_minus by discriminate.
    rewrite !Zpower_Qpower by assumption. reflexivity. }
  assert (Ex : (n # d == inject_Z n / inject_Z (Z.pos d))%Q) by apply Qmake_Qdiv.
  assert (PA : (0 < inject_Z (2 ^ a))%Q).
  { change 0%Q with (inject_Z 0). rewrite <- Zlt_Qlt. lia. }
  assert (PB : (0 < inject_Z (2 ^ b))%Q).
  { change 0%Q with (inject_Z 0). rewrite <- Zlt_Qlt. lia. }
  assert (PD : (0 < inject_Z (Z.pos d))%Q) by reflexivity.
  assert (QA1 : (inject_Z (2 ^ a) <= inject_Z n)%Q) by (rewrite <- Zle_Qle; exact A1).
  assert (QA2 : (inject_Z n < 2 * inject_Z (2 ^ a))%Q).
  { change 2%Q with (inject_Z 2). rewrite <- inject_Z_mult, <- Zlt_Qlt.
    rewrite <- Z.pow_succ_r by assumption. exact A2. }
  assert (QB1 : (inject_Z (2 ^ b) <= inject_Z (Z.pos d))%Q)
    by (rewrite <- Zle_Qle; exact B1).
  assert (QB2 : (inject_Z (Z.pos d) < 2 * inject_Z (2 ^ b))%Q).
  { change 2%Q with (inject_Z 2). rewrite <- inject_Z_mult, <- Zlt_Qlt.
    rewrite <- Z.pow_succ_r by assumption. exact B2. }
  set (N := inject_Z n) in *. set (D := inject_Z (Z.pos d)) in *.
  set (A := inject_Z (2 ^ a)) in *. set (B := inject_Z (2 ^ b)) in *.
  assert (Up : (N / D < 2 * (A / B))%Q).
  { apply Qlt_shift_div_r; [exact PD|].
    assert (E : (2 * (A / B) * D == (2 * A * D) / B)%Q) by (field; lra).
    rewrite E. apply Qlt_shift_div_l; [exact PB|]. nra. }
  assert (Lo : (A / B < 2 * (N / D))%Q).
  { apply Qlt_shift_div_r; [exact PB|].
    assert (E : (2 * (N / D) * B == (2 * N * B) / D)%Q) by (field; lra).
    rewrite E. apply Qlt_shift_div_l; [exact PD|]. nra. }
  destruct (Qle_bool (JS.pow2 (a - b)) (n # d)) eqn:T.
  - apply Qle_bool_iff in T. split; [exact T|].
    rewrite pow2_succ, Ek, Ex. exact Up.
  - assert (T' : (n # d < JS.pow2 (a - b))%Q).
    { apply Qnot_le_lt. intros C. apply Qle_bool_iff in C. congruence. }
    replace (a - b - 1 + 1) with (a - b) by lia. split; [|exact T'].
    assert (E2 : (JS.pow2 (a - b) == 2 * JS.pow2 (a - b - 1))%Q).
    { rewrite <- pow2_succ. replace (a - b - 1 + 1) with (a - b) by lia. reflexivity. }
    rewrite Ek in E2. rewrite Ex. lra.
Qed.

Lemma ilog2_mono (x y : Q) :
  (0 < x)%Q -> (x <= y)%Q -> JS.ilog2 x <= JS.ilog2 y.
Proof.
  intros Hx Hxy.
  destruct (ilog2_spec x Hx) as [X1 _].
  destruct (ilog2_spec y) as [_ Y2]; [lra|].
  assert (L : (JS.pow2 (JS.ilog2 x) < JS.pow2 (JS.ilog2 y + 1))%Q) by lra.
  apply Qpower_lt_compat_l_inv in L; [lia | reflexivity].
Qed.

Lemma nearest_nonneg (x : Q) : (0 < x)%Q -> (0 <= JS.nearest x)%Q.
Proof.
  intros Hx. unfold JS.nearest. rewrite Qred_correct.
  set (e := Z.max _ _). pose proof (pow2_pos e) as Hp.
  apply Qmult_le_0_compat; [|lra].
  change 0%Q with (inject_Z 0). rewrite <- Zle_Qle.
  rewrite <- (roundEven_inject 0). apply roundEven_mono.
  apply Qle_shift_div_l; [exact Hp|]. change (inject_Z 0) with 0%Q. lra.
Qed.

Lemma nearest_mono (x y : Q) :
  (0 < x)%Q -> (x <= y)%Q -> (JS.nearest x <= JS.nearest y)%Q.
Proof.
  intros Hx Hxy. assert (Hy : (0 < y)%Q) by lra.
  unfold JS.nearest. rewrite !Qred_correct.
  pose proof (ilog2_mono x y Hx Hxy) as Hl.
  set (ex := Z.max (JS.ilog2 x - 52) (-1074)).
  set (ey := Z.max (JS.ilog2 y - 52) (-1074)).
  pose proof (pow2_pos ex) as Px. pose proof (pow2_pos ey) as Py.
  destruct (Z.eq_dec ex ey) as [E|N].
  - rewrite E. apply Qmult_le_compat_r; [|lra].
    rewrite <- Zle_Qle. apply roundEven_mono.
    apply Qle_shift_div_l; [exact Py|].
    assert (Ed : (x / JS.pow2 ey * JS.pow2 ey == x)%Q) by (field; lra).
    rewrite Ed. exact Hxy.
  - assert (Lt : ex < ey) by lia.
    assert (Ey : ey = JS.ilog2 y - 52) by lia.
    (* x / 2^ex < 2^53 *)
    destruct (ilog2_spec x Hx) as [_ X2].
    destruct (ilog2_spec y Hy) as [Y1 _].
    assert (Ux : (x <= JS.pow2 (ex + 53))%Q).
    { apply Qle_trans with (JS.pow2 (JS.ilog2 x + 1)); [lra|]. apply pow2_le. lia. }
    assert (Rx : (inject_Z (JS.roundEven (x / JS.pow2 ex)) <= inject_Z (2 ^ 53))%Q).
    { rewrite <- Zle_Qle. rewrite <- (roundEven_inject (2 ^ 53)).
      apply roundEven_mono. apply Qle_shift_div_r; [exact Px|].
      rewrite <- pow2_inject by lia.
      unfold JS.pow2 in *. rewrite <- Qpower_plus by discriminate.
      replace (53 + ex) with (ex + 53) by lia. exact Ux. }
    assert (Ry : (inject_Z (2 ^ 52) <= inject_Z (JS.roundEven (y / JS.pow2 ey)))%Q).
    { rewrite <- Zle_Qle. rewrite <- (roundEven_inject (2 ^ 52)) at 1.
      apply roundEven_mono. apply Qle_shift_div_l; [exact Py|].
      rewrite <- pow2_inject by lia.
      unfold JS.pow2 in *. rewrite <- Qpower_plus by discriminate.
      replace (52 + ey) with (JS.ilog2 y) by lia. exact Y1. }
    apply Qle_trans with (inject_Z (2 ^ 53) * JS.pow2 ex)%Q.
    { apply Qmult_le_compat_r; [exact Rx | lra]. }
    apply Qle_trans with (inject_Z (2 ^ 52) * JS.pow2 ey)%Q.
    2:{ apply Qmult_le_compat_r; [exact Ry | lra]. }
    rewrite <- !pow2_inject by lia. unfold JS.pow2.
    rewrite <- !Qpower_plus by discriminate.
    apply Qpower_le_compat_l; [lia | discriminate].
Qed.

Lemma fl_nonneg (x : Q) : (0 <= x)%Q -> (0 <= JS.fl x)%Q.
Proof.
  intros H. unfold JS.fl. destruct (x ?= 0)%Q eqn:C.
  - lra.
  - apply Qlt_alt in C. lra.
  - apply Qgt_alt in C. now apply nearest_nonneg.
Qed.

Lemma fl_nonpos (x : Q) : (x <= 0)%Q -> (JS.fl x <= 0)%Q.
Proof.
  intros H. unfold JS.fl. destruct (x ?= 0)%Q eqn:C.
  - lra.
  - apply Qlt_alt in C.
    assert (0 <= JS.nearest (- x))%Q by (apply nearest_nonneg; lra). lra.
  - apply Qgt_alt in C. lra.
Qed.

Lemma fl_mono (x y : Q) : (x <= y)%Q -> (JS.fl x <= JS.fl y)%Q.
Proof.
  intros H.
  destruct (Qlt_le_dec 0 x) as [Px|Nx].
  - assert (Py : (0 < y)%Q) by lra.
    unfold JS.fl.
    replace (x ?= 0)%Q with Gt by (symmetry; apply Qgt_alt; exact Px).
    replace (y ?= 0)%Q with Gt by (symmetry; apply Qgt_alt; exact Py).
    now apply nearest_mono.
  - destruct (Qlt_le_dec 0 y) as [Py|Ny].
    + apply Qle_trans with 0%Q; [now apply fl_nonpos | apply fl_nonneg; lra].
    + destruct (Qlt_le_dec y 0) as [Ly|Zy].
      * assert (Lx : (x < 0)%Q) by lra.
        unfold JS.fl.
        replace (x ?= 0)%Q with Lt by (symmetry; apply Qlt_alt; exact Lx).
        replace (y ?= 0)%Q with Lt by (symmetry; apply Qlt_alt; exact Ly).
        assert ((JS.nearest (- y) <= JS.nearest (- x))%Q)
          by (apply nearest_mono; lra).
        lra.
      * apply Qle_trans with 0%Q; [now apply fl_nonpos | apply fl_nonneg; lra].
Qed.

Lemma fl_compat (x y : Q) : (x == y)%Q -> (JS.fl x == JS.fl y)%Q.
Proof.
  intros H. apply Qle_antisym; apply fl_mono; lra.
Qed.


Lemma fl_zero (x : Q) : (x == 0)%Q -> JS.fl x = 0%Q.
Proof.
  intros H. unfold JS.fl. apply Qeq_alt in H. now rewrite H.
Qed.

Lemma ilog2_lt (y : Q) (k : Z) : (0 < y)%Q -> (y < JS.pow2 k)%Q -> JS.ilog2 y < k.
Proof.
  intros Hy H. destruct (ilog2_spec y Hy) as [L _].
  assert (P : (JS.pow2 (JS.ilog2 y) < JS.pow2 k)%Q) by lra.
  apply Qpower_lt_compat_l_inv in P; [exact P | reflexivity].
Qed.

Lemma ilog2_ge (y : Q) (k : Z) : (JS.pow2 k <= y)%Q -> k <= JS.ilog2 y.
Proof.
  intros H. pose proof (pow2_pos k) as Pk.
  destruct (ilog2_spec y) as [_ U]; [lra|].
  assert (P : (JS.pow2 k < JS.pow2 (JS.ilog2 y + 1))%Q) by lra.
  apply Qpower_lt_compat_l_inv in P; [lia | reflexivity].
Qed.

Lemma pow2_add (a b : Z) : (JS.pow2 (a + b) == JS.pow2 a * JS.pow2 b)%Q.
Proof. unfold JS.pow2. apply Qpower_plus. discriminate. Qed.

Lemma roundEven_eq (x : Q) (n : Z) : (x == inject_Z n)%Q -> JS.roundEven x = n.
Proof.
  intros E. apply Z.le_antisymm.
  - apply Z.le_trans with (JS.roundEven (inject_Z n));
      [apply roundEven_mono; lra | rewrite roundEven_inject; lia].
  - apply Z.le_trans with (JS.roundEven (inject_Z n));
      [rewrite roundEven_inject; lia | apply roundEven_mono; lra].
Qed.

(** A positive multiple [m * 2^e] of a spacing, with a significand
    [m] of at most 53 bits that is full unless the spacing is the
    least one, is its own rounding. *)
Lemma nearest_fixed (m e : Z) :
  0 < m <= 2 ^ 53 -> -1074 <= e -> (e = -1074 \/ 2 ^ 52 <= m) ->
  (JS.nearest (inject_Z m * JS.pow2 e) == inject_Z m * JS.pow2 e)%Q.
Proof.
  intros [M0 M1] E0 Full.
  set (y := (inject_Z m * JS.pow2 e)%Q).
  pose proof (pow2_pos e) as Pe.
  assert (Qm : (0 < inject_Z m)%Q)
    by (change 0%Q with (inject_Z 0); rewrite <- Zlt_Qlt; exact M0).
  assert (Hy : (0 < y)%Q) by (subst y; nra).
  assert (P53 : (JS.pow2 (53 + e) == inject_Z (2 ^ 53) * JS.pow2 e)%Q).
  { rewrite pow2_add, pow2_inject by lia. reflexivity. }
  assert (P52 : (JS.pow2 (52 + e) == inject_Z (2 ^ 52) * JS.pow2 e)%Q).
  { rewrite pow2_add, pow2_inject by lia. reflexivity. }
  unfold JS.nearest. rewrite Qred_correct.
  destruct (Z.eq_dec m (2 ^ 53)) as [Em|Nm].
  - (* the significand has overflowed into the next binade *)
    assert (Ey : (y == JS.pow2 (53 + e))%Q) by (subst y; rewrite P53, Em; reflexivity).
    assert (Il : JS.ilog2 y = 53 + e).
    { apply Z.le_antisymm.
      - assert (JS.ilog2 y < 53 + e + 1); [|lia].
        apply ilog2_lt; [exact Hy|]. rewrite Ey, (pow2_succ (53 + e)).
        pose proof (pow2_pos (53 + e)). lra.
      - apply ilog2_ge. rewrite Ey. apply Qle_refl. }
    rewrite Il. replace (Z.max (53 + e - 52) (-1074)) with (e + 1) by lia.
    assert (Ed : (y / JS.pow2 (e + 1) == inject_Z (2 ^ 52))%Q).
    { rewrite Ey. replace (53 + e) with (52 + (e + 1)) by lia.
      rewrite (pow2_add 52 (e + 1)), (pow2_inject 52) by lia.
      pose proof (pow2_pos (e + 1)). field. lra. }
    assert (Er : JS.roundEven (y / JS.pow2 (e + 1)) = 2 ^ 52)
      by (apply roundEven_eq; exact Ed).
    rewrite Er, Ey. replace (53 + e) with (52 + (e + 1)) by lia.
    rewrite (pow2_add 52 (e + 1)), (pow2_inject 52) by lia. reflexivity.
  - assert (Lt : m < 2 ^ 53) by lia.
    assert (Uy : (y < JS.pow2 (53 + e))%Q).
    { subst y. rewrite P53. apply Qmult_lt_compat_r; [exact Pe|].
      rewrite <- Zlt_Qlt. exact Lt. }
    assert (I1 : JS.ilog2 y < 53 + e) by (apply ilog2_lt; assumption).
    assert (Ee : Z.max (JS.ilog2 y - 52) (-1074) = e).
    { destruct Full as [->|F]; [lia|].
      assert (52 + e <= JS.ilog2 y); [|lia].
      apply ilog2_ge. subst y. rewrite P52.
      apply Qmult_le_compat_r; [|lra]. rewrite <- Zle_Qle. exact F. }
    rewrite Ee.
    assert (Ed : (y / JS.pow2 e == inject_Z m)%Q) by (subst y; field; lra).
    assert (Er : JS.roundEven (y / JS.pow2 e) = m)
      by (apply roundEven_eq; exact Ed).
    rewrite Er. reflexivity.
Qed.

Lemma nearest_shape (x : Q) :
  (0 < x)%Q ->
  exists m e : Z,
    (JS.nearest x == inject_Z m * JS.pow2 e)%Q /\
    0 <= m <= 2 ^ 53 /\ -1074 <= e /\ (e = -1074 \/ 2 ^ 52 <= m).
Proof.
  intros Hx. unfold JS.nearest.
  set (e := Z.max (JS.ilog2 x - 52) (-1074)).
  pose proof (pow2_pos e) as Pe.
  exists (JS.roundEven (x / JS.pow2 e)), e.
  split; [apply Qred_correct|].
  destruct (ilog2_spec x Hx) as [X1 X2].
  split; [split|split].
  - rewrite <- (roundEven_inject 0). apply roundEven_mono.
    apply Qle_shift_div_l; [exact Pe|]. change (inject_Z 0) with 0%Q. lra.
  - rewrite <- (roundEven_inject (2 ^ 53)). apply roundEven_mono.
    apply Qle_shift_div_r; [exact Pe|]. rewrite <- pow2_inject by lia.
    rewrite <- pow2_add.
    apply Qle_trans with (JS.pow2 (JS.ilog2 x + 1)); [lra|]. apply pow2_le. lia.
  - lia.
  - destruct (Z.eq_dec e (-1074)) as [E|N]; [left; exact E | right].
    assert (Ee : e = JS.ilog2 x - 52) by lia.
    rewrite <- (roundEven_inject (2 ^ 52)). apply roundEven_mono.
    apply Qle_shift_div_l; [exact Pe|]. rewrite <- pow2_inject by lia.
    rewrite <- pow2_add. replace (52 + e) with (JS.ilog2 x) by lia. exact X1.
Qed.

Lemma nearest_idempotent (x : Q) :
  (0 < x)%Q -> JS.double (JS.nearest x).
Proof.
  intros Hx. destruct (nearest_shape x Hx) as (m & e & E & [M0 M1] & E0 & Full).
  unfold JS.double.
  destruct (Z.eq_dec m 0) as [->|Nm].
  - assert (Z0 : (JS.nearest x == 0)%Q) by (rewrite E; ring).
    rewrite (fl_zero _ Z0). symmetry. exact Z0.
  - assert (Py : (0 < JS.nearest x)%Q).
    { rewrite E. pose proof (pow2_pos e).
      assert (0 < inject_Z m)%Q
        by (change 0%Q with (inject_Z 0); rewrite <- Zlt_Qlt; lia).
      nra. }
    unfold JS.fl.
    replace (JS.nearest x ?= 0)%Q with Gt by (symmetry; apply Qgt_alt; exact Py).
    apply Qle_antisym.
    + apply Qle_trans with (JS.nearest (inject_Z m * JS.pow2 e)).
      * apply nearest_mono; [exact Py | rewrite E; apply Qle_refl].
      * rewrite nearest_fixed by (try assumption; lia). rewrite E. apply Qle_refl.
    + apply Qle_trans with (JS.nearest (inject_Z m * JS.pow2 e)).
      * rewrite nearest_fixed by (try assumption; lia). rewrite E. apply Qle_refl.
      * apply nearest_mono; [|rewrite E; apply Qle_refl].
        rewrite <- E. exact Py.
Qed.

(** Every result of the rounding is a double. *)
Lemma fl_double (x : Q) : JS.double (JS.fl x).
Proof.
  unfold JS.double.
  destruct (Qlt_le_dec 0 x) as [Px|Nx].
  - assert (E : JS.fl x = JS.nearest x).
    { unfold JS.fl. now replace (x ?= 0)%Q with Gt by (symmetry; apply Qgt_alt; exact Px). }
    rewrite E. apply nearest_idempotent. exact Px.
  - destruct (Qlt_le_dec x 0) as [Lx|Zx].
    + assert (E : JS.fl x = (- JS.nearest (- x))%Q).
      { unfold JS.fl. now replace (x ?= 0)%Q with Lt by (symmetry; apply Qlt_alt; exact Lx). }
      rewrite E.
      assert (Hn : (0 < - x)%Q) by lra.
      pose proof (nearest_idempotent (- x) Hn) as D. unfold JS.double in D.
      pose proof (nearest_nonneg (- x) Hn) as N0.
      destruct (Qlt_le_dec 0 (JS.nearest (- x))) as [P|Z].
      * assert (Ng : (- JS.nearest (- x) < 0)%Q) by lra.
        unfold JS.fl at 1.
        replace (- JS.nearest (- x) ?= 0)%Q with Lt
          by (symmetry; apply Qlt_alt; exact Ng).
        assert (C : (JS.nearest (- - JS.nearest (- x)) == JS.nearest (- x))%Q).
        { assert (F : JS.fl (JS.nearest (- x)) = JS.nearest (JS.nearest (- x))).
          { unfold JS.fl.
            now replace (JS.nearest (- x) ?= 0)%Q with Gt
              by (symmetry; apply Qgt_alt; exact P). }
          rewrite F in D. rewrite <- D at 2.
          apply Qle_antisym; apply nearest_mono; lra. }
        rewrite C. reflexivity.
      * assert (Z0 : (- JS.nearest (- x) == 0)%Q) by lra.
        rewrite (fl_zero _ Z0). symmetry. exact Z0.
    + assert (Z0 : (x == 0)%Q) by lra.
      rewrite (fl_zero _ Z0). reflexivity.
Qed.

Lemma double_compat (x y : Q) : (x == y)%Q -> JS.double x -> JS.double y.
Proof.
  unfold JS.double. intros E D. rewrite <- E at 2. rewrite <- D.
  apply fl_compat. symmetry. exact E.
Qed.

Lemma double_max (x y : Q) : JS.double x -> JS.double y -> JS.double (Qmax x y).
Proof.
  intros Dx Dy. destruct (Q.max_spec x y) as [[_ E]|[_ E]];
    [apply (double_compat y) | apply (double_compat x)];
    try assumption; symmetry; exact E.
Qed.

Lemma double_min (x y : Q) : JS.double x -> JS.double y -> JS.double (Qmin x y).
Proof.
  intros Dx Dy. destruct (Q.min_spec x y) as [[_ E]|[_ E]];
    [apply (double_compat x) | apply (double_compat y)];
    try assumption; symmetry; exact E.
Qed.

(** The rounding on numbers whose nearest double is known: the double
    of 0.1; the sum 0.1 + 0.2; a tie between two doubles, which goes
    to the even significand, above [2^53] and at half the least
    subnormal number. *)
Example fl_examples :
  (JS.lit 0.1 == 3602879701896397 # 36028797018963968)%Q /\
  (JS.add (JS.lit 0.1) (JS.lit 0.2) == JS.lit 0.30000000000000004)%Q /\
  ~ (JS.add (JS.lit 0.1) (JS.lit 0.2) == JS.lit 0.3)%Q /\
  (JS.fl (inject_Z (2 ^ 53 + 1)) == inject_Z (2 ^ 53))%Q /\
  (JS.fl (inject_Z (2 ^ 53 + 3)) == inject_Z (2 ^ 53 + 4))%Q /\
  (JS.fl (JS.pow2 (-1075)) == 0)%Q /\
  (JS.fl (3 * JS.pow2 (-1076)) == JS.pow2 (-1074))%Q.
Proof.
  repeat split; try (apply Qeq_bool_eq; vm_compute; reflexivity).
  intros H. apply Qeq_eq_bool in H. vm_compute in H. discriminate.
Qed.

Lemma fl_double_le (x y : Q) : JS.double y -> (x <= y)%Q -> (JS.fl x <= y)%Q.
Proof.
  intros D H. unfold JS.double in D. rewrite <- D. now apply fl_mono.
Qed.

Lemma fl_double_ge (x y : Q) : JS.double x -> (x <= y)%Q -> (x <= JS.fl y)%Q.
Proof.
  intros D H. unfold JS.double in D. rewrite <- D. now apply fl_mono.
Qed.

Lemma Qeq_bool_true (x y : Q) : Qeq_bool x y = true -> (x == y)%Q.
Proof. apply Qeq_bool_eq. Qed.

(** ** Memory model *)

Lemma leb_const_le (x : JS.Quot) (c : Q) :
  JS.leb_const x c = true <-> JS.le x (JS.Fin c).
Proof.
  destruct x; simpl; try tauto; try (split; [discriminate | tauto]).
  apply Qle_bool_iff.
Qed.

Lemma leb_const_false_lt (x : JS.Quot) (c : Q) :
  JS.leb_const x c = false -> x <> JS.NaN -> JS.lt (JS.Fin c) x.
Proof.
  destruct x; simpl; intros H N; try congruence; try exact I.
  now apply Qle_bool_false.
Qed.

Lemma le_trans_const (x y : JS.Quot) (c : Q) :
  JS.le x y -> JS.le y (JS.Fin c) -> JS.le x (JS.Fin c).
Proof.
  destruct x, y; simpl; try tauto. apply Qle_trans.
Qed.

Lemma lt_not_le_const (x : JS.Quot) (c : Q) :
  JS.lt (JS.Fin c) x -> ~ JS.le x (JS.Fin c).
Proof.
  destruct x; simpl; try tauto. intros H1 H2. apply (Qlt_not_le _ _ H1 H2).
Qed.

Lemma gradeResponse_correct_cases (rt tl : Q) :
  let ratio := JS.quot rt tl in
  let g := gradeResponse true rt tl false in
  (JS.le ratio (JS.Fin 0.25) /\ g = 5) \/
  (~ JS.le ratio (JS.Fin 0.25) /\ JS.le ratio (JS.Fin 0.50) /\ g = 4) \/
  (~ JS.le ratio (JS.Fin 0.50) /\ g = 3).
Proof.
  cbv zeta. unfold gradeResponse. simpl negb. cbv iota.
  destruct (JS.leb_const (JS.quot rt tl) 0.25) eqn:E1.
  - left. split; [now apply leb_const_le | reflexivity].
  - right.
    assert (N1 : ~ JS.le (JS.quot rt tl) (JS.Fin 0.25)).
    { intros H. apply leb_const_le in H. congruence. }
    destruct (JS.leb_const (JS.quot rt tl) 0.50) eqn:E2.
    + left. split; [exact N1 | split; [now apply leb_const_le | reflexivity]].
    + right. split; [|reflexivity].
      intros H. apply leb_const_le in H. congruence.
Qed.

(** C2. [gradeResponse] returns 0 on a timeout whatever the
    correctness, 1 on a wrong answer in time, and for a correct answer
    in time 5, 4 or 3 as the ratio [responseTimeMs / timerLimitMs] is
    at most 0.25, in (0.25, 0.50], or anything else; hence the grade of
    a correct answer in time never increases when the ratio grows. *)
Theorem gradeResponse_exact_and_monotone :
  forall (isCorrect timedOut : bool) (rt tl : Q),
    let ratio := JS.quot rt tl in
    let g := gradeResponse isCorrect rt tl timedOut in
    (timedOut = true -> g = 0) /\
    (timedOut = false -> isCorrect = false -> g = 1) /\
    (timedOut = false -> isCorrect = true ->
       (JS.le ratio (JS.Fin 0.25) -> g = 5) /\
       (JS.lt (JS.Fin 0.25) ratio -> JS.le ratio (JS.Fin 0.50) -> g = 4) /\
       (~ JS.le ratio (JS.Fin 0.25) ->
        ~ (JS.lt (JS.Fin 0.25) ratio /\ JS.le ratio (JS.Fin 0.50)) -> g = 3)) /\
    (forall rt' tl' : Q,
       JS.le ratio (JS.quot rt' tl') ->
       gradeResponse true rt' tl' false <= gradeResponse true rt tl false).
Proof.
  intros isCorrect timedOut rt tl ratio g.
  split; [|split; [|split]].
  - intros ->. reflexivity.
  - intros -> ->. reflexivity.
  - intros -> ->. subst g ratio.
    pose proof (gradeResponse_correct_cases rt tl) as H. cbv zeta in H.
    split; [|split].
    + intros Hle. destruct H as [[_ H]|[[N _]|[N _]]]; [exact H| |].
      * contradiction.
      * exfalso. apply N. simpl. eapply le_trans_const; [exact Hle|].
        simpl. lra.
    + intros Hlt Hle.
      destruct H as [[H _]|[[_ [_ H]]|[N _]]]; [|exact H|contradiction].
      exfalso. exact (lt_not_le_const _ _ Hlt H).
    + intros N1 N2.
      destruct H as [[H _]|[[_ [H _]]|[_ H]]]; [contradiction| |exact H].
      exfalso. apply N2. split; [|exact H].
      destruct (JS.quot rt tl) eqn:E; simpl in *; try tauto.
      apply Qnot_le_lt. exact N1.
  - intros rt' tl' Hle. subst ratio.
    pose proof (gradeResponse_correct_cases rt tl) as H.
    pose proof (gradeResponse_correct_cases rt' tl') as H'.
    cbv zeta in H, H'.
    destruct H as [[_ ->]|[[N1 [L2 ->]]|[N2 ->]]];
      destruct H' as [[L1' ->]|[[N1' [L2' ->]]|[N2' ->]]]; try lia.
    + exfalso. apply N1. exact (le_trans_const _ _ _ Hle L1').
    + exfalso. apply N2. apply (le_trans_const _ _ _ Hle).
      apply (le_trans_const _ _ _ L1'). simpl. lra.
    + exfalso. apply N2. exact (le_trans_const _ _ _ Hle L2').
Qed.

Lemma gradeResponse_witness :
  gradeResponse true 1000 10000 false = 5 /\
  gradeResponse true 9000 10000 false <= gradeResponse true 1000 10000 false.
Proof.
  destruct (gradeResponse_exact_and_monotone true false 1000 10000)
    as (_ & _ & H & M).
  split.
  - destruct (H eq_refl eq_refl) as (H5 & _).
    apply H5. vm_compute. discriminate.
  - apply M. vm_compute. discriminate.
Defined.

Lemma MIN_EASE_bounds :
  (1.3 <= SM2_DEFAULTS.MIN_EASE)%Q /\ (SM2_DEFAULTS.MIN_EASE <= 3.0)%Q.
Proof. split; apply Qle_bool_iff; vm_compute; reflexivity. Qed.

(** C1. On a pass ([quality >= 3]) [updateSM2] sets the interval to 1
    after zero repetitions, to 3 after one, and otherwise to
    [Math.round(interval * easeFactor)], the product being the double
    product of the interval and the ease factor that the record had on
    entry (stated where that product is finite), and adds one to
    [repetitions]; on a fail ([quality < 3]) it sets both
    [repetitions] and [interval] to 0.  The two fields are set whether
    the call returns or throws. *)
Theorem updateSM2_interval_and_repetitions :
  forall (tz : TimeZone) (now : Z) (r : ProblemRecord) (quality : Z),
    valid_quality quality ->
    let r' := after (updateSM2 tz now r quality) in
    (3 <= quality ->
       (repetitions r = 0 -> interval r' = 1) /\
       (repetitions r = 1 -> interval r' = 3) /\
       (repetitions r <> 0 -> repetitions r <> 1 ->
        JS.finite (inject_Z (interval r) * easeFactor r) ->
        interval r' = JS.round (JS.mul (inject_Z (interval r)) (easeFactor r))) /\
       repetitions r' = repetitions r + 1) /\
    (quality < 3 -> repetitions r' = 0 /\ interval r' = 0).
Proof.
  intros tz now r quality _ r'. subst r'. unfold updateSM2. split.
  - intros Hq. apply Z.geb_le in Hq. rewrite Hq.
    destruct (addDays tz (today now) _); cbn [after set_sm2 interval repetitions];
      (split; [|split; [|split]]);
      try (intros ->; reflexivity); try reflexivity;
      intros H0 H1 _; apply Z.eqb_neq in H0, H1; now rewrite H0, H1.
  - intros Hq.
    assert (E : (quality >=? 3) = false).
    { rewrite Z.geb_leb. apply Z.leb_gt. exact Hq. }
    rewrite E. destruct (addDays tz (today now) 0); split; reflexivity.
Qed.

Lemma updateSM2_witness :
  interval (after (updateSM2 UTC 1641600000000 seasonedRecord 3)) = 608 /\
  repetitions (after (updateSM2 UTC 1641600000000 seasonedRecord 3)) = 10.
Proof.
  assert (V : valid_quality 3) by (unfold valid_quality; lia).
  destruct (updateSM2_interval_and_repetitions UTC 1641600000000 seasonedRecord 3 V)
    as (P & _).
  assert (Q3 : 3 <= 3) by lia.
  destruct (P Q3) as (_ & _ & I & R).
  split.
  - rewrite I.
    + vm_compute. reflexivity.
    + simpl. lia.
    + simpl. lia.
    + unfold JS.finite. vm_compute. reflexivity.
  - rewrite R. reflexivity.
Defined.

Lemma updateSM2_fields (tz : TimeZone) (now : Z) (r : ProblemRecord) (quality : Z) :
  exists (i reps : Z) (ease : Q) (next : option Z),
    after (updateSM2 tz now r quality) = set_sm2 r i reps ease next /\
    (SM2_DEFAULTS.MIN_EASE <= ease <= SM2_DEFAULTS.MAX_EASE)%Q /\
    (0 <= interval r -> (0 <= easeFactor r)%Q -> 0 <= i).
Proof.
  unfold updateSM2.
  set (i := if quality >=? 3 then _ else _).
  assert (Hi : 0 <= interval r -> (0 <= easeFactor r)%Q -> 0 <= fst i).
  { intros H1 H2. subst i. destruct (quality >=? 3); [|simpl; lia]. simpl fst.
    destruct (repetitions r =? 0); [unfold SM2_DEFAULTS.INITIAL_INTERVAL; lia|].
    destruct (repetitions r =? 1); [unfold SM2_DEFAULTS.SECOND_INTERVAL; lia|].
    apply round_nonneg. unfold JS.mul. apply fl_nonneg.
    apply Qmult_le_0_compat; [|exact H2].
    change 0%Q with (inject_Z 0). rewrite <- Zle_Qle. exact H1. }
  destruct i as [i reps]. simpl fst in Hi.
  set (ease := Qmax _ _).
  assert (He : (SM2_DEFAULTS.MIN_EASE <= ease <= SM2_DEFAULTS.MAX_EASE)%Q).
  { subst ease. apply clamp_bounds. apply MIN_EASE_bounds. }
  destruct (addDays tz (today now) i) as [next|].
  - exists i, reps, ease, (Some next). auto.
  - exists i, reps, ease, (nextReviewDate r). auto.
Qed.

Lemma updateSM2_inv (tz : TimeZone) (now : Z) (r : ProblemRecord) (quality : Z) :
  record_inv r -> record_inv (after (updateSM2 tz now r quality)).
Proof.
  intros (He & Hc & Hi).
  destruct (updateSM2_fields tz now r quality) as (i & reps & ease & next & -> & E & I).
  pose proof MIN_EASE_bounds as [M1 M2]. unfold SM2_DEFAULTS.MAX_EASE in E.
  split; [|split]; simpl.
  - split; [apply Qle_trans with SM2_DEFAULTS.MIN_EASE|]; tauto.
  - exact Hc.
  - apply I; [exact Hi | lra].
Qed.

Lemma recordAttempt_after (tz : TimeZone) (now : Z) (r : ProblemRecord)
    (ok tout : bool) (rt tl : Q) :
  after (recordAttempt tz now r ok rt tl tout) =
  after (updateSM2 tz now
           (set_counters r
              (totalAttempts r + 1)
              (if ok then totalCorrect r + 1 else totalCorrect r)
              (totalTimeMs r + rt)%Q
              (Some now) (Some rt)
              (if ok then streak r + 1 else 0)
              (if ok && (bestStreak r <? (if ok then streak r + 1 else 0))
               then (if ok then streak r + 1 else 0)
               else bestStreak r))
           (gradeResponse ok rt tl tout)).
Proof.
  unfold recordAttempt.
  match goal with |- context [result ?u] => destruct (result u) end; reflexivity.
Qed.

Lemma recordAttempt_fields (tz : TimeZone) (now : Z) (r : ProblemRecord)
    (ok tout : bool) (rt tl : Q) :
  exists (i reps : Z) (ease : Q) (next : option Z),
    after (recordAttempt tz now r ok rt tl tout) =
    set_sm2
      (set_counters r
         (totalAttempts r + 1)
         (if ok then totalCorrect r + 1 else totalCorrect r)
         (totalTimeMs r + rt)%Q
         (Some now) (Some rt)
         (if ok then streak r + 1 else 0)
         (if ok && (bestStreak r <? (if ok then streak r + 1 else 0))
          then (if ok then streak r + 1 else 0)
          else bestStreak r))
      i reps ease next.
Proof.
  rewrite recordAttempt_after.
  destruct (updateSM2_fields tz now
              (set_counters r
                 (totalAttempts r + 1)
                 (if ok then totalCorrect r + 1 else totalCorrect r)
                 (totalTimeMs r + rt)%Q
                 (Some now) (Some rt)
                 (if ok then streak r + 1 else 0)
                 (if ok && (bestStreak r <? (if ok then streak r + 1 else 0))
                  then (if ok then streak r + 1 else 0)
                  else bestStreak r))
              (gradeResponse ok rt tl tout))
    as (i & reps & ease & next & E & _).
  exists i, reps, ease, next. exact E.
Qed.

(** C3. The record invariant (ease factor within [1.3, 3.0],
    [totalCorrect <= totalAttempts], [interval >= 0]) is kept by
    [recordAttempt] for every combination of its flags and times, and by
    [updateSM2] for every one of the five grades: it holds of the
    record as the call leaves it, whether the call returns or throws. *)
Theorem recordAttempt_preserves_invariant :
  forall (tz : TimeZone) (now : Z) (r : ProblemRecord),
    record_inv r ->
    (forall (isCorrect timedOut : bool) (rt tl : Q),
       record_inv (after (recordAttempt tz now r isCorrect rt tl timedOut))) /\
    (forall quality : Z,
       valid_quality quality -> record_inv (after (updateSM2 tz now r quality))).
Proof.
  intros tz now r Hinv. split.
  - intros isC tO rt tl. unfold recordAttempt.
    match goal with |- context [result ?u] =>
      assert (H : record_inv (after u)); [|destruct (result u); exact H]
    end.
    apply updateSM2_inv.
    destruct Hinv as (He & Hc & Hi).
    split; [|split]; simpl; try assumption.
    destruct isC; lia.
  - intros quality _. now apply updateSM2_inv.
Qed.

Lemma recordAttempt_invariant_witness :
  record_inv (after (recordAttempt UTC 1641600000000 sampleRecord true 1000 10000 false)) /\
  record_inv (after (updateSM2 UTC 1641600000000 sampleRecord 1)).
Proof.
  assert (I : record_inv sampleRecord).
  { unfold record_inv. simpl. repeat split; try lia; vm_compute; discriminate. }
  destruct (recordAttempt_preserves_invariant UTC 1641600000000 sampleRecord I)
    as (A & B).
  split.
  - apply A.
  - apply B. unfold valid_quality. lia.
Defined.

(** ** Priority scoring and the selection pipeline *)


Lemma calculatePriority_nonneg (now : Z) (r : ProblemRecord)
    (atts : list Attempt) (n : Z) :
  (0 <= calculatePriority now r atts n)%Q.
Proof. unfold calculatePriority. apply Q.le_max_l. Qed.

Lemma scoreAll_nonneg (now : Z) (cands : list ProblemRecord) (atts : list Attempt) :
  Forall nonneg (scoreAll now cands atts).
Proof.
  unfold scoreAll. apply Forall_map. apply Forall_forall. intros r _.
  apply calculatePriority_nonneg.
Qed.

Lemma Forall_filter {A : Type} (P : A -> Prop) (f : A -> bool) (l : list A) :
  Forall P l -> Forall P (filter f l).
Proof.
  intros H. apply Forall_forall. intros x Hx.
  apply filter_In in Hx. destruct Hx as [Hx _].
  revert x Hx. now apply Forall_forall.
Qed.

Lemma Forall_scale (c : Q) (f : Scored -> bool) (l : list Scored) :
  (0 <= c)%Q ->
  Forall nonneg l ->
  Forall nonneg
    (map (fun s => if f s then mkScored (record s) (score s * c) else s) l).
Proof.
  intros Hc H. apply Forall_map. eapply Forall_impl; [|exact H].
  intros s Hs. destruct (f s); [|exact Hs].
  unfold nonneg in *. simpl. now apply Qmult_le_0_compat.
Qed.

Lemma applyInterleaving_nonneg (scored : list Scored) (atts : list Attempt) :
  Forall nonneg scored -> Forall nonneg (applyInterleaving scored atts).
Proof.
  intros H. unfold applyInterleaving.
  destruct (List.length atts =? 0)%nat; [exact H|].
  assert (S : Forall nonneg
                (match nth_error atts (List.length atts - 1) with
                 | Some lastAtt =>
                     map (fun s =>
                            if Operation_eqb (operation (record s)) (att_operation lastAtt)
                            then mkScored (record s) (score s * 0.5)
                            else s) scored
                 | None => scored
                 end)).
  { destruct (nth_error atts (List.length atts - 1)); [|exact H].
    apply Forall_scale with (f := fun s => Operation_eqb (operation (record s)) (att_operation a));
      [lra | exact H]. }
  destruct (sliceLast2 atts) as [|x [|y [|z l]]]; try exact S.
  destruct (Operation_eqb (att_operation x) (att_operation y)); [|exact S].
  match goal with |- context [(0 <? ?n)%nat] => destruct (0 <? n)%nat end;
    [now apply Forall_filter | exact H].
Qed.

Lemma balanceOperations_nonneg (scored : list Scored) (atts : list Attempt)
    (ops : list Operation) :
  Forall nonneg scored -> Forall nonneg (balanceOperations scored atts ops).
Proof.
  intros H. unfold balanceOperations.
  destruct (List.length atts <? 4)%nat; [exact H|].
  apply Forall_map. eapply Forall_impl; [|exact H].
  intros s Hs. destruct (countOps ops atts (operation (record s))); [|exact Hs].
  repeat match goal with |- context [if ?b then _ else _] => destruct b end;
    unfold nonneg in *; simpl; try assumption;
    apply Qmult_le_0_compat; lra.
Qed.

Section Sorting.
Context {A : Type} (cmp : A -> A -> Q).

Lemma insertBy_perm (x : A) (l : list A) :
  Permutation (x :: l) (insertBy cmp x l).
Proof.
  induction l as [|y l IH]; simpl; [reflexivity|].
  destruct (Qle_bool (cmp x y) 0); [reflexivity|].
  rewrite perm_swap. now constructor.
Qed.

Lemma sortBy_perm (l : list A) : Permutation l (sortBy cmp l).
Proof.
  induction l as [|x l IH]; simpl; [reflexivity|].
  rewrite <- insertBy_perm. now constructor.
Qed.

Lemma sortBy_In (l : list A) (x : A) : In x (sortBy cmp l) <-> In x l.
Proof.
  split; apply Permutation_in;
    [apply Permutation_sym|]; apply sortBy_perm.
Qed.

Lemma sortBy_Forall (P : A -> Prop) (l : list A) :
  Forall P l -> Forall P (sortBy cmp l).
Proof.
  intros H. eapply Permutation_Forall; [apply sortBy_perm | exact H].
Qed.

Lemma sortBy_length (l : list A) : List.length (sortBy cmp l) = List.length l.
Proof. symmetry. apply Permutation_length, sortBy_perm. Qed.
End Sorting.

Lemma Forall_firstn {A : Type} (P : A -> Prop) (n : nat) (l : list A) :
  Forall P l -> Forall P (firstn n l).
Proof.
  revert n. induction l as [|x l IH]; intros [|n] H; simpl; auto.
  inversion H; subst. constructor; auto.
Qed.

(** C4. [calculatePriority] never returns a negative number, and
    every score of the list [top] from which [selectNextProblem] draws
    (after the 0.5 factor of the interleaving and the 1.5 and 0.6
    factors of the balancing) is still at least 0. *)
Theorem priority_nonnegative_through_pipeline :
  forall (now : Z) (w : World) (sessionAttempts : list Attempt) (phase : Phase),
    (forall (r : ProblemRecord) (n : Z),
       (0 <= calculatePriority now r sessionAttempts n)%Q) /\
    Forall (fun s => (0 <= score s)%Q) (selectionTop now w sessionAttempts phase).
Proof.
  intros now w atts phase. split.
  - intros r n. apply calculatePriority_nonneg.
  - unfold selectionTop. apply Forall_firstn. apply sortBy_Forall.
    apply balanceOperations_nonneg, applyInterleaving_nonneg, scoreAll_nonneg.
Qed.

(** *** The never-seen record against the mastered one *)



Lemma filter_length_app {A : Type} (f : A -> bool) (l : list A) (x : A) :
  List.length (filter f (l ++ [x])) =
  (List.length (filter f l) + (if f x then 1 else 0))%nat.
Proof.
  rewrite filter_app, length_app. simpl. destruct (f x); reflexivity.
Qed.

Lemma recordAttempt_keeps_consistent (tz : TimeZone) (now : Z) (r : ProblemRecord)
    (atts : list Attempt) (ok tout : bool) (rt tl : Q) :
  consistent r atts ->
  consistent (after (recordAttempt tz now r ok rt tl tout))
             (atts ++ [mkAttempt (key r) (operation r) ok rt]).
Proof.
  intros [H1 H2].
  destruct (recordAttempt_fields tz now r ok tout rt tl)
    as (i & reps & ease & next & ->).
  unfold consistent. simpl key; simpl totalAttempts; simpl totalCorrect.
  unfold attemptsOn, sessionWrong in *.
  rewrite !filter_length_app; simpl problemKey; simpl isCorrect.
  rewrite String.eqb_refl; destruct ok; simpl; lia.
Qed.

Lemma attemptsOn_nil_lastIndexOf (k : string) (atts : list Attempt) (n : nat) :
  attemptsOn k atts = [] -> lastIndexOf k atts n = -1.
Proof.
  intros H. induction n as [|n IH]; simpl; [reflexivity|].
  destruct (nth_error atts n) as [a|] eqn:E; [|exact IH].
  destruct (String.eqb (problemKey a) k) eqn:K; [|exact IH].
  exfalso. apply nth_error_In in E.
  assert (In a (attemptsOn k atts)) by (apply filter_In; auto).
  rewrite H in *. contradiction.
Qed.

Lemma attemptsOn_nil_sessionWrong (k : string) (atts : list Attempt) :
  attemptsOn k atts = [] -> sessionWrong k atts = O.
Proof.
  unfold attemptsOn, sessionWrong. induction atts as [|a atts IH]; simpl; auto.
  destruct (String.eqb (problemKey a) k); simpl; [discriminate | auto].
Qed.

Lemma lastIndexOf_bound (k : string) (atts : list Attempt) (n : nat) :
  -1 <= lastIndexOf k atts n < Z.of_nat n.
Proof.
  induction n as [|n IH]; simpl lastIndexOf; [lia|].
  destruct (nth_error atts n) as [a|]; [destruct (String.eqb _ _)|]; lia.
Qed.

(** C6. A record never attempted and never scheduled scores
    [50 + 20 + (3.0 - easeFactor) * 10], the 20 being the never-seen
    bonus, and that is strictly more than the score of a record with
    ten attempts, all ten correct, ease factor 3.0 and a review date of
    tomorrow, whatever the session history that agrees with the two
    records. *)
Theorem never_seen_outscores_mastered :
  forall (now : Z) (fresh mastered : ProblemRecord)
         (sessionAttempts : list Attempt) (totalSessionProblems : Z),
    record_inv fresh ->
    totalAttempts fresh = 0 ->
    nextReviewDate fresh = None ->
    totalAttempts mastered = 10 ->
    totalCorrect mastered = 10 ->
    (easeFactor mastered == 3.0)%Q ->
    nextReviewDate mastered = Some (today now + 1) ->
    consistent fresh sessionAttempts ->
    consistent mastered sessionAttempts ->
    (calculatePriority now fresh sessionAttempts totalSessionProblems ==
       50 + 20 + (SM2_DEFAULTS.MAX_EASE - easeFactor fresh) * 10)%Q /\
    (calculatePriority now mastered sessionAttempts totalSessionProblems <
       calculatePriority now fresh sessionAttempts totalSessionProblems)%Q.
Proof.
  intros now fresh mastered atts n (He & _ & _) Ha Hd Ma Mc Me Md [Cf _] [_ Cm].
  unfold SM2_DEFAULTS.MIN_EASE, SM2_DEFAULTS.MAX_EASE in He.
  assert (Nf : attemptsOn (key fresh) atts = []).
  { rewrite Ha in Cf. apply length_zero_iff_nil. lia. }
  assert (Wm : sessionWrong (key mastered) atts = O).
  { rewrite Ma, Mc in Cm. lia. }
  assert (Ff : (calculatePriority now fresh atts n ==
                50 + 20 + (SM2_DEFAULTS.MAX_EASE - easeFactor fresh) * 10)%Q).
  { unfold calculatePriority.
    rewrite Hd, Ha, (attemptsOn_nil_sessionWrong _ _ Nf),
      (attemptsOn_nil_lastIndexOf _ _ _ Nf).
    change (0 <? 0) with false. change (0 <=? -1) with false. cbv iota.
    unfold SM2_DEFAULTS.MAX_EASE.
    assert (E : forall s : Q, (if (0 <? List.length atts)%nat then s else s) = s)
      by (intros s; destruct (0 <? List.length atts)%nat; reflexivity).
    rewrite E. change (inject_Z (Z.of_nat 0)) with 0%Q.
    destruct He as [He1 He2]. rewrite Q.max_r; lra. }
  split; [exact Ff|]. rewrite Ff. unfold SM2_DEFAULTS.MAX_EASE.
  apply Qle_lt_trans with (y := 65%Q); [|lra].
  unfold calculatePriority. rewrite Md, Ma, Wm.
  change (0 <? 10) with true. cbv iota.
  set (due := if dateGeb (today now) (today now + 1) then _ else _).
  assert (Hdue : (due <= 55)%Q).
  { subst due. destruct (dateGeb _ _); [|lra].
    replace (today now - (today now + 1)) with (-1) by lia.
    change (inject_Z (Z.min 30 (10 + -1 * 5))) with 5%Q. lra. }
  assert (Acc : (accuracy mastered == 1)%Q).
  { unfold accuracy. rewrite Ma, Mc. reflexivity. }
  unfold SM2_DEFAULTS.MAX_EASE. change (inject_Z (Z.of_nat 0)) with 0%Q.
  apply Q.max_lub; [lra|].
  set (base := (due + (1 - accuracy mastered) * 40 + (3.0 - easeFactor mastered) * 10
                + 0 * 15)%Q).
  assert (Hb : (base <= 55)%Q) by (subst base; rewrite Acc, Me; lra).
  set (pen := if (0 <? List.length atts)%nat then _ else _).
  assert (Hp : (pen <= base)%Q).
  { subst pen. destruct (0 <? List.length atts)%nat; [|lra].
    destruct (0 <=? _); [|lra].
    destruct (_ <? 5) eqn:E5; [|lra].
    apply Z.ltb_lt in E5.
    match goal with |- (_ - inject_Z ?z * 20 <= _)%Q =>
      assert (0 <= inject_Z z)%Q
        by (change 0%Q with (inject_Z 0); rewrite <- Zle_Qle; lia)
    end.
    lra. }
  destruct (Qltb 7000 _); lra.
Qed.

Lemma never_seen_outscores_mastered_witness :
  (calculatePriority 1641600000000 masteredRecord sampleHistory 3 <
   calculatePriority 1641600000000 freshRecord sampleHistory 3)%Q.
Proof.
  apply (never_seen_outscores_mastered 1641600000000 freshRecord masteredRecord
           sampleHistory 3).
  - unfold record_inv. simpl. repeat split; try lia; vm_compute; discriminate.
  - reflexivity.
  - reflexivity.
  - reflexivity.
  - reflexivity.
  - reflexivity.
  - reflexivity.
  - unfold consistent. simpl. lia.
  - unfold consistent. simpl. lia.
Defined.

(** *** Interleaving *)


Lemma sliceLast2_app2 {A : Type} (pre : list A) (x y : A) :
  sliceLast2 (pre ++ [x; y]) = [x; y].
Proof.
  unfold sliceLast2. rewrite length_app. simpl List.length.
  replace (List.length pre + 2 - 2)%nat with (List.length pre + 0)%nat by lia.
  rewrite skipn_app, Nat.add_0_r, skipn_all.
  replace (List.length pre - List.length pre)%nat with O by lia.
  reflexivity.
Qed.

Lemma applyInterleaving_blocked (scored : list Scored) (pre : list Attempt)
    (x y : Attempt) (s0 : Scored) :
  att_operation x = att_operation y ->
  In s0 scored -> opOf s0 <> att_operation x ->
  applyInterleaving scored (pre ++ [x; y]) =
  filter (fun s => negb (Operation_eqb (opOf s) (att_operation x))) scored.
Proof.
  intros Hxy Hin Hop. unfold applyInterleaving.
  rewrite sliceLast2_app2, length_app. simpl List.length.
  replace (List.length pre + 2 =? 0)%nat with false
    by (symmetry; apply Nat.eqb_neq; lia).
  rewrite Hxy at 1.
  replace (Operation_eqb (att_operation y) (att_operation y)) with true
    by (symmetry; now apply Operation_eqb_eq).
  fold opOf.
  set (filtered := filter _ scored).
  assert (Hs : In s0 filtered).
  { apply filter_In. split; [exact Hin|].
    apply negb_true_iff. now apply Operation_eqb_neq. }
  destruct filtered as [|z l]; [contradiction|reflexivity].
Qed.

Lemma balanceOperations_records (scored : list Scored) (atts : list Attempt)
    (ops : list Operation) :
  map record (balanceOperations scored atts ops) = map record scored.
Proof.
  unfold balanceOperations. destruct (List.length atts <? 4)%nat; [reflexivity|].
  rewrite map_map. apply map_ext. intros s.
  destruct (countOps ops atts (operation (record s))); [|reflexivity].
  repeat match goal with |- context [if ?b then _ else _] => destruct b end;
    reflexivity.
Qed.


Lemma pickWeighted_In (items : list Scored) (r : Q) (s : Scored) :
  pickWeighted items r = Some s -> In s items.
Proof.
  revert r. induction items as [|it rest IH]; simpl; intros r H; [discriminate|].
  destruct (Qle_bool _ 0).
  - left. congruence.
  - right. eauto.
Qed.

Lemma weightedRandom_In (u : Q) (items : list Scored) :
  items <> [] -> exists s, weightedRandom u items = Some s /\ In s items.
Proof.
  intros Hne. unfold weightedRandom.
  destruct (pickWeighted items _) as [s|] eqn:E.
  - exists s. split; [reflexivity|]. eapply pickWeighted_In; eauto.
  - destruct (nth_error items (List.length items - 1)) as [s|] eqn:N.
    + exists s. split; [reflexivity|]. eapply nth_error_In; eauto.
    + exfalso. apply nth_error_None in N.
      destruct items; [congruence | simpl in N; lia].
Qed.

Lemma phaseFilter_incl (phase : Phase) (cands : list ProblemRecord) (r : ProblemRecord) :
  In r (phaseFilter phase cands) -> In r cands.
Proof.
  unfold phaseFilter. destruct phase; auto;
    match goal with |- context [if ?b then _ else _] => destruct b end; auto;
    intros H; apply filter_In in H; tauto.
Qed.


Lemma firstn_min_nonempty {A : Type} (k : nat) (l : list A) :
  l <> [] -> firstn (Nat.min (S k) (List.length l)) l <> [].
Proof. destruct l; simpl; congruence. Qed.









(** ** Sorting with a consistent comparator *)

Section SortedBy.
Context {A : Type} (cmp : A -> A -> Q).


Hypothesis cmp_total : forall x y, before cmp x y \/ before cmp y x.
Hypothesis cmp_trans : forall x y z, before cmp x y -> before cmp y z -> before cmp x z.

Lemma insertBy_sorted (x : A) (l : list A) :
  StronglySorted (before cmp) l -> StronglySorted (before cmp) (insertBy cmp x l).
Proof.
  induction 1 as [|y l Hs IH Hall]; simpl.
  - repeat constructor.
  - destruct (Qle_bool (cmp x y) 0) eqn:E.
    + apply Qle_bool_iff in E.
      constructor; [now constructor|].
      constructor; [exact E|].
      eapply Forall_impl; [|exact Hall]. intros z Hz. now apply cmp_trans with y.
    + constructor; [exact IH|].
      eapply Permutation_Forall; [apply insertBy_perm|].
      constructor; [|exact Hall].
      destruct (cmp_total x y) as [H|H]; [|exact H].
      apply Qle_bool_iff in H. unfold before in *. congruence.
Qed.

Lemma sortBy_sorted (l : list A) : StronglySorted (before cmp) (sortBy cmp l).
Proof.
  induction l as [|x l IH]; simpl; [constructor|].
  now apply insertBy_sorted.
Qed.
End SortedBy.

Lemma StronglySorted_weaken {A : Type} (R S : A -> A -> Prop) (l : list A) :
  (forall x y, R x y -> S x y) -> StronglySorted R l -> StronglySorted S l.
Proof.
  intros HRS. induction 1 as [|x l Hs IH Hall]; constructor; [exact IH|].
  eapply Forall_impl; [|exact Hall]. intros y. apply HRS.
Qed.

(** ** Mistake drill *)

Lemma drillFilter_true (ops : list Operation) (r : ProblemRecord) :
  drillFilter ops r = true <->
  In (operation r) ops /\ 2 <= totalAttempts r /\
  ((accuracy r < 0.7)%Q \/ (easeFactor r < 1.8)%Q).
Proof.
  unfold drillFilter, includes.
  destruct (existsb (Operation_eqb (operation r)) ops) eqn:E; simpl.
  - apply existsb_exists in E. destruct E as (op & Hin & Heq).
    apply Operation_eqb_eq in Heq. subst op.
    destruct (totalAttempts r <? 2) eqn:T.
    + apply Z.ltb_lt in T. split; [discriminate | lia].
    + apply Z.ltb_ge in T. rewrite orb_true_iff, !Qltb_lt. tauto.
  - split; [discriminate|]. intros (Hin & _).
    assert (X : existsb (Operation_eqb (operation r)) ops = true).
    { apply existsb_exists. exists (operation r). split; [exact Hin|].
      now apply Operation_eqb_eq. }
    congruence.
Qed.

(** C7. [getDrillProblems] returns exactly the stored records whose
    operation is enabled, that have at least two attempts, and whose
    accuracy is below 0.7 or whose ease factor is below 1.8; the result
    is in ascending order of accuracy; a record with one attempt is
    never part of it. *)
Theorem getDrillProblems_filtered_and_sorted :
  forall w : World,
    let ops := enabledOps (settings w) in
    let stored := recordValues (problemRecords w) in
    let result := getDrillProblems w in
    (forall r : ProblemRecord,
       In r result <->
       In r stored /\ In (operation r) ops /\ 2 <= totalAttempts r /\
       ((accuracy r < 0.7)%Q \/ (easeFactor r < 1.8)%Q)) /\
    Permutation result (filter (drillFilter ops) stored) /\
    StronglySorted (fun a b => (accuracy a <= accuracy b)%Q) result /\
    (forall r : ProblemRecord, totalAttempts r = 1 -> ~ In r result).
Proof.
  intros w ops stored result.
  assert (Hmem : forall r, In r result <-> In r stored /\ drillFilter ops r = true).
  { intros r. subst result. unfold getDrillProblems.
    rewrite sortBy_In. apply filter_In. }
  split; [|split; [|split]].
  - intros r. rewrite Hmem, drillFilter_true. tauto.
  - subst result. unfold getDrillProblems. apply Permutation_sym, sortBy_perm.
  - subst result. unfold getDrillProblems.
    eapply StronglySorted_weaken;
      [|apply (sortBy_sorted byAccuracyAsc)].
    + intros a b. unfold before, byAccuracyAsc. lra.
    + intros x y. unfold before, byAccuracyAsc.
      destruct (Qlt_le_dec (accuracy x) (accuracy y)); [left|right]; lra.
    + intros x y z. unfold before, byAccuracyAsc. lra.
  - intros r H1 Hin. apply Hmem in Hin. destruct Hin as [_ Hf].
    apply drillFilter_true in Hf. lia.
Qed.

(** ** Problem keys *)

Local Open Scope string_scope.


Lemma string_of_uint_avoids_x (d : Decimal.uint) :
  avoids "x" (NilEmpty.string_of_uint d).
Proof. induction d; simpl; auto; split; auto; discriminate. Qed.

Lemma numToString_avoids_x (z : Z) : avoids "x" (numToString z).
Proof.
  unfold numToString. destruct (Z.to_int z); simpl.
  - apply string_of_uint_avoids_x.
  - split; [discriminate | apply string_of_uint_avoids_x].
Qed.

Lemma numToString_inj (a b : Z) : numToString a = numToString b -> a = b.
Proof.
  unfold numToString. intros H. apply DecimalZ.to_int_inj.
  assert (E : Some (Z.to_int a) = Some (Z.to_int b))
    by (rewrite <- !NilEmpty.isi; now f_equal).
  congruence.
Qed.

Lemma split_at_separator (c : ascii) (s1 s2 t1 t2 : string) :
  avoids c s1 -> avoids c s2 ->
  s1 ++ String c t1 = s2 ++ String c t2 -> s1 = s2 /\ t1 = t2.
Proof.
  revert s2. induction s1 as [|a s1 IH]; intros [|b s2]; simpl;
    intros H1 H2 E.
  - injection E as E. auto.
  - injection E as Ec _. destruct H2 as [H2 _]. congruence.
  - injection E as Ec _. destruct H1 as [H1 _]. congruence.
  - injection E as Eab E. destruct H1 as [_ H1], H2 as [_ H2].
    destruct (IH s2 H1 H2 E) as [-> ->]. subst. auto.
Qed.

Lemma key_body_inj (a b c d : Z) :
  numToString a ++ "x" ++ numToString b = numToString c ++ "x" ++ numToString d ->
  a = c /\ b = d.
Proof.
  intros E. apply split_at_separator in E; try apply numToString_avoids_x.
  destruct E as [E1 E2]. split; now apply numToString_inj.
Qed.

(** The key of a non-commutative operation determines the ordered pair
    of operands. *)
Lemma canonicalizeProblemKey_ordered_inj (op : Operation) (a b c d : Z) :
  op = sub \/ op = div ->
  canonicalizeProblemKey op a b = canonicalizeProblemKey op c d ->
  a = c /\ b = d.
Proof.
  intros [-> | ->]; unfold canonicalizeProblemKey; simpl;
    intros E; injection E as E; now apply key_body_inj.
Qed.

(** C9. For [add] and [mul] the key is [op:min(a,b)xmax(a,b)], hence
    the same for both orders of the operands; for [sub] and [div] the
    key is [op:axb], and the two orders of two different operands get
    different keys. *)
Theorem canonicalizeProblemKey_symmetric_or_ordered :
  forall a b : Z,
    (forall op : Operation,
       op = add \/ op = mul ->
       canonicalizeProblemKey op a b = canonicalizeProblemKey op b a /\
       canonicalizeProblemKey op a b =
         opName op ++ ":" ++ numToString (Z.min a b) ++ "x"
                ++ numToString (Z.max a b)) /\
    (forall op : Operation,
       op = sub \/ op = div ->
       canonicalizeProblemKey op a b =
         opName op ++ ":" ++ numToString a ++ "x" ++ numToString b /\
       (a <> b ->
        canonicalizeProblemKey op a b <> canonicalizeProblemKey op b a)).
Proof.
  intros a b. split.
  - intros op [-> | ->]; unfold canonicalizeProblemKey; simpl;
      rewrite (Z.min_comm b a), (Z.max_comm b a); split; reflexivity.
  - intros op Hop. split.
    + destruct Hop as [-> | ->]; reflexivity.
    + intros Hab E.
      apply (canonicalizeProblemKey_ordered_inj op a b b a Hop) in E.
      tauto.
Qed.

Lemma canonicalizeProblemKey_witness :
  canonicalizeProblemKey add 3 7 = canonicalizeProblemKey add 7 3 /\
  canonicalizeProblemKey sub 7 3 <> canonicalizeProblemKey sub 3 7.
Proof.
  split.
  - destruct (canonicalizeProblemKey_symmetric_or_ordered 3 7) as [H _].
    apply (H add). left. reflexivity.
  - destruct (canonicalizeProblemKey_symmetric_or_ordered 7 3) as [_ H].
    destruct (H sub (or_introl eq_refl)) as [_ N]. apply N. lia.
Defined.

Local Close Scope string_scope.

(** ** On-the-fly generation *)




Lemma generate_add (fuel : nat) (s : Settings) (random : nat -> Q) (i : nat) :
  generateRandomProblem fuel s add random i =
  let a := drawA s add random i in
  let b := drawB s add random i in
  Some (mkProblem add a b (a + b) (canonicalizeProblemKey add a b), S (S i)).
Proof. destruct fuel; reflexivity. Qed.

Lemma generate_mul (fuel : nat) (s : Settings) (random : nat -> Q) (i : nat) :
  generateRandomProblem fuel s mul random i =
  let a := drawA s mul random i in
  let b := drawB s mul random i in
  Some (mkProblem mul a b (a * b) (canonicalizeProblemKey mul a b), S (S i)).
Proof. destruct fuel; reflexivity. Qed.

Lemma generate_div (fuel : nat) (s : Settings) (random : nat -> Q) (i : nat) :
  generateRandomProblem fuel s div random i =
  let divisor := drawB s div random (S i) in
  let quotient := drawA s div random (S (S (S i))) in
  let dividend := divisor * quotient in
  Some (mkProblem div dividend divisor quotient
          (canonicalizeProblemKey div dividend divisor),
        S (S (S (S i)))).
Proof. destruct fuel; reflexivity. Qed.

Lemma generate_sub (fuel : nat) (s : Settings) (random : nat -> Q) (i : nat) :
  generateRandomProblem fuel s sub random i =
  let a := drawA s sub random i in
  let b := drawB s sub random i in
  let big := Z.max a b in
  let small := Z.min a b in
  if big =? small then
    match fuel with
    | O => None
    | S fuel' => generateRandomProblem fuel' s sub random (S (S i))
    end
  else
    Some (mkProblem sub big small (big - small)
            (canonicalizeProblemKey sub big small), S (S i)).
Proof.
  destruct fuel; cbv zeta; simpl; unfold bind, randInt, Math_random, ret, bind;
    fold (drawInt random i (minA (operationRanges s sub)) (maxA (operationRanges s sub)));
    fold (drawInt random (S i) (minB (operationRanges s sub)) (maxB (operationRanges s sub)));
    fold (drawA s sub random i); fold (drawB s sub random i);
    destruct (Z.max _ _ =? Z.min _ _); reflexivity.
Qed.

Lemma max_eqb_min (a b : Z) : (Z.max a b =? Z.min a b) = (a =? b).
Proof.
  destruct (Z.eqb_spec a b) as [->|N].
  - rewrite Z.max_id, Z.min_id. apply Z.eqb_refl.
  - apply Z.eqb_neq. lia.
Qed.


Lemma generate_wellFormed (s : Settings) (random : nat -> Q) (op : Operation)
    (fuel i : nat) (p : Problem) (j : nat) :
  generateRandomProblem fuel s op random i = Some (p, j) -> wellFormed op p.
Proof.
  destruct op.
  - rewrite generate_add. cbv zeta. intros [= <- _].
    unfold wellFormed. simpl. auto.
  - revert i. induction fuel as [|fuel IH]; intros i; rewrite generate_sub;
      cbv zeta; rewrite max_eqb_min;
      destruct (Z.eqb_spec (drawA s sub random i) (drawB s sub random i)) as [E|N];
      try discriminate; try (apply IH);
      intros [= <- _]; unfold wellFormed; simpl; repeat split; lia.
  - rewrite generate_mul. cbv zeta. intros [= <- _].
    unfold wellFormed. simpl. auto.
  - rewrite generate_div. cbv zeta. intros [= <- _].
    unfold wellFormed. simpl. repeat split; try reflexivity.
    + rewrite Z.mul_comm. now apply Z.div_mul.
    + rewrite Z.mul_comm. now apply Z.mod_mul.
Qed.




(** ** Null results of the selection *)

Lemma In_firstn {A : Type} (n : nat) (l : list A) (x : A) :
  In x (firstn n l) -> In x l.
Proof.
  revert n. induction l as [|y l IH]; intros [|n]; simpl; try tauto.
  intros [H|H]; [now left | right; eauto].
Qed.

Lemma floor_index_bounds (u : Q) (n : nat) :
  (0 <= u)%Q -> (u < 1)%Q -> (0 < n)%nat ->
  0 <= JS.floor (u * inject_Z (Z.of_nat n)) < Z.of_nat n.
Proof.
  intros H0 H1 Hn. unfold JS.floor.
  assert (Hq : (0 < inject_Z (Z.of_nat n))%Q).
  { change 0%Q with (inject_Z 0). rewrite <- Zlt_Qlt. lia. }
  split.
  - change 0 with (Qfloor 0). apply Qfloor_resp_le.
    apply Qmult_le_0_compat; lra.
  - rewrite Zlt_Qlt.
    apply Qle_lt_trans with (y := (u * inject_Z (Z.of_nat n))%Q);
      [apply Qfloor_le|].
    setoid_replace (inject_Z (Z.of_nat n)) with (1 * inject_Z (Z.of_nat n))%Q at 2
      by ring.
    apply Qmult_lt_compat_r; assumption.
Qed.




Lemma applyInterleaving_nonempty (scored : list Scored) (atts : list Attempt) :
  scored <> [] -> applyInterleaving scored atts <> [].
Proof.
  intros H. unfold applyInterleaving.
  destruct (List.length atts =? 0)%nat; [exact H|].
  assert (M : forall f : Scored -> Scored, map f scored <> []).
  { intros f E. apply map_eq_nil in E. contradiction. }
  assert (S : match nth_error atts (List.length atts - 1) with
              | Some lastAtt =>
                  map (fun s =>
                         if Operation_eqb (operation (record s)) (att_operation lastAtt)
                         then mkScored (record s) (score s * 0.5)
                         else s) scored
              | None => scored
              end <> []).
  { destruct (nth_error atts (List.length atts - 1)); [apply M | exact H]. }
  destruct (sliceLast2 atts) as [|x [|y [|z l]]]; try exact S.
  destruct (Operation_eqb (att_operation x) (att_operation y)); [|exact S].
  match goal with |- context [(0 <? List.length ?l)%nat] =>
    destruct l; simpl; [exact H | discriminate]
  end.
Qed.





(** * Further properties of the engine *)

(** ** Memory model *)

Lemma gradeResponse_valid (ok : bool) (rt tl : Q) (tout : bool) :
  valid_quality (gradeResponse ok rt tl tout).
Proof.
  unfold valid_quality, gradeResponse.
  destruct tout; [lia|]. destruct ok; simpl; [|lia].
  destruct (JS.leb_const _ 0.25); [lia|].
  destruct (JS.leb_const _ 0.50); lia.
Qed.

Lemma gradeResponse_pass_iff (ok : bool) (rt tl : Q) (tout : bool) :
  3 <= gradeResponse ok rt tl tout <-> ok = true /\ tout = false.
Proof.
  unfold gradeResponse.
  destruct tout; [split; [lia | intros [_ H]; discriminate]|].
  destruct ok; simpl.
  - destruct (JS.leb_const _ 0.25); [split; auto; lia|].
    destruct (JS.leb_const _ 0.50); split; auto; lia.
  - split; [lia | intros [H _]; discriminate].
Qed.

Lemma addDays_returns (tz : TimeZone) (date days d : Z) :
  addDays tz date days = Returns d ->
  d = date + days +
      (offsetAtUTC tz (date * msPerDay) -
       offsetAtLocal tz
         (date * msPerDay + offsetAtUTC tz (date * msPerDay) + days * msPerDay))
      / msPerDay.
Proof.
  unfold addDays. destruct (_ && _); [|discriminate].
  intros H. injection H as <-.
  set (o1 := offsetAtUTC tz _). set (o2 := offsetAtLocal tz _).
  replace (date * msPerDay + o1 + days * msPerDay - o2)
    with ((date + days) * msPerDay + (o1 - o2)) by ring.
  rewrite Z.div_add_l by (unfold msPerDay; lia). reflexivity.
Qed.

Lemma addDays_fixedZone (offset date days : Z) :
  addDays (fixedZone offset) date days =
  if (Z.abs (date * msPerDay) <=? maxTime) &&
     (Z.abs ((date + days) * msPerDay) <=? maxTime)
  then Returns (date + days) else Throws.
Proof.
  unfold addDays, fixedZone. cbn [offsetAtUTC offsetAtLocal].
  replace (date * msPerDay + offset + days * msPerDay - offset)
    with ((date + days) * msPerDay) by ring.
  rewrite Z.div_mul by (unfold msPerDay; lia). reflexivity.
Qed.

Lemma updateSM2_date (tz : TimeZone) (now : Z) (r : ProblemRecord) (quality : Z) :
  let u := updateSM2 tz now r quality in
  (exists d : Z,
     addDays tz (today now) (interval (after u)) = Returns d /\
     result u = Returns tt /\ nextReviewDate (after u) = Some d) \/
  (addDays tz (today now) (interval (after u)) = Throws /\
   result u = Throws /\ nextReviewDate (after u) = nextReviewDate r).
Proof.
  unfold updateSM2.
  set (i := if quality >=? 3 then _ else _). destruct i as [i reps].
  destruct (addDays tz (today now) i) as [d|] eqn:E; cbn [after result set_sm2 interval nextReviewDate].
  - left. exists d. auto.
  - right. auto.
Qed.

Lemma recordAttempt_date (tz : TimeZone) (now : Z) (r : ProblemRecord)
    (ok tout : bool) (rt tl : Q) :
  let e := recordAttempt tz now r ok rt tl tout in
  (exists d : Z,
     addDays tz (today now) (interval (after e)) = Returns d /\
     result e = Returns (gradeResponse ok rt tl tout) /\
     nextReviewDate (after e) = Some d) \/
  (addDays tz (today now) (interval (after e)) = Throws /\
   result e = Throws /\ nextReviewDate (after e) = nextReviewDate r).
Proof.
  cbv zeta. rewrite recordAttempt_after. unfold recordAttempt.
  match goal with |- context [result ?u] =>
    destruct (updateSM2_date tz now
                (set_counters r
                   (totalAttempts r + 1)
                   (if ok then totalCorrect r + 1 else totalCorrect r)
                   (totalTimeMs r + rt)%Q
                   (Some now) (Some rt)
                   (if ok then streak r + 1 else 0)
                   (if ok && (bestStreak r <? (if ok then streak r + 1 else 0))
                    then (if ok then streak r + 1 else 0)
                    else bestStreak r))
                (gradeResponse ok rt tl tout))
      as [(d & A & R & N)|(A & R & N)]
  end; cbv zeta in A, R, N; rewrite R; cbn [result].
  - left. exists d. auto.
  - right. auto.
Qed.

Lemma recordAttempt_sm2 (tz : TimeZone) (now : Z) (r : ProblemRecord)
    (ok tout : bool) (rt tl : Q) :
  let r' := after (recordAttempt tz now r ok rt tl tout) in
  let quality := gradeResponse ok rt tl tout in
  (quality < 3 -> repetitions r' = 0 /\ interval r' = 0) /\
  (3 <= quality -> repetitions r' = repetitions r + 1).
Proof.
  cbv zeta. rewrite recordAttempt_after.
  set (quality := gradeResponse ok rt tl tout).
  unfold updateSM2. split.
  - intros Q3.
    replace (quality >=? 3) with false
      by (symmetry; rewrite Z.geb_leb; apply Z.leb_gt; exact Q3).
    destruct (addDays tz (today now) 0); split; reflexivity.
  - intros Q3.
    replace (quality >=? 3) with true by (symmetry; apply Z.geb_le; exact Q3).
    destruct (addDays tz (today now) _); reflexivity.
Qed.

(** X1. [recordAttempt] grades with one of the five grades.  A wrong
    or timed-out answer is a fail: it resets [repetitions] and
    [interval] to 0.  A correct answer in time is a pass:
    [repetitions] grows by one.  When the call returns, the record is
    due on the date that [addDays] makes of today and the new
    interval: [interval] days from today when the offset of the time
    zone at the local time that many days after midnight UTC of today
    is the offset at that midnight, or smaller by less than a day, and
    one day earlier when it is larger by up to a day, as it is across
    a spring clock change.  In a zone whose clocks never change, the call
    returns exactly when today and the day [interval] days later are
    within the range of [Date].  When the call throws, the review date
    stays as it was. *)
Theorem recordAttempt_schedules :
  forall (tz : TimeZone) (now : Z) (r : ProblemRecord) (ok tout : bool) (rt tl : Q),
    let e := recordAttempt tz now r ok rt tl tout in
    let r' := after e in
    let quality := gradeResponse ok rt tl tout in
    let midnight := today now * msPerDay in
    let offsetNow := offsetAtUTC tz midnight in
    let offsetThen :=
      offsetAtLocal tz (midnight + offsetNow + interval r' * msPerDay) in
    valid_quality quality /\
    (result e = Returns quality \/ result e = Throws) /\
    (ok = false \/ tout = true ->
       quality < 3 /\ repetitions r' = 0 /\ interval r' = 0) /\
    (ok = true -> tout = false ->
       3 <= quality /\ repetitions r' = repetitions r + 1) /\
    (result e = Returns quality ->
       (offsetNow - msPerDay < offsetThen <= offsetNow ->
        nextReviewDate r' = Some (today now + interval r')) /\
       (offsetNow < offsetThen <= offsetNow + msPerDay ->
        nextReviewDate r' = Some (today now + interval r' - 1))) /\
    (result e = Throws -> nextReviewDate r' = nextReviewDate r) /\
    (forall offset : Z,
       tz = fixedZone offset ->
       (result e = Returns quality <->
        Z.abs midnight <= maxTime /\
        Z.abs ((today now + interval r') * msPerDay) <= maxTime)).
Proof.
  intros tz now r ok tout rt tl e r' quality midnight offsetNow offsetThen.
  pose proof (recordAttempt_date tz now r ok tout rt tl) as D.
  pose proof (recordAttempt_sm2 tz now r ok tout rt tl) as S.
  cbv zeta in D, S. fold e in D. fold r' in D, S. fold quality in D, S.
  destruct S as [SF SP].
  split; [apply gradeResponse_valid|].
  split; [destruct D as [(d & _ & R & _)|(_ & R & _)]; auto|].
  split.
  { intros H.
    assert (Q3 : quality < 3).
    { destruct (Z.lt_ge_cases quality 3) as [L|G]; [exact L|].
      apply gradeResponse_pass_iff in G. destruct G, H; congruence. }
    split; [exact Q3 | now apply SF]. }
  split.
  { intros -> ->.
    assert (Q3 : 3 <= quality) by (apply gradeResponse_pass_iff; auto).
    split; [exact Q3 | now apply SP]. }
  split.
  { intros R. destruct D as [(d & A & _ & N)|(_ & R' & _)]; [|congruence].
    apply addDays_returns in A. fold midnight in A. fold offsetNow in A.
    fold offsetThen in A. rewrite N. split.
    - intros [L U]. rewrite A. f_equal.
      rewrite Z.div_small by (unfold msPerDay in *; lia). lia.
    - intros [L U]. rewrite A. f_equal.
      assert (E : (offsetNow - offsetThen) / msPerDay = -1).
      { symmetry. apply (Z.div_unique _ _ _ (offsetNow - offsetThen + msPerDay));
          unfold msPerDay in *; lia. }
      lia. }
  split.
  { intros R. destruct D as [(d & _ & R' & _)|(_ & _ & N)]; [congruence | exact N]. }
  intros offset ->. rewrite addDays_fixedZone in D. fold midnight in D.
  destruct (Z.leb_spec (Z.abs midnight) maxTime) as [L1|L1];
    destruct (Z.leb_spec (Z.abs ((today now + interval r') * msPerDay)) maxTime)
      as [L2|L2];
    cbn [andb] in D;
    (destruct D as [(d & A & R & _)|(A & R & _)]; [|]); try discriminate;
    (split; [intros R'; try congruence; try (split; assumption)
            | intros [G1 G2]; try exact R; try lia]).
Qed.

Lemma recordAttempt_schedules_witness :
  nextReviewDate
    (after (recordAttempt berlin 1711713600000 passedOnce true 1000 10000 false))
  = Some 19813.
Proof.
  destruct (recordAttempt_schedules berlin 1711713600000 passedOnce true false
              1000 10000) as (_ & _ & _ & _ & D & _).
  destruct D as [_ D]; [reflexivity|].
  rewrite D; [reflexivity|]. vm_compute. split; [reflexivity | discriminate].
Defined.

(** X2. [recordAttempt] leaves the identity of the problem (key,
    operation, operands, answer) alone, counts one more attempt and
    the response time, counts a correct answer, resets [streak] on a
    wrong one, never lowers [bestStreak], and keeps
    [0 <= streak <= bestStreak]; the counters are set before the
    review date is computed, so this holds whether the call returns or
    throws. *)
Theorem recordAttempt_counters :
  forall (tz : TimeZone) (now : Z) (r : ProblemRecord) (ok tout : bool) (rt tl : Q),
    let r' := after (recordAttempt tz now r ok rt tl tout) in
    (key r' = key r /\ operation r' = operation r /\
     operandA r' = operandA r /\ operandB r' = operandB r /\
     correctAnswer r' = correctAnswer r) /\
    totalAttempts r' = totalAttempts r + 1 /\
    (totalTimeMs r' == totalTimeMs r + rt)%Q /\
    lastResponseTimeMs r' = Some rt /\
    totalCorrect r' = (if ok then totalCorrect r + 1 else totalCorrect r) /\
    streak r' = (if ok then streak r + 1 else 0) /\
    bestStreak r <= bestStreak r' /\
    (0 <= streak r <= bestStreak r -> 0 <= streak r' <= bestStreak r').
Proof.
  intros tz now r ok tout rt tl r'. subst r'.
  destruct (recordAttempt_fields tz now r ok tout rt tl)
    as (i & reps & ease & next & ->).
  simpl.
  (repeat split; try reflexivity);
    destruct ok; simpl; try lia;
    destruct (Z.ltb_spec (bestStreak r) (streak r + 1)); lia.
Qed.

Lemma recordAttempt_counters_witness :
  0 <= streak (after (recordAttempt UTC 1641600000000 sampleRecord true 1000 10000 false))
    <= bestStreak (after (recordAttempt UTC 1641600000000 sampleRecord true 1000 10000 false)).
Proof.
  destruct (recordAttempt_counters UTC 1641600000000 sampleRecord true false 1000 10000)
    as (_ & _ & _ & _ & _ & _ & _ & H).
  apply H. simpl. lia.
Defined.

(** The change of the ease factor that [updateSM2] computes for a
    grade, in doubles. *)
Lemma ease_change_by_grade :
  let change (quality : Z) :=
    JS.sub (JS.lit 0.1)
      (JS.mul (inject_Z (5 - quality))
         (JS.add (JS.lit 0.08) (JS.mul (inject_Z (5 - quality)) (JS.lit 0.02)))) in
  (change 5%Z == JS.lit 0.1)%Q /\
  (change 4%Z == 0)%Q /\
  (change 3%Z == JS.lit (- 0.13999999999999999))%Q /\
  (change 1%Z == JS.lit (- 0.54))%Q /\
  (change 0%Z == JS.lit (- 0.7999999999999999))%Q.
Proof.
  cbv zeta. repeat split; apply Qeq_bool_true; vm_compute; reflexivity.
Qed.

Lemma updateSM2_ease (tz : TimeZone) (now : Z) (r : ProblemRecord) (quality : Z) :
  easeFactor (after (updateSM2 tz now r quality)) =
  Qmax SM2_DEFAULTS.MIN_EASE
    (Qmin SM2_DEFAULTS.MAX_EASE
       (JS.add (easeFactor r)
          (JS.sub (JS.lit 0.1)
             (JS.mul (inject_Z (5 - quality))
                (JS.add (JS.lit 0.08)
                   (JS.mul (inject_Z (5 - quality)) (JS.lit 0.02))))))).
Proof.
  unfold updateSM2. destruct (quality >=? 3);
    destruct (addDays tz (today now) _); reflexivity.
Qed.

Lemma add_compat_r (x c c' : Q) : (c == c')%Q -> (JS.add x c == JS.add x c')%Q.
Proof.
  intros E. unfold JS.add. apply fl_compat. rewrite E. reflexivity.
Qed.

Lemma clamp_low (lo hi x y : Q) :
  (lo <= y)%Q -> (y <= hi)%Q -> (x <= y)%Q ->
  (Qmax lo (Qmin hi x) == Qmax lo x)%Q /\ (Qmax lo (Qmin hi x) <= y)%Q.
Proof.
  intros L H X.
  assert (E : (Qmin hi x == x)%Q) by (apply Q.min_r; lra).
  split.
  - destruct (Q.max_spec lo (Qmin hi x)) as [[A B]|[A B]];
      destruct (Q.max_spec lo x) as [[A' B']|[A' B']]; rewrite B, B'; lra.
  - apply Q.max_lub; [exact L|]. rewrite E. exact X.
Qed.

Lemma clamp_high (lo hi x y : Q) :
  (lo <= y)%Q -> (y <= hi)%Q -> (y <= x)%Q ->
  (Qmax lo (Qmin hi x) == Qmin hi x)%Q /\ (y <= Qmax lo (Qmin hi x))%Q.
Proof.
  intros L H X.
  assert (G : (y <= Qmin hi x)%Q) by (apply Q.min_glb; assumption).
  assert (E : (Qmax lo (Qmin hi x) == Qmin hi x)%Q) by (apply Q.max_r; lra).
  split; [exact E|]. rewrite E. exact G.
Qed.

(** X3. The ease factor after [updateSM2], for a record whose ease
    factor is a double within [MIN_EASE, MAX_EASE].  The change that
    the code computes is, in doubles, [0.1] for grade 5, [0] for grade
    4, [-0.13999999999999999] for grade 3, [-0.54] for grade 1 and
    [-0.7999999999999999] for grade 0; the new ease factor is the
    rounded sum, capped at 3.0 and floored at [MIN_EASE].  So grade 4
    leaves the ease factor as it is, grade 5 never lowers it, and the
    other grades never raise it; and the new ease factor is again a
    double within [MIN_EASE, MAX_EASE]. *)
Theorem updateSM2_ease_by_grade :
  forall (tz : TimeZone) (now : Z) (r : ProblemRecord),
    JS.double (easeFactor r) ->
    (SM2_DEFAULTS.MIN_EASE <= easeFactor r <= SM2_DEFAULTS.MAX_EASE)%Q ->
    let ease (quality : Z) := easeFactor (after (updateSM2 tz now r quality)) in
    (ease 5%Z == Qmin 3.0 (JS.add (easeFactor r) (JS.lit 0.1)))%Q /\
    (ease 4%Z == easeFactor r)%Q /\
    (ease 3%Z ==
       Qmax SM2_DEFAULTS.MIN_EASE
         (JS.add (easeFactor r) (JS.lit (- 0.13999999999999999))))%Q /\
    (ease 1%Z ==
       Qmax SM2_DEFAULTS.MIN_EASE (JS.add (easeFactor r) (JS.lit (- 0.54))))%Q /\
    (ease 0%Z ==
       Qmax SM2_DEFAULTS.MIN_EASE
         (JS.add (easeFactor r) (JS.lit (- 0.7999999999999999))))%Q /\
    (easeFactor r <= ease 5%Z)%Q /\
    (forall quality : Z,
       valid_quality quality -> quality <> 5 ->
       (ease quality <= easeFactor r)%Q) /\
    (forall quality : Z,
       JS.double (ease quality) /\
       (SM2_DEFAULTS.MIN_EASE <= ease quality <= SM2_DEFAULTS.MAX_EASE)%Q).
Proof.
  intros tz now r D [Hlo Hhi] ease.
  destruct ease_change_by_grade as (C5 & C4 & C3 & C1 & C0).
  assert (P5 : (0 <= JS.lit 0.1)%Q) by (apply Qle_bool_iff; vm_compute; reflexivity).
  assert (N3 : (JS.lit (- 0.13999999999999999) <= 0)%Q)
    by (apply Qle_bool_iff; vm_compute; reflexivity).
  assert (N1 : (JS.lit (- 0.54) <= 0)%Q)
    by (apply Qle_bool_iff; vm_compute; reflexivity).
  assert (N0 : (JS.lit (- 0.7999999999999999) <= 0)%Q)
    by (apply Qle_bool_iff; vm_compute; reflexivity).
  assert (Up : forall c : Q, (0 <= c)%Q -> (easeFactor r <= JS.add (easeFactor r) c)%Q).
  { intros c Hc. unfold JS.add. apply fl_double_ge; [exact D | lra]. }
  assert (Dn : forall c : Q, (c <= 0)%Q -> (JS.add (easeFactor r) c <= easeFactor r)%Q).
  { intros c Hc. unfold JS.add. apply fl_double_le; [exact D | lra]. }
  assert (E5 : (ease 5%Z == Qmin 3.0 (JS.add (easeFactor r) (JS.lit 0.1)))%Q /\
               (easeFactor r <= ease 5%Z)%Q).
  { subst ease. cbv beta. rewrite updateSM2_ease.
    rewrite (add_compat_r _ _ _ C5).
    apply clamp_high; [exact Hlo | exact Hhi | now apply Up]. }
  assert (E4 : (ease 4%Z == easeFactor r)%Q).
  { subst ease. cbv beta. rewrite updateSM2_ease.
    rewrite (add_compat_r _ _ _ C4).
    assert (E : (JS.add (easeFactor r) 0 == easeFactor r)%Q).
    { unfold JS.add. unfold JS.double in D.
      apply Qeq_trans with (JS.fl (easeFactor r)); [apply fl_compat; ring | exact D]. }
    rewrite E. rewrite Q.min_r by exact Hhi. apply Q.max_r. exact Hlo. }
  assert (E3 : (ease 3%Z == Qmax SM2_DEFAULTS.MIN_EASE
                  (JS.add (easeFactor r) (JS.lit (- 0.13999999999999999))))%Q /\
               (ease 3%Z <= easeFactor r)%Q).
  { subst ease. cbv beta. rewrite updateSM2_ease.
    rewrite (add_compat_r _ _ _ C3).
    apply clamp_low; [exact Hlo | exact Hhi | now apply Dn]. }
  assert (E1 : (ease 1%Z == Qmax SM2_DEFAULTS.MIN_EASE
                  (JS.add (easeFactor r) (JS.lit (- 0.54))))%Q /\
               (ease 1%Z <= easeFactor r)%Q).
  { subst ease. cbv beta. rewrite updateSM2_ease.
    rewrite (add_compat_r _ _ _ C1).
    apply clamp_low; [exact Hlo | exact Hhi | now apply Dn]. }
  assert (E0 : (ease 0%Z == Qmax SM2_DEFAULTS.MIN_EASE
                  (JS.add (easeFactor r) (JS.lit (- 0.7999999999999999))))%Q /\
               (ease 0%Z <= easeFactor r)%Q).
  { subst ease. cbv beta. rewrite updateSM2_ease.
    rewrite (add_compat_r _ _ _ C0).
    apply clamp_low; [exact Hlo | exact Hhi | now apply Dn]. }
  split; [apply E5|]. split; [exact E4|]. split; [apply E3|].
  split; [apply E1|]. split; [apply E0|]. split; [apply E5|]. split.
  - intros q V N5.
    destruct V as [ -> | [ -> | [ -> | [ -> | -> ]]]]; try congruence.
    + apply E0.
    + apply E1.
    + apply E3.
    + rewrite E4. apply Qle_refl.
  - intros q. subst ease. cbv beta. rewrite updateSM2_ease. split.
    + apply double_max; [apply fl_double|].
      apply double_min; [|apply fl_double].
      unfold JS.double. apply Qeq_bool_eq. vm_compute. reflexivity.
    + apply clamp_bounds. apply MIN_EASE_bounds.
Qed.

Lemma updateSM2_ease_witness :
  (easeFactor (after (updateSM2 UTC 1641600000000 sampleRecord 0)) ==
   JS.lit 1.7000000000000002)%Q.
Proof.
  destruct (updateSM2_ease_by_grade UTC 1641600000000 sampleRecord)
    as (_ & _ & _ & _ & E0 & _).
  - unfold JS.double. apply Qeq_bool_true. vm_compute. reflexivity.
  - split; apply Qle_bool_iff; vm_compute; reflexivity.
  - rewrite E0. apply Qeq_bool_true. vm_compute. reflexivity.
Defined.

(** Runs of [updateSM2] in which the rounding of the doubles shows:
    five answers of grade 3 take the ease factor from 2.5 to
    1.7999999999999998; nine answers lead to [seasonedRecord], whose
    next interval is the rounding of the double 607.5; and after the
    grades 4, 3, 3, 4, 3, 5 the next pass sets the interval 163. *)
Example updateSM2_rounding_examples :
  let now := 1641600000000 in
  let new := createProblemRecord "mul:6x7" mul 6 7 42 in
  (easeFactor (afterGrades UTC now [3; 3; 3; 3; 3]%Z new) ==
   JS.lit 1.7999999999999998)%Q /\
  (easeFactor (afterGrades UTC now [3; 3; 3; 3; 5; 3; 4; 3; 3]%Z new) ==
   easeFactor seasonedRecord)%Q /\
  interval (afterGrades UTC now [3; 3; 3; 3; 5; 3; 4; 3; 3]%Z new) =
    interval seasonedRecord /\
  repetitions (afterGrades UTC now [3; 3; 3; 3; 5; 3; 4; 3; 3]%Z new) =
    repetitions seasonedRecord /\
  (JS.mul (inject_Z (interval seasonedRecord)) (easeFactor seasonedRecord) ==
   607.5)%Q /\
  interval (afterGrades UTC now [4; 3; 3; 4; 3; 5; 3] new) = 163.
Proof.
  cbv zeta. repeat split;
    try (apply Qeq_bool_true; vm_compute; reflexivity);
    vm_compute; reflexivity.
Qed.

(** ** Priority scoring *)



(** ** The ten best candidates *)

Lemma StronglySorted_app_before {A : Type} (R : A -> A -> Prop) (l1 l2 : list A) :
  StronglySorted R (l1 ++ l2) ->
  forall x y, In x l1 -> In y l2 -> R x y.
Proof.
  induction l1 as [|a l1 IH]; simpl; intros H x y Hx Hy; [contradiction|].
  inversion H as [|? ? Hs Hall]; subst. destruct Hx as [->|Hx].
  - apply (proj1 (Forall_forall _ _) Hall). apply in_or_app. now right.
  - now apply IH.
Qed.

Lemma StronglySorted_app_l {A : Type} (R : A -> A -> Prop) (l1 l2 : list A) :
  StronglySorted R (l1 ++ l2) -> StronglySorted R l1.
Proof.
  induction l1 as [|a l1 IH]; simpl; intros H; [constructor|].
  inversion H as [|? ? Hs Hall]; subst. constructor; [now apply IH|].
  apply Forall_forall. intros x Hx.
  apply (proj1 (Forall_forall _ _) Hall). apply in_or_app. now left.
Qed.

Lemma byScoreDesc_sorted (l : list Scored) :
  StronglySorted (fun a b => (score b <= score a)%Q) (sortBy byScoreDesc l).
Proof.
  eapply StronglySorted_weaken; [|apply (sortBy_sorted byScoreDesc)].
  - intros a b. unfold before, byScoreDesc. lra.
  - intros x y. unfold before, byScoreDesc.
    destruct (Qlt_le_dec (score x) (score y)); [right|left]; lra.
  - intros x y z. unfold before, byScoreDesc. lra.
Qed.

(** X5. The list [top] of [selectNextProblem] holds the
    [min(10, n)] best of the [n] scored candidates: it is in descending
    order of score, and the candidates left out score no more than any
    candidate kept. *)
Theorem selectionTop_best_ten :
  forall (now : Z) (w : World) (sessionAttempts : list Attempt) (phase : Phase),
    let scored := selectionScored now w sessionAttempts phase in
    let top := selectionTop now w sessionAttempts phase in
    List.length top = Nat.min 10 (List.length scored) /\
    StronglySorted (fun a b => (score b <= score a)%Q) top /\
    exists rest : list Scored,
      Permutation (top ++ rest) scored /\
      forall s s' : Scored, In s top -> In s' rest -> (score s' <= score s)%Q.
Proof.
  intros now w atts phase scored top.
  set (sorted := sortBy byScoreDesc scored).
  assert (Et : top = firstn (Nat.min 10 (List.length sorted)) sorted) by reflexivity.
  assert (Hs := byScoreDesc_sorted scored). fold sorted in Hs.
  rewrite <- (firstn_skipn (Nat.min 10 (List.length sorted)) sorted) in Hs.
  rewrite <- Et in Hs.
  split; [|split].
  - rewrite Et, length_firstn. unfold sorted. rewrite sortBy_length. lia.
  - eapply StronglySorted_app_l; eauto.
  - exists (skipn (Nat.min 10 (List.length sorted)) sorted). split.
    + rewrite Et, firstn_skipn. apply Permutation_sym, sortBy_perm.
    + intros s s' H1 H2.
      apply (StronglySorted_app_before _ _ _ Hs s s' H1 H2).
Qed.

(** ** Weighted random pick *)

Lemma pickWeighted_first (first : Scored) (rest : list Scored) (r : Q) :
  (r <= 0)%Q -> pickWeighted (first :: rest) r = Some first.
Proof.
  intros H. simpl.
  replace (Qle_bool (JS.sub r (Qmax 1 (score first))) 0) with true; [reflexivity|].
  symmetry. apply Qle_bool_iff. unfold JS.sub. apply fl_nonpos.
  pose proof (Q.le_max_l 1 (score first)). lra.
Qed.

(** X6. [weightedRandom] returns [undefined] on an empty list and an
    item of the list otherwise, whatever the draw.  A draw of 0 returns
    the first item.  The weights are added and subtracted in doubles,
    so the scan can reach the end of the list with a positive rest
    even for a draw below 1, and the statement after the loop then
    returns the last item: so it is for the draw [1 - 2^-52] on the
    eight weights of [eightItems], which add up to 631.6345454545456. *)
Theorem weightedRandom_returns_item :
  forall items : list Scored,
    (forall u : Q, weightedRandom u [] = None) /\
    (items <> [] ->
     forall u : Q, exists s : Scored, weightedRandom u items = Some s /\ In s items) /\
    (forall u : Q,
       pickWeighted items (JS.mul u (totalWeightOf items)) = None ->
       weightedRandom u items = nth_error items (List.length items - 1)) /\
    (forall (first : Scored) (rest : list Scored),
       items = first :: rest -> weightedRandom 0 items = Some first) /\
    ((totalWeightOf eightItems == JS.lit 631.6345454545456)%Q /\
     (0 <= lastDraw)%Q /\ (lastDraw < 1)%Q /\ JS.double lastDraw /\
     pickWeighted eightItems (JS.mul lastDraw (totalWeightOf eightItems)) = None /\
     weightedRandom lastDraw eightItems = nth_error eightItems 7).
Proof.
  intros items. split; [reflexivity|]. split; [|split; [|split]].
  - intros Hne u. now apply weightedRandom_In.
  - intros u H. unfold weightedRandom. fold (totalWeightOf items). now rewrite H.
  - intros first rest ->. unfold weightedRandom.
    rewrite pickWeighted_first; [reflexivity|].
    unfold JS.mul. rewrite fl_zero; [apply Qle_refl | ring].
  - split; [apply Qeq_bool_true; vm_compute; reflexivity|].
    split; [apply Qle_bool_iff; vm_compute; reflexivity|].
    split; [vm_compute; reflexivity|].
    split; [unfold JS.double; apply Qeq_bool_true; vm_compute; reflexivity|].
    split; vm_compute; reflexivity.
Qed.

Lemma weightedRandom_witness :
  exists s : Scored,
    weightedRandom (1 # 2) [mkScored freshRecord 75; mkScored masteredRecord 0] = Some s /\
    In s [mkScored freshRecord 75; mkScored masteredRecord 0].
Proof.
  destruct (weightedRandom_returns_item
              [mkScored freshRecord 75; mkScored masteredRecord 0])
    as (_ & H & _).
  apply H. discriminate.
Defined.

(** ** Mistake drill selection *)

Lemma applyInterleaving_records (scored : list Scored) (atts : list Attempt)
    (s : Scored) :
  In s (applyInterleaving scored atts) ->
  exists s0 : Scored, In s0 scored /\ record s0 = record s.
Proof.
  unfold applyInterleaving.
  assert (M : forall (g : Scored -> bool) (c : Q),
             In s (map (fun x => if g x then mkScored (record x) (score x * c)
                                 else x) scored) ->
             exists s0, In s0 scored /\ record s0 = record s).
  { intros g c H. apply in_map_iff in H. destruct H as (s0 & E & H).
    exists s0. split; [exact H|]. destruct (g s0); subst; reflexivity. }
  destruct (List.length atts =? 0)%nat; [eauto|].
  assert (S : In s (match nth_error atts (List.length atts - 1) with
              | Some lastAtt =>
                  map (fun x =>
                         if Operation_eqb (operation (record x)) (att_operation lastAtt)
                         then mkScored (record x) (score x * 0.5)
                         else x) scored
              | None => scored
              end) -> exists s0, In s0 scored /\ record s0 = record s).
  { destruct (nth_error atts (List.length atts - 1)) as [a|]; [|eauto].
    apply (M (fun x => Operation_eqb (operation (record x)) (att_operation a))). }
  destruct (sliceLast2 atts) as [|x [|y [|z l]]]; try exact S.
  destruct (Operation_eqb (att_operation x) (att_operation y)); [|exact S].
  match goal with |- context [(0 <? ?n)%nat] => destruct (0 <? n)%nat end;
    [|eauto].
  intros H. apply filter_In in H. destruct H as [H _]. eauto.
Qed.

(** X7. [selectDrillProblem] returns null for an empty drill pool and
    otherwise the problem of a record of the pool.  No phase filter
    runs here, so after two attempts of one operation the result has
    another operation whenever the pool holds a record of another
    operation. *)
Theorem selectDrillProblem_from_pool :
  forall (now : Z) (drillPool : list ProblemRecord) (sessionAttempts : list Attempt)
         (random : nat -> Q) (i : nat),
    (drillPool = [] ->
     selectDrillProblem now drillPool sessionAttempts random i = Some (None, i)) /\
    (drillPool <> [] ->
     exists r : ProblemRecord,
       In r drillPool /\
       selectDrillProblem now drillPool sessionAttempts random i =
         Some (Some (toProblem r), S i) /\
       forall (pre : list Attempt) (x y : Attempt) (r0 : ProblemRecord),
         sessionAttempts = pre ++ [x; y] ->
         att_operation x = att_operation y ->
         In r0 drillPool -> operation r0 <> att_operation x ->
         operation r <> att_operation x).
Proof.
  intros now pool atts random i. split.
  - intros ->. reflexivity.
  - intros Hne. unfold selectDrillProblem.
    destruct pool as [|r1 pool'] eqn:Ep; [congruence|].
    simpl (List.length (r1 :: pool') =? 0)%nat. cbv iota. rewrite <- Ep in *.
    set (scored := scoreAll now pool atts).
    set (inter := applyInterleaving scored atts).
    set (sorted := sortBy byScoreDesc inter).
    set (top := firstn (Nat.min 8 (List.length sorted)) sorted).
    assert (Hsc : scored <> []).
    { subst scored. unfold scoreAll. rewrite Ep. discriminate. }
    assert (Hin : inter <> []) by (now apply applyInterleaving_nonempty).
    assert (Hso : sorted <> []).
    { intros E. apply Hin. apply length_zero_iff_nil.
      rewrite <- (sortBy_length byScoreDesc). fold sorted. now rewrite E. }
    assert (Ht : top <> []) by (now apply firstn_min_nonempty).
    destruct (weightedRandom_In (random i) top Ht) as (s & Hs & Hmem).
    assert (Hmi : In s inter).
    { apply In_firstn in Hmem. now apply sortBy_In in Hmem. }
    destruct (applyInterleaving_records scored atts s Hmi) as (s0 & H0 & Er).
    unfold scored, scoreAll in H0. apply in_map_iff in H0.
    destruct H0 as (r & E0 & Hr). subst s0. simpl in Er.
    exists r. split; [exact Hr|]. split.
    + unfold bind, Math_random, ret. rewrite Hs, <- Er. reflexivity.
    + intros pre x y r0 -> Hxy Hr0 Hop.
      set (s1 := mkScored r0 (calculatePriority now r0 (pre ++ [x; y])
                                (Z.of_nat (List.length (pre ++ [x; y]))))).
      assert (H1 : In s1 scored).
      { unfold scored, scoreAll.
        apply (in_map (fun r => mkScored r (calculatePriority now r (pre ++ [x; y])
                                 (Z.of_nat (List.length (pre ++ [x; y])))))).
        exact Hr0. }
      unfold inter in Hmi.
      rewrite (applyInterleaving_blocked scored pre x y s1 Hxy H1 Hop) in Hmi.
      apply filter_In in Hmi. destruct Hmi as [_ Hb].
      apply negb_true_iff, Operation_eqb_neq in Hb.
      unfold opOf in Hb. now rewrite <- Er in Hb.
Qed.

Lemma selectDrillProblem_witness :
  exists r : ProblemRecord,
    In r [struggling "mul:6x7" 6 7; freshRecord] /\
    selectDrillProblem 1641600000000 [struggling "mul:6x7" 6 7; freshRecord]
                       twoMulAttempts (fun _ => 0%Q) 0%nat =
      Some (Some (toProblem r), 1%nat) /\
    operation r <> mul.
Proof.
  destruct (selectDrillProblem_from_pool 1641600000000
              [struggling "mul:6x7" 6 7; freshRecord] twoMulAttempts
              (fun _ => 0%Q) 0%nat) as (_ & H).
  destruct H as (r & Hin & Hsel & Hop); [discriminate|].
  exists r. split; [exact Hin|]. split; [exact Hsel|].
  apply (Hop [] (mkAttempt "mul:6x7" mul false 5000)
             (mkAttempt "mul:7x8" mul false 6000) freshRecord).
  - reflexivity.
  - reflexivity.
  - simpl. right. left. reflexivity.
  - discriminate.
Defined.

(** ** Keys identify problems *)

Local Open Scope string_scope.

Lemma canonicalizeProblemKey_inj (op op' : Operation) (a b c d : Z) :
  canonicalizeProblemKey op a b = canonicalizeProblemKey op' c d ->
  op = op' /\
  (if commutative op
   then Z.min a b = Z.min c d /\ Z.max a b = Z.max c d
   else a = c /\ b = d).
Proof.
  destruct op, op'; unfold canonicalizeProblemKey; simpl; intros E;
    try discriminate; injection E as E; apply key_body_inj in E;
    split; auto.
Qed.

(** X8. Two keys are equal exactly when the operations are equal and
    the operands are the same, as an ordered pair for [sub] and [div]
    and as an unordered pair for the commutative [add] and [mul]. *)
Theorem canonicalizeProblemKey_identifies :
  forall (op op' : Operation) (a b c d : Z),
    canonicalizeProblemKey op a b = canonicalizeProblemKey op' c d <->
    op = op' /\
    (if commutative op
     then Z.min a b = Z.min c d /\ Z.max a b = Z.max c d
     else a = c /\ b = d).
Proof.
  intros op op' a b c d. split.
  - apply canonicalizeProblemKey_inj.
  - intros [<- H]. destruct op; simpl in H; unfold canonicalizeProblemKey; simpl;
      destruct H as [-> ->]; reflexivity.
Qed.

Lemma canonicalizeProblemKey_identifies_witness :
  canonicalizeProblemKey mul 7 6 = canonicalizeProblemKey mul 6 7.
Proof.
  apply (canonicalizeProblemKey_identifies mul mul 7 6 6 7).
  split; [reflexivity|]. simpl. split; reflexivity.
Defined.

Local Close Scope string_scope.

(** ** Operands of generated problems *)

Lemma floor_scaled_bounds (u : Q) (n : Z) :
  (0 <= u)%Q -> (u < 1)%Q -> 0 < n ->
  0 <= JS.floor (u * inject_Z n) < n.
Proof.
  intros H0 H1 Hn.
  replace n with (Z.of_nat (Z.to_nat n)) by lia.
  apply floor_index_bounds; auto. lia.
Qed.

Lemma drawInt_range (random : nat -> Q) (i : nat) (min max : Z) :
  uniform01 random -> min <= max ->
  min <= drawInt random i min max <= max.
Proof.
  intros U H. destruct (U i) as [U0 U1]. unfold drawInt.
  pose proof (floor_scaled_bounds (random i) (max - min + 1) U0 U1). lia.
Qed.

(** X9. With draws in [0, 1) and ranges whose minimum is not above the
    maximum, the operands of a generated problem stay in the configured
    ranges: for [add] and [mul] each operand in its own range, for
    [div] the divisor in the B range and the quotient in the A range,
    for [sub] both operands between the smaller minimum and the larger
    maximum, the first above the second. *)
Theorem generateRandomProblem_in_range :
  forall (s : Settings) (random : nat -> Q) (op : Operation) (fuel i : nat)
         (p : Problem) (j : nat),
    uniform01 random ->
    rangeOk (operationRanges s op) ->
    generateRandomProblem fuel s op random i = Some (p, j) ->
    let rg := operationRanges s op in
    match op with
    | add | mul =>
        minA rg <= p_a p <= maxA rg /\ minB rg <= p_b p <= maxB rg
    | sub =>
        Z.min (minA rg) (minB rg) <= p_b p /\ p_b p < p_a p /\
        p_a p <= Z.max (maxA rg) (maxB rg)
    | div =>
        minB rg <= p_b p <= maxB rg /\ minA rg <= p_answer p <= maxA rg
    end.
Proof.
  intros s random op fuel i p j U [RA RB] G rg. subst rg.
  assert (DA : forall k, minA (operationRanges s op) <= drawA s op random k
                         <= maxA (operationRanges s op))
    by (intros k; now apply drawInt_range).
  assert (DB : forall k, minB (operationRanges s op) <= drawB s op random k
                         <= maxB (operationRanges s op))
    by (intros k; now apply drawInt_range).
  destruct op.
  - rewrite generate_add in G. cbv zeta in G. injection G as <- _. simpl. auto.
  - revert i G. induction fuel as [|fuel IH]; intros i G;
      rewrite generate_sub in G; cbv zeta in G; rewrite max_eqb_min in G;
      destruct (Z.eqb_spec (drawA s sub random i) (drawB s sub random i)) as [E|N];
      try discriminate; eauto;
      injection G as <- _; simpl;
      specialize (DA i); specialize (DB i); lia.
  - rewrite generate_mul in G. cbv zeta in G. injection G as <- _. simpl. auto.
  - rewrite generate_div in G. cbv zeta in G. injection G as <- _. simpl. auto.
Qed.

Lemma generateRandomProblem_in_range_witness :
  Z.min 20 10 <= 55 /\ 55 < 60 /\ 60 <= Z.max 99 99.
Proof.
  apply (generateRandomProblem_in_range subOnlySettings (fun _ => 0.5%Q) sub
           0%nat 0%nat (mkProblem sub 60 55 5 "sub:60x55") 2%nat).
  - intros i. split; vm_compute; congruence.
  - split; simpl; lia.
  - reflexivity.
Defined.

(** ** Problem pool *)

Lemma forEach_Forall {A B : Type} (P : B -> Prop) (l : list A)
    (body : A -> Gen (list B)) :
  (forall x random i ys j,
     In x l -> body x random i = Some (ys, j) -> Forall P ys) ->
  forall random i ys j,
    forEach l body random i = Some (ys, j) -> Forall P ys.
Proof.
  induction l as [|x l IH]; intros Hb random i ys j; simpl.
  - unfold ret. intros [= <- _]. constructor.
  - unfold bind, ret.
    destruct (body x random i) as [[ys1 j1]|] eqn:E1; [|discriminate].
    destruct (forEach l body random j1) as [[ys2 j2]|] eqn:E2; [|discriminate].
    intros [= <- _]. apply Forall_app. split.
    + eapply Hb; [now left | exact E1].
    + eapply IH; [|exact E2]. intros x' r' i' ys' j' Hin. apply Hb. now right.
Qed.

Lemma forEach_total {A B : Type} (l : list A) (body : A -> Gen (list B)) :
  (forall x random i, exists ys j, body x random i = Some (ys, j)) ->
  forall random i, exists ys j, forEach l body random i = Some (ys, j).
Proof.
  intros Hb. induction l as [|x l IH]; intros random i; simpl.
  - unfold ret. eauto.
  - unfold bind, ret. destruct (Hb x random i) as (ys1 & j1 & ->).
    destruct (IH random j1) as (ys2 & j2 & ->). eauto.
Qed.

Lemma zrange_In (lo hi x : Z) : In x (zrange lo hi) <-> lo <= x <= hi.
Proof.
  unfold zrange. rewrite in_map_iff. split.
  - intros (k & <- & Hk). apply in_seq in Hk. lia.
  - intros H. exists (Z.to_nat (x - lo)). split; [lia|]. apply in_seq. lia.
Qed.

Lemma rangeDraw_cases (op : Operation) (rg : Range) (tensA tensB : Z)
    (random : nat -> Q) (i : nat) :
  exists ps : list (Z * Z),
    rangeDraw op rg tensA tensB random i = Some (ps, S (S i)) /\
    Forall (fun p => minA rg <= fst p <= maxA rg /\
                     minB rg <= snd p <= maxB rg /\
                     (op = sub -> snd p < fst p)) ps /\
    (List.length ps <= 1)%nat.
Proof.
  unfold rangeDraw, bind, Math_random, ret. cbv zeta.
  set (a := Z.min (maxA rg) _). set (b := Z.min (maxB rg) _).
  destruct (Z.ltb_spec a (minA rg)); simpl orb.
  - eexists. split; [reflexivity|]. split; [constructor | simpl; lia].
  - destruct (Z.ltb_spec b (minB rg)); simpl orb.
    + eexists. split; [reflexivity|]. split; [constructor | simpl; lia].
    + destruct (Operation_eqb op sub) eqn:Eo; simpl andb.
      * destruct (Z.leb_spec a b).
        -- eexists. split; [reflexivity|]. split; [constructor | simpl; lia].
        -- eexists. split; [reflexivity|]. split; [|simpl; lia].
           repeat constructor; simpl; subst a b; lia.
      * eexists. split; [reflexivity|]. split; [|simpl; lia].
        apply Operation_eqb_neq in Eo.
        repeat constructor; simpl; subst a b; try lia. congruence.
Qed.

Lemma generateRangeProblems_range (op : Operation) (rg : Range)
    (random : nat -> Q) (i : nat) (ps : list (Z * Z)) (j : nat) :
  generateRangeProblems op rg random i = Some (ps, j) ->
  Forall (fun p => minA rg <= fst p <= maxA rg /\
                   minB rg <= snd p <= maxB rg /\
                   (op = sub -> snd p < fst p)) ps.
Proof.
  unfold generateRangeProblems. apply forEach_Forall.
  intros tensA r1 i1 ys1 j1 _. apply forEach_Forall.
  intros tensB r2 i2 ys2 j2 _. apply forEach_Forall.
  intros k r3 i3 ys3 j3 _ E.
  destruct (rangeDraw_cases op rg tensA tensB r3 i3) as (ps' & E' & F & _).
  congruence.
Qed.

Lemma generateRangeProblems_total (op : Operation) (rg : Range)
    (random : nat -> Q) (i : nat) :
  exists ps j, generateRangeProblems op rg random i = Some (ps, j).
Proof.
  unfold generateRangeProblems. apply forEach_total.
  intros tensA r1 i1. apply forEach_total.
  intros tensB r2 i2. apply forEach_total.
  intros k r3 i3.
  destruct (rangeDraw_cases op rg tensA tensB r3 i3) as (ps' & E' & _). eauto.
Qed.

(** What [ensureRecord] returns for a problem with the right answer,
    over a store that is in order. *)
Lemma ensureRecord_ok (store : list (string * ProblemRecord)) (op : Operation)
    (a b answer : Z) :
  storeOk store -> answerOk op a b answer ->
  let r := ensureRecord store op a b answer in
  key r = canonicalizeProblemKey op a b /\
  operation r = op /\
  problemOk r /\
  (if commutative op
   then Z.min (operandA r) (operandB r) = Z.min a b /\
        Z.max (operandA r) (operandB r) = Z.max a b
   else operandA r = a /\ operandB r = b) /\
  fromStoreOrNew store r.
Proof.
  intros Hs Ha. unfold ensureRecord. cbv zeta.
  destruct (lookupRecord (canonicalizeProblemKey op a b) store) as [rec|] eqn:L.
  - destruct (Hs _ _ L) as [Hk Hp].
    assert (E := proj1 Hp). rewrite Hk in E. symmetry in E.
    apply canonicalizeProblemKey_inj in E. destruct E as [Eop E].
    subst op. split; [exact Hk|]. split; [reflexivity|].
    split; [exact Hp|]. split; [exact E|].
    left. now rewrite Hk.
  - simpl. split; [reflexivity|]. split; [reflexivity|].
    split; [split; [reflexivity | exact Ha]|].
    split; [destruct (commutative op); auto|].
    right. simpl. auto.
Qed.

Lemma ensureRecord_pool_ok (s : Settings) (store : list (string * ProblemRecord))
    (op : Operation) (a b answer : Z) :
  storeOk store -> answerOk op a b answer ->
  enabled (operationRanges s op) = true ->
  (op = sub -> b < a) ->
  poolRecordOk s store (ensureRecord store op a b answer).
Proof.
  intros Hs Ha He Hsub.
  destruct (ensureRecord_ok store op a b answer Hs Ha) as (_ & Eo & Hp & Hc & Hf).
  unfold poolRecordOk. rewrite Eo. repeat split; auto; try apply Hp.
  intros ->. simpl in Hc. destruct Hc as [-> ->]. auto.
Qed.

Lemma poolOf_ok (s : Settings) (store : list (string * ProblemRecord))
    (op : Operation) (random : nat -> Q) (i : nat)
    (rs : list ProblemRecord) (j : nat) :
  storeOk store ->
  enabled (operationRanges s op) = true ->
  poolOf store op (operationRanges s op) random i = Some (rs, j) ->
  Forall (poolRecordOk s store) rs.
Proof.
  intros Hs He. destruct op; simpl; unfold bind, ret.
  - destruct (generateRangeProblems add _ random i) as [[ps j']|] eqn:G;
      [|discriminate].
    intros [= <- _]. apply Forall_map.
    apply generateRangeProblems_range in G.
    eapply Forall_impl; [|exact G]. intros [a b] _.
    apply ensureRecord_pool_ok; auto; try reflexivity; try discriminate.
  - destruct (generateRangeProblems sub _ random i) as [[ps j']|] eqn:G;
      [|discriminate].
    intros [= <- _]. apply Forall_map.
    apply generateRangeProblems_range in G.
    eapply Forall_impl; [|exact G]. intros [a b] (_ & _ & H).
    apply ensureRecord_pool_ok; auto; try reflexivity; try (intros _; now apply H).
  - intros [= <- _]. unfold mulPool. apply Forall_flat_map.
    apply Forall_forall. intros a _. apply Forall_map.
    apply Forall_forall. intros b _.
    apply ensureRecord_pool_ok; auto; try reflexivity; try discriminate.
  - intros [= <- _]. unfold divPool. apply Forall_flat_map.
    apply Forall_forall. intros dv _. apply Forall_map.
    apply Forall_forall. intros qt _.
    apply ensureRecord_pool_ok; auto; try reflexivity; try discriminate.
Qed.

Lemma poolOf_total (store : list (string * ProblemRecord)) (op : Operation)
    (rg : Range) (random : nat -> Q) (i : nat) :
  exists rs j, poolOf store op rg random i = Some (rs, j).
Proof.
  destruct op; simpl; unfold bind, ret; eauto;
    match goal with |- context [generateRangeProblems ?o rg random i] =>
      destruct (generateRangeProblems_total o rg random i) as (ps & j & ->)
    end; eauto.
Qed.

Lemma candidatesOf_pool_fixed (w : World) :
  Forall (poolRecordOk (settings w) (problemRecords w)) (currentPool w) ->
  candidatesOf w = currentPool w.
Proof.
  unfold candidatesOf. induction 1 as [|r l Hr Hl IH]; simpl; [reflexivity|].
  destruct Hr as (He & _ & _ & Hf).
  assert (E : match lookupRecord (key r) (problemRecords w) with
              | Some p => p
              | None => r
              end = r).
  { destruct Hf as [-> | [-> _]]; reflexivity. }
  rewrite E.
  assert (I : includes (enabledOps (settings w)) (operation r) = true).
  { unfold includes. apply existsb_exists. exists (operation r).
    split; [|now apply Operation_eqb_eq].
    unfold enabledOps. apply filter_In. split; [|exact He].
    unfold operationKeys. destruct (operation r); simpl; auto. }
  rewrite I. f_equal. exact IH.
Qed.

(** X10. [buildProblemPool] always returns; it changes only the pool.
    Over a store whose records sit under their own key and describe
    their problem, every record of the new pool has an enabled
    operation, describes its problem, has for [sub] a first operand
    above the second, and is the persisted record of its key if there
    is one and a new record otherwise.  Right after the build the
    candidates of [selectNextProblem] are the pool itself. *)
Theorem buildProblemPool_wellformed :
  forall (w : World) (random : nat -> Q) (i : nat),
    storeOk (problemRecords w) ->
    exists (w' : World) (j : nat),
      buildProblemPool w random i = Some (w', j) /\
      settings w' = settings w /\
      problemRecords w' = problemRecords w /\
      Forall (poolRecordOk (settings w) (problemRecords w)) (currentPool w') /\
      candidatesOf w' = currentPool w'.
Proof.
  intros w random i Hs. unfold buildProblemPool, bind, ret.
  set (body := fun op : Operation => _).
  destruct (forEach_total operationKeys body) with (random := random) (i := i)
    as (pool & j & E).
  { intros op r1 i1. subst body. cbv beta zeta.
    destruct (negb _); [unfold ret; eauto | apply poolOf_total]. }
  rewrite E. exists (mkWorld (settings w) (problemRecords w) pool), j.
  assert (F : Forall (poolRecordOk (settings w) (problemRecords w)) pool).
  { revert E. apply forEach_Forall.
    intros op r1 i1 ys j1 _. subst body. cbv beta zeta.
    destruct (enabled (operationRanges (settings w) op)) eqn:En; simpl negb; cbv iota.
    - now apply poolOf_ok.
    - unfold ret. intros [= <- _]. constructor. }
  repeat split; auto.
  now apply candidatesOf_pool_fixed.
Qed.

Lemma buildProblemPool_witness :
  exists (w' : World) (j : nat),
    buildProblemPool emptyPoolWorld (fun _ => 0.5%Q) 0%nat = Some (w', j) /\
    settings w' = settings emptyPoolWorld /\
    problemRecords w' = problemRecords emptyPoolWorld /\
    Forall (poolRecordOk (settings emptyPoolWorld) (problemRecords emptyPoolWorld))
           (currentPool w') /\
    candidatesOf w' = currentPool w'.
Proof.
  apply (buildProblemPool_wellformed emptyPoolWorld (fun _ => 0.5%Q) 0%nat).
  intros k r H. discriminate H.
Defined.

Lemma NoDup_map_on {A B : Type} (f : A -> B) (l : list A) :
  (forall x y, In x l -> In y l -> f x = f y -> x = y) ->
  NoDup l -> NoDup (map f l).
Proof.
  intros Hinj. apply NoDup_map_NoDup_ForallPairs.
  intros x y Hx Hy. now apply Hinj.
Qed.

Lemma NoDup_flat_map_on {A B : Type} (f : A -> list B) (l : list A) :
  NoDup l ->
  (forall x, In x l -> NoDup (f x)) ->
  (forall x y z, In x l -> In y l -> In z (f x) -> In z (f y) -> x = y) ->
  NoDup (flat_map f l).
Proof.
  induction 1 as [|x l Hx Hl IH]; intros Hf Hd; simpl; [constructor|].
  apply NoDup_app.
  - apply Hf. now left.
  - apply IH.
    + intros y Hy. apply Hf. now right.
    + intros y y' z Hy Hy'. apply Hd; now right.
  - intros z Hz Hz'. apply in_flat_map in Hz'. destruct Hz' as (y & Hy & Hzy).
    assert (x = y) by (apply (Hd x y z); auto; [now left | now right]).
    subst. contradiction.
Qed.

Lemma zrange_NoDup (lo hi : Z) : NoDup (zrange lo hi).
Proof.
  unfold zrange. apply NoDup_map_on; [|apply seq_NoDup].
  intros x y _ _ H. lia.
Qed.

Lemma ensureRecord_key (store : list (string * ProblemRecord)) (op : Operation)
    (a b answer : Z) :
  storeOk store ->
  key (ensureRecord store op a b answer) = canonicalizeProblemKey op a b.
Proof.
  intros Hs. unfold ensureRecord. cbv zeta.
  destruct (lookupRecord _ store) as [rec|] eqn:L; [|reflexivity].
  now destruct (Hs _ _ L).
Qed.

(** X11. Over a store that is in order, the [mul] part of the pool
    holds one record for every pair [a <= b] with [a] in the A range
    and [b] up to [maxB], and the [div] part one record for every
    divisor of the B range and quotient of the A range; in the [mul]
    part no key occurs twice, and neither in the [div] part when the
    divisors are positive. *)
Theorem mul_div_pool_covers_once :
  forall (store : list (string * ProblemRecord)) (rg : Range),
    storeOk store ->
    (forall a b : Z,
       minA rg <= a <= maxA rg -> a <= b <= maxB rg ->
       exists r : ProblemRecord,
         In r (mulPool store rg) /\ key r = canonicalizeProblemKey mul a b) /\
    NoDup (map key (mulPool store rg)) /\
    (forall divisor quotient : Z,
       minB rg <= divisor <= maxB rg -> minA rg <= quotient <= maxA rg ->
       exists r : ProblemRecord,
         In r (divPool store rg) /\
         key r = canonicalizeProblemKey div (divisor * quotient) divisor) /\
    (0 < minB rg -> NoDup (map key (divPool store rg))).
Proof.
  intros store rg Hs. split; [|split; [|split]].
  - intros a b Ha Hb. exists (ensureRecord store mul a b (a * b)). split.
    + unfold mulPool. apply in_flat_map. exists a.
      split; [now apply zrange_In|].
      apply (in_map (fun b0 => ensureRecord store mul a b0 (a * b0))).
      now apply zrange_In.
    + now apply ensureRecord_key.
  - unfold mulPool. rewrite flat_map_concat_map, concat_map, map_map,
      <- flat_map_concat_map.
    apply NoDup_flat_map_on; [apply zrange_NoDup| |].
    + intros a _. rewrite map_map. apply NoDup_map_on; [|apply zrange_NoDup].
      intros b b' Hb Hb' E. rewrite !ensureRecord_key in E by exact Hs.
      apply canonicalizeProblemKey_inj in E. simpl in E.
      apply zrange_In in Hb, Hb'. lia.
    + intros a a' k _ _ Hk Hk'. rewrite map_map in Hk, Hk'.
      apply in_map_iff in Hk, Hk'.
      destruct Hk as (b & <- & Hb), Hk' as (b' & E & Hb').
      rewrite !ensureRecord_key in E by exact Hs.
      apply canonicalizeProblemKey_inj in E. simpl in E.
      apply zrange_In in Hb, Hb'. lia.
  - intros dv qt Hd Hq.
    exists (ensureRecord store div (dv * qt) dv qt). split.
    + unfold divPool. apply in_flat_map. exists dv.
      split; [now apply zrange_In|].
      apply (in_map (fun quotient =>
                       ensureRecord store div (dv * quotient) dv quotient)).
      now apply zrange_In.
    + now apply ensureRecord_key.
  - intros Hpos. unfold divPool.
    rewrite flat_map_concat_map, concat_map, map_map, <- flat_map_concat_map.
    apply NoDup_flat_map_on; [apply zrange_NoDup| |].
    + intros dv Hdv. rewrite map_map. apply NoDup_map_on; [|apply zrange_NoDup].
      intros q q' _ _ E. cbv zeta in E.
      rewrite !ensureRecord_key in E by exact Hs.
      apply canonicalizeProblemKey_inj in E. simpl in E.
      apply zrange_In in Hdv. nia.
    + intros dv dv' k _ _ Hk Hk'. rewrite map_map in Hk, Hk'.
      apply in_map_iff in Hk, Hk'.
      destruct Hk as (q & <- & Hq), Hk' as (q' & E & Hq'). cbv zeta in E.
      rewrite !ensureRecord_key in E by exact Hs.
      apply canonicalizeProblemKey_inj in E. simpl in E. lia.
Qed.

Lemma mul_div_pool_witness :
  exists r : ProblemRecord,
    In r (mulPool [] (operationRanges DEFAULT_SETTINGS mul)) /\
    key r = canonicalizeProblemKey mul 6 7.
Proof.
  destruct (mul_div_pool_covers_once [] (operationRanges DEFAULT_SETTINGS mul))
    as (H & _).
  - intros k r E. discriminate E.
  - apply H; simpl; lia.
Defined.

(** ** Storage layer *)

Lemma lookup_assign_same (k : string) (r : ProblemRecord)
    (m : list (string * ProblemRecord)) :
  lookupRecord k (assign k r m) = Some r.
Proof.
  induction m as [|[k' r'] m IH]; simpl.
  - now rewrite String.eqb_refl.
  - destruct (String.eqb k k') eqn:E; simpl.
    + now rewrite String.eqb_refl.
    + now rewrite E.
Qed.

Lemma lookup_assign_other (k k' : string) (r : ProblemRecord)
    (m : list (string * ProblemRecord)) :
  k' <> k -> lookupRecord k' (assign k r m) = lookupRecord k' m.
Proof.
  intros N. induction m as [|[k0 r0] m IH]; simpl.
  - apply String.eqb_neq in N. now rewrite N.
  - destruct (String.eqb k k0) eqn:E; simpl.
    + apply String.eqb_eq in E. subst k0.
      apply String.eqb_neq in N. now rewrite N.
    + destruct (String.eqb k' k0); [reflexivity | exact IH].
Qed.

Lemma assign_keys (k : string) (r : ProblemRecord)
    (m : list (string * ProblemRecord)) (x : string) :
  In x (map fst (assign k r m)) <-> x = k \/ In x (map fst m).
Proof.
  induction m as [|[k' r'] m IH]; simpl.
  - intuition.
  - destruct (String.eqb k k') eqn:E; simpl.
    + apply String.eqb_eq in E. subst. intuition.
    + rewrite IH. intuition.
Qed.

Lemma assign_NoDup (k : string) (r : ProblemRecord)
    (m : list (string * ProblemRecord)) :
  NoDup (map fst m) -> NoDup (map fst (assign k r m)).
Proof.
  induction m as [|[k' r'] m IH]; simpl; intros H.
  - repeat constructor. intros [].
  - inversion H as [|? ? Hn Hm]; subst.
    destruct (String.eqb k k') eqn:E; simpl.
    + apply String.eqb_eq in E. subst. now constructor.
    + constructor; [|now apply IH].
      rewrite assign_keys. intros [->|Hin]; [|contradiction].
      now rewrite String.eqb_refl in E.
Qed.

(** X12. After [saveProblemRecord(key, record)], [getProblemRecord]
    returns that record for the key and what it returned before for
    every other key; settings and pool are untouched, the keys of the
    store stay distinct, and a store whose records sit under their own
    key and describe their problem stays so when the saved record
    does. *)
Theorem saveProblemRecord_roundtrip :
  forall (w : World) (k : string) (r : ProblemRecord),
    let w' := saveProblemRecord k r w in
    getProblemRecord w' k = Some r /\
    (forall k' : string, k' <> k -> getProblemRecord w' k' = getProblemRecord w k') /\
    settings w' = settings w /\ currentPool w' = currentPool w /\
    (NoDup (map fst (problemRecords w)) -> NoDup (map fst (problemRecords w'))) /\
    (storeOk (problemRecords w) -> key r = k -> problemOk r ->
     storeOk (problemRecords w')).
Proof.
  intros w k r w'. subst w'. unfold getProblemRecord, saveProblemRecord. simpl.
  split; [apply lookup_assign_same|].
  split; [intros k' N; now apply lookup_assign_other|].
  split; [reflexivity|]. split; [reflexivity|].
  split; [apply assign_NoDup|].
  intros Hs Hk Hp k' r' L.
  destruct (String.eqb_spec k' k) as [->|N].
  - rewrite lookup_assign_same in L. injection L as <-. auto.
  - rewrite lookup_assign_other in L by exact N. now apply Hs.
Qed.

Lemma saveProblemRecord_witness :
  storeOk (problemRecords (saveProblemRecord "add:12x30" freshRecord emptyPoolWorld)).
Proof.
  apply (saveProblemRecord_roundtrip emptyPoolWorld "add:12x30" freshRecord).
  - intros k r E. discriminate E.
  - reflexivity.
  - split; reflexivity.
Defined.

Lemma sliceLast_length {A : Type} (n : nat) (l : list A) :
  List.length (sliceLast n l) = Nat.min n (List.length l).
Proof. unfold sliceLast. rewrite length_skipn. lia. Qed.

(** X13. [logAttempt] keeps the log within [MAX_ATTEMPTS] entries
    whatever its length was: the result is the old log with the new
    attempt at the end, minus the oldest entries beyond the cap; below
    the cap nothing is dropped. *)
Theorem logAttempt_capped :
  forall (attempt : LoggedAttempt) (log : list LoggedAttempt),
    let log' := logAttempt attempt log in
    (List.length log' <= MAX_ATTEMPTS)%nat /\
    (exists dropped : list LoggedAttempt, dropped ++ log' = log ++ [attempt]) /\
    (exists kept : list LoggedAttempt, log' = kept ++ [attempt]) /\
    ((List.length log < MAX_ATTEMPTS)%nat -> log' = log ++ [attempt]).
Proof.
  intros attempt log log'. subst log'. unfold logAttempt. cbv zeta.
  destruct (Nat.ltb_spec MAX_ATTEMPTS (List.length (log ++ [attempt]))) as [L|L].
  - split; [rewrite sliceLast_length; lia|].
    split; [|split].
    + exists (firstn (List.length (log ++ [attempt]) - MAX_ATTEMPTS) (log ++ [attempt])).
      apply firstn_skipn.
    + unfold sliceLast. rewrite length_app in *. simpl List.length in *.
      rewrite skipn_app.
      replace (List.length log + 1 - MAX_ATTEMPTS - List.length log)%nat with O
        by (unfold MAX_ATTEMPTS in *; lia).
      simpl skipn. eauto.
    + rewrite length_app in L. simpl in L. lia.
  - split; [exact L|]. split; [exists []; reflexivity|].
    split; [eauto | reflexivity].
Qed.

Lemma logAttempt_witness :
  logAttempt (mkLogged "a_1" 1641600000000 (mkAttempt "mul:6x7" mul true 2500)) [] =
  [] ++ [mkLogged "a_1" 1641600000000 (mkAttempt "mul:6x7" mul true 2500)].
Proof.
  apply (logAttempt_capped
           (mkLogged "a_1" 1641600000000 (mkAttempt "mul:6x7" mul true 2500)) []).
  unfold MAX_ATTEMPTS. simpl. lia.
Defined.

(** ** Levels and experience points *)

Lemma getLevel_sqrt (xp : Z) : getLevel xp = Z.sqrt (xp / 50) + 1.
Proof.
  unfold getLevel, floorSqrt. f_equal. f_equal.
  symmetry. apply (Zdiv_Qdiv xp 50).
Qed.

(** X14. Levels, for a total of at least 0 points: the level is at
    least 1; the total lies between [xpForLevel(level - 1)] and
    [xpForLevel(level)], the upper bound excluded; [xpProgress] is in
    [0, 1); the level never falls when the total grows; and a total of
    exactly [xpForLevel(n)] is the first one of level [n + 1]. *)
Theorem level_brackets_total :
  forall xp : Z,
    0 <= xp ->
    1 <= getLevel xp /\
    xpForLevel (getLevel xp - 1) <= xp < xpForLevel (getLevel xp) /\
    (0 <= xpProgress xp)%Q /\ (xpProgress xp < 1)%Q /\
    (forall xp' : Z, xp <= xp' -> getLevel xp <= getLevel xp') /\
    (forall n : Z, 0 <= n -> getLevel (xpForLevel n) = n + 1).
Proof.
  intros xp Hxp.
  assert (Hd : 0 <= xp / 50) by (apply Z.div_pos; lia).
  pose proof (Z.sqrt_spec (xp / 50) Hd) as Hs. cbv zeta in Hs.
  pose proof (Z.sqrt_nonneg (xp / 50)) as Hn.
  assert (Hb : xpForLevel (getLevel xp - 1) <= xp < xpForLevel (getLevel xp)).
  { rewrite getLevel_sqrt. unfold xpForLevel.
    set (s := Z.sqrt (xp / 50)) in *.
    replace (s + 1 - 1) with s by lia.
    pose proof (Z.mul_div_le xp 50 ltac:(lia)).
    pose proof (Z.mul_succ_div_gt xp 50 ltac:(lia)).
    split; nia. }
  split; [rewrite getLevel_sqrt; lia|]. split; [exact Hb|].
  assert (Hr : 0 < getLevel xp * getLevel xp * 50
                   - (getLevel xp - 1) * (getLevel xp - 1) * 50).
  { rewrite getLevel_sqrt. nia. }
  unfold xpForLevel in Hb.
  split; [|split; [|split]].
  - unfold xpProgress. cbv zeta.
    destruct (Z.eqb_spec (getLevel xp * getLevel xp * 50
                          - (getLevel xp - 1) * (getLevel xp - 1) * 50) 0);
      [lra|].
    apply Qle_shift_div_l.
    + change 0%Q with (inject_Z 0). rewrite <- Zlt_Qlt. lia.
    + rewrite Qmult_0_l. change 0%Q with (inject_Z 0). rewrite <- Zle_Qle. lia.
  - unfold xpProgress. cbv zeta.
    destruct (Z.eqb_spec (getLevel xp * getLevel xp * 50
                          - (getLevel xp - 1) * (getLevel xp - 1) * 50) 0);
      [lra|].
    apply Qlt_shift_div_r.
    + change 0%Q with (inject_Z 0). rewrite <- Zlt_Qlt. lia.
    + rewrite Qmult_1_l. rewrite <- Zlt_Qlt. lia.
  - intros xp' H. rewrite !getLevel_sqrt.
    apply Z.add_le_mono_r, Z.sqrt_le_mono, Z.div_le_mono; lia.
  - intros n Hn0. rewrite getLevel_sqrt. unfold xpForLevel.
    rewrite Z.div_mul by lia. rewrite Z.sqrt_square by lia. reflexivity.
Qed.

Lemma level_brackets_witness :
  xpForLevel (getLevel 460 - 1) <= 460 < xpForLevel (getLevel 460).
Proof.
  apply (level_brackets_total 460). lia.
Defined.

(** X15. [calculateXP] gives nothing for a wrong answer.  A correct
    one earns the base 5, a streak bonus of twice the streak capped at
    20, and a speed bonus that follows the grade of [gradeResponse]:
    5 for grade 5, 3 for grade 4, and 1 or 0 for grade 3.  With a streak
    of at least 0 the amount is between 5 and 30. *)
Theorem calculateXP_by_grade :
  forall (ok : bool) (rt tl : Q) (currentStreak : Z),
    (ok = false -> calculateXP ok rt tl currentStreak = 0) /\
    (ok = true ->
     let grade := gradeResponse true rt tl false in
     let speed :=
       calculateXP ok rt tl currentStreak - 5 - Z.min 20 (currentStreak * 2) in
     (grade = 5 <-> speed = 5) /\
     (grade = 4 <-> speed = 3) /\
     (grade = 3 <-> speed = 1 \/ speed = 0) /\
     (0 <= currentStreak -> 5 <= calculateXP ok rt tl currentStreak <= 30)).
Proof.
  intros ok rt tl st. split; [intros ->; reflexivity|].
  intros ->. cbv zeta. unfold calculateXP, gradeResponse. simpl negb. cbv iota.
  unfold XP.BASE, XP.SPEED_THRESHOLDS, XP.STREAK_CAP, XP.STREAK_MULTIPLIER.
  simpl speedBonus.
  set (ratio := JS.quot rt tl).
  assert (M1 : JS.leb_const ratio 0.25 = true -> JS.leb_const ratio 0.50 = true).
  { rewrite !leb_const_le. intros H. apply (le_trans_const _ _ _ H). simpl. lra. }
  assert (M2 : JS.leb_const ratio 0.50 = true -> JS.leb_const ratio 0.75 = true).
  { rewrite !leb_const_le. intros H. apply (le_trans_const _ _ _ H). simpl. lra. }
  destruct (JS.leb_const ratio 0.25) eqn:E1;
    destruct (JS.leb_const ratio 0.50) eqn:E2;
    destruct (JS.leb_const ratio 0.75) eqn:E3;
    try (specialize (M1 eq_refl); discriminate);
    try (specialize (M2 eq_refl); discriminate);
    repeat split; intros; lia.
Qed.

Lemma calculateXP_witness :
  5 <= calculateXP true 1000 10000 4 <= 30.
Proof.
  destruct (calculateXP_by_grade true 1000 10000 4) as (_ & H).
  destruct (H eq_refl) as (_ & _ & _ & B). apply B. lia.
Defined.

(** ** Answering a problem *)

Lemma recordAttempt_identity (tz : TimeZone) (now : Z) (r : ProblemRecord)
    (ok tout : bool) (rt tl : Q) :
  let r' := after (recordAttempt tz now r ok rt tl tout) in
  key r' = key r /\ operation r' = operation r /\
  operandA r' = operandA r /\ operandB r' = operandB r /\
  correctAnswer r' = correctAnswer r /\
  totalAttempts r' = totalAttempts r + 1 /\
  totalCorrect r' = (if ok then totalCorrect r + 1 else totalCorrect r).
Proof.
  cbv zeta.
  destruct (recordAttempt_fields tz now r ok tout rt tl)
    as (i & reps & ease & next & ->).
  simpl. repeat split; reflexivity.
Qed.

Lemma recordAttempt_inv (tz : TimeZone) (now : Z) (r : ProblemRecord)
    (ok tout : bool) (rt tl : Q) :
  record_inv r -> record_inv (after (recordAttempt tz now r ok rt tl tout)).
Proof.
  intros (He & Hc & Hi). rewrite recordAttempt_after.
  apply updateSM2_inv. split; [|split]; simpl; try assumption.
  destruct ok; lia.
Qed.

Lemma recordAttempt_streaks (tz : TimeZone) (now : Z) (r : ProblemRecord)
    (ok tout : bool) (rt tl : Q) :
  0 <= streak r <= bestStreak r ->
  let r' := after (recordAttempt tz now r ok rt tl tout) in
  0 <= streak r' <= bestStreak r'.
Proof.
  intros H. cbv zeta.
  destruct (recordAttempt_fields tz now r ok tout rt tl)
    as (i & reps & ease & next & ->).
  simpl. destruct ok; simpl; try lia;
    destruct (Z.ltb_spec (bestStreak r) (streak r + 1)); lia.
Qed.

Lemma consistent_push_same (r r' : ProblemRecord) (atts : list Attempt)
    (a : Attempt) :
  key r' = key r -> problemKey a = key r ->
  totalAttempts r' = totalAttempts r + 1 ->
  totalCorrect r' = (if isCorrect a then totalCorrect r + 1 else totalCorrect r) ->
  consistent r atts -> consistent r' (atts ++ [a]).
Proof.
  intros Hk Ha Ht Hc [H1 H2]. unfold consistent, attemptsOn, sessionWrong in *.
  rewrite Hk, Ht, Hc, !filter_length_app, Ha, String.eqb_refl.
  destruct (isCorrect a); simpl; lia.
Qed.

Lemma consistent_counted (r r' : ProblemRecord) (atts : list Attempt) (ok : bool) :
  key r' = key r ->
  totalAttempts r' = totalAttempts r + 1 ->
  totalCorrect r' = (if ok then totalCorrect r + 1 else totalCorrect r) ->
  consistent r atts -> consistent r' atts.
Proof.
  intros Hk Ht Hc [H1 H2]. unfold consistent in *.
  rewrite Hk, Ht, Hc. destruct ok; lia.
Qed.

Lemma consistent_push_other (r : ProblemRecord) (atts : list Attempt)
    (a : Attempt) :
  problemKey a <> key r -> consistent r atts -> consistent r (atts ++ [a]).
Proof.
  intros N [H1 H2]. unfold consistent, attemptsOn, sessionWrong in *.
  rewrite !filter_length_app.
  apply String.eqb_neq in N. rewrite N. simpl. lia.
Qed.

Lemma consistent_new (k : string) (op : Operation) (a b answer : Z)
    (atts : list Attempt) :
  (forall x, In x atts -> problemKey x <> k) ->
  consistent (createProblemRecord k op a b answer) atts.
Proof.
  intros H.
  assert (E : attemptsOn k atts = []).
  { unfold attemptsOn. induction atts as [|x atts IH]; [reflexivity|]. simpl.
    destruct (String.eqb_spec (problemKey x) k) as [Ek|Nk].
    - exfalso. apply (H x); [now left | exact Ek].
    - apply IH. intros y Hy. apply H. now right. }
  unfold consistent. simpl key. rewrite E, (attemptsOn_nil_sessionWrong _ _ E).
  simpl. lia.
Qed.

Lemma calculateXP_nonneg (ok : bool) (rt tl : Q) (st : Z) :
  0 <= st -> 0 <= calculateXP ok rt tl st.
Proof.
  intros H. unfold calculateXP. destruct ok; simpl negb; cbv iota; [|lia].
  unfold XP.BASE, XP.SPEED_THRESHOLDS, XP.STREAK_CAP, XP.STREAK_MULTIPLIER.
  simpl speedBonus.
  repeat match goal with |- context [if ?b then _ else _] => destruct b end; lia.
Qed.

(** X16. [processAnswer] keeps the state of a session in order,
    whether it returns or the [RangeError] of [recordAttempt] ends it.
    When the stored records sit under their own key, describe their
    problem, satisfy the record invariant and count at least the
    attempts (and wrong attempts) that the session history holds for
    them, and the problem answered describes itself, then all of that
    holds again of the state that the call leaves; the session
    counters stay in step ([sessionTotalCorrect] is the number of
    correct attempts, [0 <= streak <= sessionStreakPeak <=
    sessionTotalCorrect]), the total XP never falls, and settings and
    pool are untouched.  The call throws exactly when [recordAttempt]
    does.  When it returns, the history has the new attempt at its
    end and the record of the problem, with one attempt more, is
    stored under the key of the problem.  When it throws, the history,
    the attempt log, the XP and the streak are as they were: a record
    that was in the store has counted the attempt all the same, a
    record that was not is dropped. *)
Theorem processAnswer_keeps_session_in_order :
  forall (tz : TimeZone) (now : Z) (st : AppState) (p : Problem) (ok tout : bool)
         (rt tl : Q),
    sessionInv st ->
    presentedOk p ->
    let stored := getProblemRecord (st_world st) (p_key p) in
    let rec :=
      match stored with
      | Some r => r
      | None =>
          createProblemRecord (p_key p) (p_operation p) (p_a p) (p_b p) (p_answer p)
      end in
    let st' := fst (processAnswer tz now st p ok rt tl tout) in
    let outcome := snd (processAnswer tz now st p ok rt tl tout) in
    sessionInv st' /\
    settings (st_world st') = settings (st_world st) /\
    currentPool (st_world st') = currentPool (st_world st) /\
    st_totalXp st <= st_totalXp st' /\
    (outcome = Throws <-> result (recordAttempt tz now rec ok rt tl tout) = Throws) /\
    (outcome <> Throws ->
       st_attempts st' =
         st_attempts st ++ [mkAttempt (p_key p) (p_operation p) ok rt] /\
       exists r' : ProblemRecord,
         getProblemRecord (st_world st') (p_key p) = Some r' /\
         operation r' = p_operation p /\
         totalAttempts r' = totalAttempts rec + 1) /\
    (outcome = Throws ->
       st_attempts st' = st_attempts st /\
       st_log st' = st_log st /\
       st_totalXp st' = st_totalXp st /\
       st_sessionXp st' = st_sessionXp st /\
       st_streak st' = st_streak st /\
       (stored = None -> st_world st' = st_world st) /\
       (stored <> None ->
        exists r' : ProblemRecord,
          getProblemRecord (st_world st') (p_key p) = Some r' /\
          totalAttempts r' = totalAttempts rec + 1)).
Proof.
  intros tz now st p ok tout rt tl (Hs & Hr & Ha & Hc & Hk & Hp & Hx) [Pk Pa].
  intros stored rec st' outcome.
  set (k := p_key p) in *.
  set (rec' := after (recordAttempt tz now rec ok rt tl tout)).
  set (att := mkAttempt k (p_operation p) ok rt).
  assert (Rk : key rec = k /\ problemOk rec /\ operation rec = p_operation p /\
               record_inv rec /\ consistent rec (st_attempts st) /\
               0 <= streak rec <= bestStreak rec).
  { subst rec stored. unfold getProblemRecord.
    destruct (lookupRecord k (problemRecords (st_world st))) as [r|] eqn:L.
    - destruct (Hs _ _ L) as [E1 E2]. destruct (Hr _ _ L) as (I1 & I2 & I3).
      repeat split; try assumption; try apply E2; try apply I1; try apply I2;
        try apply I3.
      destruct E2 as [E2 _]. rewrite E1 in E2. rewrite Pk in E2.
      symmetry in E2. apply canonicalizeProblemKey_inj in E2. apply E2.
    - split; [reflexivity|]. split; [split; [exact Pk | exact Pa]|].
      split; [reflexivity|]. split.
      + unfold record_inv. simpl. repeat split; try lia; vm_compute; discriminate.
      + split; [|simpl; lia]. apply consistent_new.
        intros x Hin E. apply (Ha x Hin). now rewrite E. }
  destruct Rk as (Rk & Rp & Ro & Ri & Rc & Rs).
  destruct (recordAttempt_identity tz now rec ok tout rt tl)
    as (Ik & Io & IA & IB & Ian & It & Itc). fold rec' in Ik, Io, IA, IB, Ian, It, Itc.
  assert (Ek : key rec' = k) by congruence.
  assert (Rok : problemOk rec').
  { destruct Rp as [Rp1 Rp2]. unfold problemOk. rewrite Ik, Io, IA, IB, Ian. auto. }
  assert (Rinv : record_inv rec') by (now apply recordAttempt_inv).
  assert (Rstr : 0 <= streak rec' <= bestStreak rec')
    by (now apply recordAttempt_streaks).
  (* the two ways the call ends *)
  assert (Cases :
    (result (recordAttempt tz now rec ok rt tl tout) = Throws /\
     outcome = Throws /\
     st' = mkApp (changedInPlace k stored rec' (st_world st))
                 (st_totalXp st) (st_bests st) (st_log st)
                 (st_streak st) (st_sessionXp st) (st_attempts st)
                 (st_totalCorrect st) (st_streakPeak st)) \/
    (result (recordAttempt tz now rec ok rt tl tout) <> Throws /\
     outcome <> Throws /\
     st_world st' =
       saveProblemRecord k rec' (changedInPlace k stored rec' (st_world st)) /\
     st_attempts st' = st_attempts st ++ [att] /\
     st_totalCorrect st' =
       (if ok then st_totalCorrect st + 1 else st_totalCorrect st) /\
     st_streak st' = (if ok then st_streak st + 1 else 0) /\
     st_streakPeak st' =
       (if ok && (st_streakPeak st <? (if ok then st_streak st + 1 else 0))
        then (if ok then st_streak st + 1 else 0) else st_streakPeak st) /\
     st_sessionXp st' =
       (if 0 <? calculateXP ok rt tl (st_streak st)
        then st_sessionXp st + calculateXP ok rt tl (st_streak st)
        else st_sessionXp st) /\
     st_totalXp st' =
       (if 0 <? calculateXP ok rt tl (st_streak st)
        then st_totalXp st + calculateXP ok rt tl (st_streak st)
        else st_totalXp st))).
  { subst st' outcome. unfold processAnswer. fold k. fold stored. fold rec.
    fold rec'. 
    destruct (result (recordAttempt tz now rec ok rt tl tout)) as [q|] eqn:R.
    - right. cbn [fst snd st_world st_attempts st_totalCorrect st_streak
                  st_streakPeak st_sessionXp st_totalXp].
      rewrite Ek. repeat split; try discriminate. 
    - left. cbn [fst snd]. auto. }
  assert (Lsame : forall w, lookupRecord k
                    (problemRecords (saveProblemRecord k rec' w)) = Some rec').
  { intros w. simpl. apply lookup_assign_same. }
  assert (Lin : forall k', k' <> k ->
            lookupRecord k' (problemRecords
                               (changedInPlace k stored rec' (st_world st))) =
            lookupRecord k' (problemRecords (st_world st))).
  { intros k' N. unfold changedInPlace. destruct stored; [|reflexivity].
    simpl. now apply lookup_assign_other. }
  destruct Cases as [(R & O & E)|(R & O & W & A & TC & SK & PK & SX & TX)].
  - (* the call throws *)
    assert (Wd : st_world st' = changedInPlace k stored rec' (st_world st))
      by (rewrite E; reflexivity).
    assert (Inv : sessionInv st').
    { rewrite E. unfold sessionInv.
      cbn [st_world st_attempts st_totalCorrect st_streak st_streakPeak st_sessionXp].
      unfold changedInPlace.
      destruct stored as [r0|] eqn:St;
        [|split; [exact Hs | split; [exact Hr | split; [exact Ha | split;
            [exact Hc | split; [exact Hk | split; [exact Hp | exact Hx]]]]]]].
      assert (R0 : rec = r0) by reflexivity.
      cbn [problemRecords].
      split; [|split; [|split; [|split; [|split; [|split]]]]]; try assumption.
      + intros k' r' L. destruct (String.eqb_spec k' k) as [->|N].
        * rewrite lookup_assign_same in L. injection L as <-. auto.
        * rewrite lookup_assign_other in L by exact N. now apply Hs.
      + intros k' r' L. destruct (String.eqb_spec k' k) as [->|N].
        * rewrite lookup_assign_same in L. injection L as <-.
          split; [exact Rinv|]. split; [|exact Rstr].
          apply (consistent_counted rec rec' _ ok); auto; congruence.
        * rewrite lookup_assign_other in L by exact N. exact (Hr _ _ L).
      + intros a Hin. destruct (String.eqb_spec (problemKey a) k) as [Ea|N].
        * rewrite Ea, lookup_assign_same. discriminate.
        * rewrite lookup_assign_other by exact N. now apply Ha. }
    split; [exact Inv|].
    split; [rewrite Wd; unfold changedInPlace; destruct stored; reflexivity|].
    split; [rewrite Wd; unfold changedInPlace; destruct stored; reflexivity|].
    split; [rewrite E; simpl; lia|].
    split; [tauto|].
    split; [intros N; contradiction|].
    intros _. rewrite E. cbn [st_attempts st_log st_totalXp st_sessionXp st_streak st_world].
    repeat split; try reflexivity.
    + intros ->. reflexivity.
    + intros N. exists rec'. split; [|exact It].
      unfold getProblemRecord, changedInPlace.
      destruct stored; [|congruence]. simpl. apply lookup_assign_same.
  - (* the call returns *)
    assert (L1 : lookupRecord k (problemRecords (st_world st')) = Some rec').
    { rewrite W. apply Lsame. }
    assert (L2 : forall k', k' <> k ->
                 lookupRecord k' (problemRecords (st_world st')) =
                 lookupRecord k' (problemRecords (st_world st))).
    { intros k' N. rewrite W. simpl. rewrite lookup_assign_other by exact N.
      now apply Lin. }
    split; [|split; [|split; [|split; [|split; [|split]]]]].
    + unfold sessionInv. rewrite A.
      split; [|split; [|split; [|split; [|split; [|split]]]]].
      * intros k' r' L. destruct (String.eqb_spec k' k) as [->|N].
        -- rewrite L1 in L. injection L as <-. auto.
        -- rewrite L2 in L by exact N. now apply Hs.
      * intros k' r' L. destruct (String.eqb_spec k' k) as [->|N].
        -- rewrite L1 in L. injection L as <-. split; [exact Rinv|].
           split; [|exact Rstr].
           apply (consistent_push_same rec rec'); auto.
        -- rewrite L2 in L by exact N. destruct (Hr _ _ L) as (I1 & I2 & I3).
           split; [exact I1|]. split; [|exact I3].
           apply consistent_push_other; [|exact I2].
           simpl. destruct (Hs _ _ L) as [-> _]. congruence.
      * intros a Hin. apply in_app_or in Hin. destruct Hin as [Hin|[<-|[]]].
        -- destruct (String.eqb_spec (problemKey a) k) as [Ea|N].
           ++ rewrite Ea, L1. discriminate.
           ++ rewrite L2 by exact N. now apply Ha.
        -- change (problemKey att) with k. rewrite L1. discriminate.
      * rewrite TC, filter_length_app. simpl isCorrect. rewrite Hc.
        destruct ok; lia.
      * rewrite SK, PK. destruct ok; simpl; [|lia].
        destruct (Z.ltb_spec (st_streakPeak st) (st_streak st + 1)); lia.
      * rewrite PK, TC. destruct ok; simpl; [|lia].
        destruct (Z.ltb_spec (st_streakPeak st) (st_streak st + 1)); lia.
      * rewrite SX.
        destruct (Z.ltb_spec 0 (calculateXP ok rt tl (st_streak st))); lia.
    + rewrite W. unfold changedInPlace. destruct stored; reflexivity.
    + rewrite W. unfold changedInPlace. destruct stored; reflexivity.
    + rewrite TX.
      destruct (Z.ltb_spec 0 (calculateXP ok rt tl (st_streak st))); lia.
    + tauto.
    + intros _. split; [exact A|].
      exists rec'. unfold getProblemRecord. split; [exact L1|].
      split; [congruence | exact It].
    + intros O'. contradiction.
Qed.

Lemma processAnswer_witness :
  sessionInv (fst (processAnswer UTC 1641600000000 startState
                     (mkProblem mul 6 7 42 "mul:6x7") true 2500 10000 false)).
Proof.
  apply (processAnswer_keeps_session_in_order UTC 1641600000000 startState
           (mkProblem mul 6 7 42 "mul:6x7") true false 2500 10000).
  - unfold sessionInv, startState. simpl.
    split; [intros k r E; discriminate E|].
    split; [intros k r E; discriminate E|].
    split; [intros a []|]. lia.
  - split; reflexivity.
Defined.

(** A new problem answered correctly and fast eighteen times in a
    row: the interval, tripled by each of the last passes, is
    34,012,224 days after the seventeenth answer and 102,036,672 after
    the eighteenth, whose review date is beyond the range of [Date].
    The seventeenth call returns; the eighteenth throws, the record
    counts eighteen attempts and the history holds seventeen. *)
Example processAnswer_eighteenth_pass :
  let p := mkProblem mul 6 7 42 "mul:6x7" in
  let st17 := answerTimes 17 UTC 1641600000000 startState p true 1000 10000 false in
  let call18 := processAnswer UTC 1641600000000 st17 p true 1000 10000 false in
  snd (processAnswer UTC 1641600000000
         (answerTimes 16 UTC 1641600000000 startState p true 1000 10000 false)
         p true 1000 10000 false) = Returns false /\
  option_map interval (getProblemRecord (st_world st17) "mul:6x7") = Some 34012224 /\
  snd call18 = Throws /\
  option_map interval (getProblemRecord (st_world (fst call18)) "mul:6x7") =
    Some 102036672 /\
  option_map totalAttempts (getProblemRecord (st_world (fst call18)) "mul:6x7") =
    Some 18 /\
  List.length (st_attempts (fst call18)) = 17%nat.
Proof.
  cbv zeta. repeat split; vm_compute; reflexivity.
Qed.

(** ** Merge of cloud data *)

Lemma lookup_not_key (k : string) (m : list (string * ProblemRecord)) :
  ~ In k (map fst m) -> lookupRecord k m = None.
Proof.
  induction m as [|[k' r'] m IH]; simpl; intros H; [reflexivity|].
  destruct (String.eqb_spec k k') as [->|N]; [exfalso; auto|].
  apply IH. tauto.
Qed.

Lemma mergeRecord_same (local : list (string * ProblemRecord)) (k : string)
    (c : ProblemRecord) :
  lookupRecord k (mergeRecord local (k, c)) =
  match lookupRecord k local with
  | None => Some c
  | Some l => if totalAttempts l <? totalAttempts c then Some c else Some l
  end.
Proof.
  unfold mergeRecord. destruct (lookupRecord k local) as [l|] eqn:L.
  - destruct (totalAttempts l <? totalAttempts c);
      [apply lookup_assign_same | exact L].
  - apply lookup_assign_same.
Qed.

Lemma mergeRecord_other (local : list (string * ProblemRecord)) (k k' : string)
    (c : ProblemRecord) :
  k' <> k -> lookupRecord k' (mergeRecord local (k, c)) = lookupRecord k' local.
Proof.
  intros N. unfold mergeRecord. destruct (lookupRecord k local) as [l|].
  - destruct (totalAttempts l <? totalAttempts c);
      [now apply lookup_assign_other | reflexivity].
  - now apply lookup_assign_other.
Qed.

Lemma mergeRecords_lookup (cloud local : list (string * ProblemRecord))
    (k : string) :
  NoDup (map fst cloud) ->
  lookupRecord k (mergeRecords local cloud) =
  match lookupRecord k local, lookupRecord k cloud with
  | None, c => c
  | Some l, None => Some l
  | Some l, Some c =>
      if totalAttempts l <? totalAttempts c then Some c else Some l
  end.
Proof.
  unfold mergeRecords. revert local.
  induction cloud as [|[k0 c0] cloud IH]; intros local Hnd.
  - simpl. destruct (lookupRecord k local); reflexivity.
  - inversion Hnd as [|? ? Hn Hnd']; subst.
    cbn [fold_left lookupRecord]. rewrite (IH _ Hnd').
    destruct (String.eqb_spec k k0) as [->|N].
    + rewrite (lookup_not_key k0 cloud Hn), mergeRecord_same.
      destruct (lookupRecord k0 local) as [l|]; [|reflexivity].
      destruct (totalAttempts l <? totalAttempts c0); reflexivity.
    + rewrite mergeRecord_other by exact N. reflexivity.
Qed.

Lemma mergeRecord_grows (m : list (string * ProblemRecord))
    (e : string * ProblemRecord) (k : string) (r : ProblemRecord) :
  lookupRecord k m = Some r ->
  exists r', lookupRecord k (mergeRecord m e) = Some r' /\
             totalAttempts r <= totalAttempts r'.
Proof.
  intros L. destruct e as [k0 c0].
  destruct (String.eqb_spec k k0) as [->|N].
  - rewrite mergeRecord_same, L.
    destruct (Z.ltb_spec (totalAttempts r) (totalAttempts c0)); eexists;
      split; try reflexivity; lia.
  - rewrite mergeRecord_other by exact N. exists r. split; [exact L | lia].
Qed.

Lemma mergeRecords_grows (cloud m : list (string * ProblemRecord)) (k : string)
    (r : ProblemRecord) :
  lookupRecord k m = Some r ->
  exists r', lookupRecord k (mergeRecords m cloud) = Some r' /\
             totalAttempts r <= totalAttempts r'.
Proof.
  unfold mergeRecords. revert m r.
  induction cloud as [|e cloud IH]; intros m r L; cbn [fold_left].
  - exists r. split; [exact L | lia].
  - destruct (mergeRecord_grows m e k r L) as (r1 & L1 & H1).
    destruct (IH _ _ L1) as (r2 & L2 & H2). exists r2. split; [exact L2 | lia].
Qed.

Lemma mergeRecords_dominates (cloud m : list (string * ProblemRecord)) :
  dominates (mergeRecords m cloud) cloud.
Proof.
  revert m. induction cloud as [|[k0 c0] cloud IH]; intros m k c Hin;
    [contradiction|].
  unfold mergeRecords. cbn [fold_left]. fold (mergeRecords (mergeRecord m (k0, c0)) cloud).
  destruct Hin as [E|Hin]; [|now apply IH].
  injection E as -> ->.
  assert (L : exists r, lookupRecord k (mergeRecord m (k, c)) = Some r /\
                        totalAttempts c <= totalAttempts r).
  { rewrite mergeRecord_same. destruct (lookupRecord k m) as [l|].
    - destruct (Z.ltb_spec (totalAttempts l) (totalAttempts c)); eexists;
        split; try reflexivity; lia.
    - eexists. split; [reflexivity | lia]. }
  destruct L as (r & L & H).
  destruct (mergeRecords_grows cloud _ k r L) as (r' & L' & H').
  exists r'. split; [exact L' | lia].
Qed.

Lemma mergeRecords_fixed (cloud m : list (string * ProblemRecord)) :
  dominates m cloud -> mergeRecords m cloud = m.
Proof.
  unfold mergeRecords. revert m.
  induction cloud as [|[k0 c0] cloud IH]; intros m D; cbn [fold_left];
    [reflexivity|].
  destruct (D k0 c0 (or_introl eq_refl)) as (r & L & H).
  unfold mergeRecord at 2. rewrite L.
  replace (totalAttempts r <? totalAttempts c0) with false
    by (symmetry; apply Z.ltb_ge; exact H).
  apply IH. intros k c Hin. apply D. now right.
Qed.

(** X17. Merge of the problem records, "more attempts wins": for
    every key the merged record is the local one unless the cloud has a
    record of that key and the local store has none or one with fewer
    attempts (cloud keys being distinct).  No local key is lost and no
    attempt count falls.  Merging the same cloud records once more
    changes nothing. *)
Theorem mergeRecords_more_attempts_wins :
  forall local cloud : list (string * ProblemRecord),
    (NoDup (map fst cloud) ->
     forall k : string,
       lookupRecord k (mergeRecords local cloud) =
       match lookupRecord k local, lookupRecord k cloud with
       | None, c => c
       | Some l, None => Some l
       | Some l, Some c =>
           if totalAttempts l <? totalAttempts c then Some c else Some l
       end) /\
    (forall (k : string) (l : ProblemRecord),
       lookupRecord k local = Some l ->
       exists r : ProblemRecord,
         lookupRecord k (mergeRecords local cloud) = Some r /\
         totalAttempts l <= totalAttempts r) /\
    mergeRecords (mergeRecords local cloud) cloud = mergeRecords local cloud.
Proof.
  intros local cloud. split; [|split].
  - intros Hnd k. now apply mergeRecords_lookup.
  - intros k l L. now apply mergeRecords_grows.
  - apply mergeRecords_fixed, mergeRecords_dominates.
Qed.

Lemma mergeRecords_witness :
  lookupRecord "mul:6x7"
    (mergeRecords [("mul:6x7", struggling "mul:6x7" 6 7)]%string
                  [("mul:6x7", masteredRecord)]%string) =
  Some masteredRecord.
Proof.
  destruct (mergeRecords_more_attempts_wins
              [("mul:6x7", struggling "mul:6x7" 6 7)]%string
              [("mul:6x7", masteredRecord)]%string) as (H & _).
  rewrite H; [reflexivity|].
  simpl. constructor; [intros [] | constructor].
Defined.

Lemma StronglySorted_skipn {A : Type} (R : A -> A -> Prop) (n : nat) (l : list A) :
  StronglySorted R l -> StronglySorted R (skipn n l).
Proof.
  revert n. induction l as [|x l IH]; intros [|n] H; simpl; auto.
  inversion H; subst. now apply IH.
Qed.

Lemma In_skipn {A : Type} (n : nat) (l : list A) (x : A) :
  In x (skipn n l) -> In x l.
Proof.
  intros H. rewrite <- (firstn_skipn n l). apply in_or_app. now right.
Qed.

Lemma mergeById_facts {A : Type} (idOf : A -> string) (timeOf : A -> Z)
    (cap : nat) (local cloud : list A) :
  let merged := mergeById idOf timeOf cap local cloud in
  (List.length merged <= cap)%nat /\
  StronglySorted (fun a b => timeOf a <= timeOf b) merged /\
  (forall x, In x merged ->
     In x local \/
     (In x cloud /\ idOf x <> ""%string /\ ~ In (idOf x) (map idOf local))) /\
  ((List.length (local ++ newById idOf local cloud) <= cap)%nat ->
   Permutation merged (local ++ newById idOf local cloud)).
Proof.
  cbv zeta. unfold mergeById.
  set (all := local ++ newById idOf local cloud).
  set (cmp := fun a b : A => inject_Z (timeOf a - timeOf b)).
  assert (Hs : StronglySorted (fun a b => timeOf a <= timeOf b) (sortBy cmp all)).
  { eapply StronglySorted_weaken; [|apply (sortBy_sorted cmp)].
    - intros a b. unfold before, cmp. change 0%Q with (inject_Z 0).
      rewrite <- Zle_Qle. lia.
    - intros x y. unfold before, cmp. change 0%Q with (inject_Z 0).
      rewrite <- !Zle_Qle. lia.
    - intros x y z. unfold before, cmp. change 0%Q with (inject_Z 0).
      rewrite <- !Zle_Qle. lia. }
  assert (Hin : forall x, In x all ->
            In x local \/
            (In x cloud /\ idOf x <> ""%string /\ ~ In (idOf x) (map idOf local))).
  { intros x Hx. apply in_app_or in Hx. destruct Hx as [Hx|Hx]; [now left|].
    right. unfold newById in Hx. apply filter_In in Hx. destruct Hx as [Hc Hb].
    apply andb_true_iff in Hb. destruct Hb as [B1 B2].
    apply negb_true_iff in B1, B2. split; [exact Hc|]. split.
    - now apply String.eqb_neq.
    - intros Hi. assert (E : existsb (String.eqb (idOf x)) (map idOf local) = true).
      { apply existsb_exists. exists (idOf x). split; [exact Hi|].
        apply String.eqb_refl. }
      congruence. }
  destruct (Nat.ltb_spec cap (List.length (sortBy cmp all))) as [L|L].
  - split; [rewrite sliceLast_length; lia|].
    split; [now apply StronglySorted_skipn|].
    split.
    + intros x Hx. apply Hin. apply In_skipn in Hx. now apply sortBy_In in Hx.
    + intros Hc. rewrite sortBy_length in L. lia.
  - split; [exact L|]. split; [exact Hs|]. split.
    + intros x Hx. apply Hin. now apply sortBy_In in Hx.
    + intros _. apply Permutation_sym, sortBy_perm.
Qed.

(** X18. [mergeCloudIntoLocal] without cloud data returns the local
    data.  With cloud data the total XP is the larger of the two
    totals when the cloud has a profile (so it never falls); the
    sessions are at most 100 and the attempt log at most 5000 entries,
    both in order of time; every entry kept is a local one or a cloud
    one whose id is not empty and not a local id; and no entry is
    dropped while the caps are not exceeded. *)
Theorem mergeCloudIntoLocal_merges :
  forall (localData : LocalData),
    mergeCloudIntoLocal localData None = localData /\
    forall cloud : CloudData,
      let merged := mergeCloudIntoLocal localData (Some cloud) in
      ld_totalXp localData <= ld_totalXp merged /\
      (forall cp : CloudProfile,
         cd_profile cloud = Some cp ->
         ld_totalXp merged = Z.max (ld_totalXp localData) (cp_totalXp cp)) /\
      ld_records merged = mergeRecords (ld_records localData) (cd_records cloud) /\
      (List.length (ld_sessions merged) <= 100)%nat /\
      (List.length (ld_log merged) <= 5000)%nat /\
      StronglySorted (fun a b => s_startTime a <= s_startTime b) (ld_sessions merged) /\
      StronglySorted (fun a b => la_timestamp a <= la_timestamp b) (ld_log merged) /\
      (forall s : Session,
         In s (ld_sessions merged) ->
         In s (ld_sessions localData) \/
         (In s (cd_sessions cloud) /\ s_id s <> ""%string /\
          ~ In (s_id s) (map s_id (ld_sessions localData)))) /\
      ((List.length (ld_sessions localData ++
                     newById s_id (ld_sessions localData) (cd_sessions cloud))
        <= 100)%nat ->
       Permutation (ld_sessions merged)
         (ld_sessions localData ++
          newById s_id (ld_sessions localData) (cd_sessions cloud))).
Proof.
  intros localData. split; [reflexivity|]. intros cloud merged.
  pose proof (mergeById_facts s_id s_startTime 100 (ld_sessions localData)
                (cd_sessions cloud)) as (S1 & S2 & S3 & S4).
  pose proof (mergeById_facts la_id la_timestamp 5000 (ld_log localData)
                (cd_attempts cloud)) as (A1 & A2 & _ & _).
  subst merged. unfold mergeCloudIntoLocal.
  destruct (cd_profile cloud) as [cp|]; simpl;
    (split; [lia|]); (split; [intros cp' E; try discriminate;
                              injection E as <-; reflexivity|]);
    repeat split; assumption.
Qed.

Lemma mergeCloudIntoLocal_witness :
  Permutation
    (ld_sessions
       (mergeCloudIntoLocal
          (mkLocal 120 DEFAULT_SETTINGS (mkBests 0 None 0 0) []
                   [mkSession "s_2" 2000 10 0.9 4] [])
          (Some (mkCloud None [] [mkSession "s_1" 1000 12 0.5 3;
                                   mkSession "s_2" 2000 10 0.9 4] []))))
    ([mkSession "s_2" 2000 10 0.9 4] ++
     newById s_id [mkSession "s_2" 2000 10 0.9 4]
       [mkSession "s_1" 1000 12 0.5 3; mkSession "s_2" 2000 10 0.9 4]).
Proof.
  destruct (mergeCloudIntoLocal_merges
              (mkLocal 120 DEFAULT_SETTINGS (mkBests 0 None 0 0) []
                       [mkSession "s_2" 2000 10 0.9 4] [])) as (_ & H).
  apply (H (mkCloud None [] [mkSession "s_1" 1000 12 0.5 3;
                             mkSession "s_2" 2000 10 0.9 4] [])).
  simpl. lia.
Defined.

(** X19. [saveSession] appends the session and keeps the latest
    [MAX_SESSIONS]; each personal best becomes the larger of its old
    value and the value of the session; total XP, settings, records
    and the attempt log are untouched. *)
Theorem saveSession_caps_and_bests :
  forall (session : Session) (data : LocalData),
    let data' := saveSession session data in
    (List.length (ld_sessions data') <= MAX_SESSIONS)%nat /\
    (exists kept : list Session, ld_sessions data' = kept ++ [session]) /\
    (exists dropped : list Session,
       dropped ++ ld_sessions data' = ld_sessions data ++ [session]) /\
    longestStreak (ld_bests data') =
      Z.max (longestStreak (ld_bests data)) (s_streakPeak session) /\
    mostProblemsInSession (ld_bests data') =
      Z.max (mostProblemsInSession (ld_bests data)) (s_totalProblems session) /\
    (highestSessionAccuracy (ld_bests data') ==
       Qmax (highestSessionAccuracy (ld_bests data)) (s_accuracy session))%Q /\
    fastestCorrect (ld_bests data') = fastestCorrect (ld_bests data) /\
    ld_totalXp data' = ld_totalXp data /\
    ld_records data' = ld_records data /\
    ld_log data' = ld_log data.
Proof.
  intros session data data'. subst data'. unfold saveSession. cbv zeta.
  simpl ld_sessions. simpl ld_bests. simpl ld_totalXp. simpl ld_records.
  simpl ld_log. simpl longestStreak. simpl mostProblemsInSession.
  simpl highestSessionAccuracy. simpl fastestCorrect.
  split; [|split; [|split]].
  - destruct (Nat.ltb_spec MAX_SESSIONS (List.length (ld_sessions data ++ [session])));
      [rewrite sliceLast_length; lia | assumption].
  - destruct (Nat.ltb_spec MAX_SESSIONS (List.length (ld_sessions data ++ [session])))
      as [L|L]; [|eauto].
    unfold sliceLast. rewrite length_app in *. simpl List.length in *.
    rewrite skipn_app.
    replace (List.length (ld_sessions data) + 1 - MAX_SESSIONS
             - List.length (ld_sessions data))%nat with O
      by (unfold MAX_SESSIONS in *; lia).
    simpl skipn. eauto.
  - destruct (Nat.ltb_spec MAX_SESSIONS (List.length (ld_sessions data ++ [session])));
      [|exists []; reflexivity].
    eexists. apply firstn_skipn.
  - repeat split.
    + destruct (Z.ltb_spec (longestStreak (ld_bests data)) (s_streakPeak session)); lia.
    + destruct (Z.ltb_spec (mostProblemsInSession (ld_bests data))
                           (s_totalProblems session)); lia.
    + destruct (Qltb _ _) eqn:E.
      * apply Qltb_lt in E. rewrite Q.max_r; [reflexivity | lra].
      * rewrite Q.max_l; [reflexivity|].
        destruct (Qlt_le_dec (highestSessionAccuracy (ld_bests data))
                             (s_accuracy session)) as [H|H]; [|exact H].
        apply Qltb_lt in H. congruence.
Qed.

(** ** Statistics *)

(** X20. [getSessionHistory(limit)] with a positive limit returns the
    [limit] latest sessions (all of them when there are fewer), the
    latest first.  With a limit of 0 it returns every session, since
    [slice(-0)] is [slice(0)]. *)
Theorem getSessionHistory_latest_first :
  forall (limit : Z) (sessions : list Session),
    (0 < limit ->
     getSessionHistory limit sessions = firstn (Z.to_nat limit) (rev sessions) /\
     List.length (getSessionHistory limit sessions) =
       Nat.min (Z.to_nat limit) (List.length sessions)) /\
    (limit = 0 -> getSessionHistory limit sessions = rev sessions).
Proof.
  intros limit sessions. unfold getSessionHistory, sliceFrom. cbv zeta. split.
  - intros H.
    replace (- limit <? 0) with true by (symmetry; apply Z.ltb_lt; lia).
    set (n := List.length sessions).
    assert (E : Z.to_nat (Z.max (Z.of_nat n + - limit) 0) = (n - Z.to_nat limit)%nat)
      by lia.
    rewrite E. split.
    + rewrite <- (rev_involutive (skipn _ _)), <- (rev_involutive sessions) at 1.
      rewrite skipn_rev, rev_involutive, length_rev. fold n.
      replace (n - (n - Z.to_nat limit))%nat with (Nat.min (Z.to_nat limit) n) by lia.
      rewrite rev_involutive.
      destruct (Nat.le_ge_cases (Z.to_nat limit) n) as [L|L].
      * now rewrite Nat.min_l by exact L.
      * rewrite Nat.min_r by exact L.
        rewrite !firstn_all2; [reflexivity| |]; rewrite length_rev; fold n; lia.
    + rewrite length_rev, length_skipn. fold n. lia.
  - intros ->. change (- 0 <? 0) with false. cbv iota.
    replace (Z.to_nat (Z.min (- 0) (Z.of_nat (List.length sessions)))) with O by lia.
    reflexivity.
Qed.

Lemma getSessionHistory_witness :
  getSessionHistory 1 [mkSession "s_1" 1000 12 0.5 3; mkSession "s_2" 2000 10 0.9 4] =
  firstn (Z.to_nat 1)
    (rev [mkSession "s_1" 1000 12 0.5 3; mkSession "s_2" 2000 10 0.9 4]).
Proof.
  apply (getSessionHistory_latest_first 1
           [mkSession "s_1" 1000 12 0.5 3; mkSession "s_2" 2000 10 0.9 4]).
  lia.
Defined.

Lemma fold_sum_bounds (f g : ProblemRecord -> Z) (l : list ProblemRecord) (a b : Z) :
  Forall (fun r => 0 <= f r <= g r) l -> 0 <= a <= b ->
  0 <= fold_left (fun s r => s + f r) l a <= fold_left (fun s r => s + g r) l b.
Proof.
  revert a b. induction l as [|r l IH]; intros a b H Hab; simpl; [exact Hab|].
  inversion H; subst. apply IH; [assumption | lia].
Qed.

(** X21. [getOperationStats] returns null exactly when no stored
    record has the operation.  When every such record has
    [0 <= totalCorrect <= totalAttempts], the totals satisfy the same
    and the accuracy is between 0 and 1.  The trend is other than
    stable only if the log holds attempts of the operation both in the
    last seven days and in the seven days before. *)
Theorem getOperationStats_summary :
  forall (now : Z) (allRecords : list (string * ProblemRecord))
         (log : list LoggedAttempt) (op : Operation),
    (getOperationStats now allRecords log op = None <->
     forall r, In r (recordValues allRecords) -> operation r <> op) /\
    (forall st : OperationStats,
       getOperationStats now allRecords log op = Some st ->
       (Forall (fun r => operation r = op -> 0 <= totalCorrect r <= totalAttempts r)
               (recordValues allRecords) ->
        0 <= os_totalCorrect st <= os_totalAttempts st /\
        (0 <= os_accuracy st)%Q /\ (os_accuracy st <= 1)%Q) /\
       (os_trend st <> stable ->
        (exists a, In a log /\ att_operation (la_attempt a) = op /\
                   now - la_timestamp a < weekMs) /\
        (exists a, In a log /\ att_operation (la_attempt a) = op /\
                   weekMs <= now - la_timestamp a < 2 * weekMs))).
Proof.
  intros now allRecords log op. unfold getOperationStats. cbv zeta.
  set (records := filter (fun r => Operation_eqb (operation r) op)
                         (recordValues allRecords)).
  remember (filter (fun a =>
              Operation_eqb (att_operation (la_attempt a)) op &&
              (now - la_timestamp a <? weekMs)) log) as recent eqn:Er.
  remember (filter (fun a =>
              Operation_eqb (att_operation (la_attempt a)) op &&
              (weekMs <=? now - la_timestamp a) &&
              (now - la_timestamp a <? 2 * weekMs)) log) as prev eqn:Ep.
  split.
  - destruct records as [|r0 rs] eqn:E; simpl.
    + split; [|reflexivity]. intros _ r Hin Hop.
      assert (In r records).
      { unfold records. apply filter_In. split; [exact Hin|].
        now apply Operation_eqb_eq. }
      rewrite E in H. contradiction.
    + split; [discriminate|]. intros H. exfalso.
      assert (Hin : In r0 records) by (rewrite E; now left).
      unfold records in Hin. apply filter_In in Hin. destruct Hin as [Hin Hop].
      apply Operation_eqb_eq in Hop. exact (H r0 Hin Hop).
  - intros st. destruct (List.length records =? 0)%nat; [discriminate|].
    intros [= <-]. cbn [os_totalCorrect os_totalAttempts os_accuracy os_trend].
    split.
    + intros Hall.
      assert (F : Forall (fun r => 0 <= totalCorrect r <= totalAttempts r) records).
      { apply Forall_forall. intros r Hr. unfold records in Hr.
        apply filter_In in Hr. destruct Hr as [Hin Hop].
        apply Operation_eqb_eq in Hop.
        exact (proj1 (Forall_forall _ _) Hall r Hin Hop). }
      pose proof (fold_sum_bounds totalCorrect totalAttempts records 0 0 F
                    ltac:(lia)) as B.
      set (ta := fold_left (fun s r => s + totalAttempts r) records 0) in *.
      set (tc := fold_left (fun s r => s + totalCorrect r) records 0) in *.
      split; [exact B|].
      destruct (Z.ltb_spec 0 ta) as [P|P]; [|lra].
      assert (Pq : (0 < inject_Z ta)%Q).
      { change 0%Q with (inject_Z 0). rewrite <- Zlt_Qlt. exact P. }
      split.
      * apply Qle_shift_div_l; [exact Pq|]. rewrite Qmult_0_l.
        change 0%Q with (inject_Z 0). rewrite <- Zle_Qle. lia.
      * apply Qle_shift_div_r; [exact Pq|]. rewrite Qmult_1_l.
        rewrite <- Zle_Qle. lia.
    + intros Ht.
      assert (N : recent <> [] /\ prev <> []).
      { unfold windowAccuracy in Ht.
        destruct recent; [simpl in Ht; congruence|].
        destruct prev; [simpl in Ht; congruence|]. split; discriminate. }
      destruct N as [N1 N2]. split.
      * destruct recent as [|a l]; [congruence|].
        assert (Hin : In a (a :: l)) by now left.
        rewrite Er in Hin. apply filter_In in Hin. destruct Hin as [Hin Hb].
        apply andb_true_iff in Hb. destruct Hb as [B1 B2].
        exists a. split; [exact Hin|]. split; [now apply Operation_eqb_eq|].
        now apply Z.ltb_lt.
      * destruct prev as [|a l]; [congruence|].
        assert (Hin : In a (a :: l)) by now left.
        rewrite Ep in Hin. apply filter_In in Hin. destruct Hin as [Hin Hb].
        apply andb_true_iff in Hb. destruct Hb as [Hb B3].
        apply andb_true_iff in Hb. destruct Hb as [B1 B2].
        exists a. split; [exact Hin|]. split; [now apply Operation_eqb_eq|].
        split; [now apply Z.leb_le | now apply Z.ltb_lt].
Qed.

(** ** The next problem *)

Lemma selectionTop_candidates (now : Z) (w : World) (atts : list Attempt)
    (phase : Phase) (s : Scored) :
  In s (selectionTop now w atts phase) -> In (record s) (candidatesOf w).
Proof.
  intros Hin. unfold selectionTop in Hin. apply In_firstn in Hin.
  apply sortBy_In in Hin.
  apply (in_map record) in Hin. rewrite balanceOperations_records in Hin.
  apply in_map_iff in Hin. destruct Hin as (s' & <- & Hin).
  destruct (applyInterleaving_records _ _ _ Hin) as (s0 & H0 & <-).
  unfold scoreAll in H0. apply in_map_iff in H0.
  destruct H0 as (r & <- & Hr). simpl. eapply phaseFilter_incl; eauto.
Qed.

(** A problem that [selectNextProblem] returns is the problem of a
    candidate or a generated one. *)
Lemma selectNextProblem_result (fuel : nat) (now : Z) (w : World)
    (atts : list Attempt) (phase : Phase) (random : nat -> Q) (i : nat)
    (p : Problem) (j : nat) :
  selectNextProblem fuel now w atts phase random i = Some (Some p, j) ->
  (exists r, In r (candidatesOf w) /\ p = toProblem r) \/
  (exists op, wellFormed op p).
Proof.
  unfold selectNextProblem.
  destruct (List.length (enabledOps (settings w)) =? 0)%nat;
    [unfold ret; discriminate|].
  destruct (List.length (candidatesOf w) =? 0)%nat.
  - unfold bind, Math_random, ret, fail. intros H. right.
    destruct (JS.floor _); try discriminate;
      destruct (nth_error _ _) as [op|]; try discriminate;
      destruct (generateRandomProblem fuel (settings w) op random (S i))
        as [[q j']|] eqn:G; try discriminate;
      injection H as <- _; exists op; eapply generate_wellFormed; eauto.
  - unfold bind, Math_random, ret, fail.
    destruct (weightedRandom (random i) (selectionTop now w atts phase))
      as [s|] eqn:Hs; [|discriminate].
    intros [= <- _]. left. exists (record s). split; [|reflexivity].
    apply (selectionTop_candidates now w atts phase).
    unfold weightedRandom in Hs.
    destruct (pickWeighted _ _) as [s'|] eqn:Ep.
    + injection Hs as <-. eapply pickWeighted_In; eauto.
    + eapply nth_error_In; eauto.
Qed.

Lemma selectNextProblem_null (fuel : nat) (now : Z) (w : World)
    (atts : list Attempt) (phase : Phase) (random : nat -> Q) (i j : nat) :
  selectNextProblem fuel now w atts phase random i = Some (None, j) ->
  enabledOps (settings w) = [] /\ j = i.
Proof.
  unfold selectNextProblem.
  destruct (enabledOps (settings w)) as [|o os] eqn:Eo.
  - simpl. unfold ret. intros [= <-]. auto.
  - simpl (List.length (o :: os) =? 0)%nat. cbv iota.
    destruct (List.length (candidatesOf w) =? 0)%nat;
      unfold bind, Math_random, ret, fail.
    + destruct (JS.floor _); try discriminate;
        destruct (nth_error _ _); try discriminate;
        destruct (generateRandomProblem _ _ _ _ _) as [[q j']|]; discriminate.
    + destruct (weightedRandom _ _); discriminate.
Qed.

Lemma wellFormed_presentedOk (op : Operation) (p : Problem) :
  wellFormed op p -> presentedOk p.
Proof.
  intros (Eo & Ek & H). unfold presentedOk. rewrite Eo. split; [exact Ek|].
  destruct op; simpl; tauto.
Qed.

Lemma candidate_problemOk (w : World) (r : ProblemRecord) :
  storeOk (problemRecords w) -> Forall problemOk (currentPool w) ->
  In r (candidatesOf w) -> problemOk r.
Proof.
  intros Hs Hp Hin. unfold candidatesOf in Hin. apply filter_In in Hin.
  destruct Hin as [Hin _]. apply in_map_iff in Hin.
  destruct Hin as (r0 & E & H0).
  destruct (lookupRecord (key r0) (problemRecords w)) as [q|] eqn:L.
  - subst q. now destruct (Hs _ _ L).
  - subst r0. exact (proj1 (Forall_forall _ _) Hp r H0).
Qed.

Lemma selectDrillProblem_pick (now : Z) (pool : list ProblemRecord)
    (atts : list Attempt) (random : nat -> Q) (i : nat) :
  (pool = [] -> selectDrillProblem now pool atts random i = Some (None, i)) /\
  (pool <> [] ->
   exists r : ProblemRecord,
     In r pool /\
     selectDrillProblem now pool atts random i = Some (Some (toProblem r), S i)).
Proof.
  split; [intros ->; reflexivity|]. intros Hne. unfold selectDrillProblem.
  replace (List.length pool =? 0)%nat with false
    by (symmetry; apply Nat.eqb_neq; destruct pool; simpl; congruence).
  set (inter := applyInterleaving (scoreAll now pool atts) atts).
  assert (Hin : inter <> []).
  { apply applyInterleaving_nonempty. unfold scoreAll. intros E.
    apply map_eq_nil in E. contradiction. }
  assert (Ht : firstn (Nat.min 8 (List.length (sortBy byScoreDesc inter)))
                      (sortBy byScoreDesc inter) <> []).
  { apply firstn_min_nonempty. intros E. apply Hin. apply length_zero_iff_nil.
    rewrite <- (sortBy_length byScoreDesc). now rewrite E. }
  destruct (weightedRandom_In (random i) _ Ht) as (s & Hs & Hmem).
  apply In_firstn in Hmem. apply sortBy_In in Hmem.
  destruct (applyInterleaving_records _ _ _ Hmem) as (s0 & H0 & Er).
  unfold scoreAll in H0. apply in_map_iff in H0.
  destruct H0 as (r & E0 & Hr). subst s0. simpl in Er.
  exists r. split; [exact Hr|].
  unfold bind, Math_random, ret. rewrite Hs, <- Er. reflexivity.
Qed.

(** X22. [nextProblem] outside a drill: it ends the session exactly
    when [selectNextProblem] returns null, that is when no operation is
    enabled, so its own random fallback is never reached; otherwise it
    shows what [selectNextProblem] returns.  In a drill it ends the
    session exactly when the drill pool is empty.  Over a store and
    pools whose records describe their problem, every problem shown
    has the canonical key of its operation and operands and the right
    answer. *)
Theorem nextProblem_presents :
  forall (fuel : nat) (now : Z) (w : World) (drillPool : list ProblemRecord)
         (sessionAttempts : list Attempt) (state : AppMode)
         (random : nat -> Q) (i : nat),
    (state <> REVIEWING -> state <> IDLE -> state <> DRILLING ->
     nextProblem fuel now w drillPool sessionAttempts state random i =
     match selectNextProblem fuel now w sessionAttempts (phaseOf state) random i with
     | Some (Some p, j) => Some (Presented p, j)
     | Some (None, j) => Some (SessionEnded, j)
     | None => None
     end) /\
    (forall j : nat,
       state <> DRILLING ->
       nextProblem fuel now w drillPool sessionAttempts state random i =
         Some (SessionEnded, j) ->
       enabledOps (settings w) = []) /\
    (forall j : nat,
       state = DRILLING ->
       (nextProblem fuel now w drillPool sessionAttempts state random i =
          Some (SessionEnded, j) <-> drillPool = [] /\ j = i)) /\
    (storeOk (problemRecords w) ->
     Forall problemOk (currentPool w) ->
     Forall problemOk drillPool ->
     forall (p : Problem) (j : nat),
       nextProblem fuel now w drillPool sessionAttempts state random i =
         Some (Presented p, j) ->
       presentedOk p).
Proof.
  intros fuel now w drillPool atts state random i.
  assert (Main : state <> REVIEWING -> state <> IDLE -> state <> DRILLING ->
     nextProblem fuel now w drillPool atts state random i =
     match selectNextProblem fuel now w atts (phaseOf state) random i with
     | Some (Some p, j) => Some (Presented p, j)
     | Some (None, j) => Some (SessionEnded, j)
     | None => None
     end).
  { intros N1 N2 N3.
    assert (E : nextProblem fuel now w drillPool atts state random i =
      (currentProblem <- selectNextProblem fuel now w atts (phaseOf state) ;;
       match currentProblem with
       | Some p => ret (Presented p)
       | None =>
           if (List.length (enabledOps (settings w)) =? 0)%nat then ret SessionEnded
           else p <- randomEnabledProblem fuel (settings w) (enabledOps (settings w)) ;;
                ret (Presented p)
       end) random i)
      by (destruct state; try congruence; reflexivity).
    rewrite E. unfold bind at 1.
    destruct (selectNextProblem fuel now w atts (phaseOf state) random i)
      as [[[p|] j]|] eqn:S; try reflexivity.
    apply selectNextProblem_null in S. destruct S as [-> _]. reflexivity. }
  split; [exact Main|]. split; [|split].
  - intros j Nd H.
    destruct state; try congruence; try (simpl in H; unfold ret in H; discriminate);
      rewrite Main in H by discriminate;
      destruct (selectNextProblem _ _ _ _ _ _ _) as [[[p|] j']|] eqn:S;
      try discriminate; now apply selectNextProblem_null in S.
  - intros j ->. simpl. unfold bind.
    destruct (selectDrillProblem_pick now drillPool atts random i) as [H0 H1].
    destruct drillPool as [|r0 rs].
    + rewrite (H0 eq_refl). unfold ret. split; [intros [= <-]; auto|].
      intros [_ ->]. reflexivity.
    + destruct H1 as (r & _ & ->); [discriminate|]. unfold ret.
      split; [discriminate | intros [E _]; discriminate].
  - intros Hs Hp Hd p j H.
    destruct state; try (simpl in H; unfold ret in H; discriminate);
      try (rewrite Main in H by discriminate;
           destruct (selectNextProblem _ _ _ _ _ _ _) as [[[q|] j']|] eqn:S;
           try discriminate; injection H as <- _;
           apply selectNextProblem_result in S;
           destruct S as [(r & Hr & ->)|(op & Hw)];
           [|now apply (wellFormed_presentedOk op)];
           apply (candidate_problemOk w r Hs Hp) in Hr;
           exact Hr).
    simpl in H. unfold bind in H.
    destruct (selectDrillProblem_pick now drillPool atts random i) as [H0 H1].
    destruct drillPool as [|r0 rs].
    + rewrite (H0 eq_refl) in H. discriminate.
    + destruct H1 as (r & Hr & E); [discriminate|]. rewrite E in H.
      unfold ret in H. injection H as <- _.
      exact (proj1 (Forall_forall _ _) Hd r Hr).
Qed.

(** ** Operation balancing *)

Lemma map_fixed {A : Type} (f : A -> A) (l : list A) :
  (forall x, In x l -> f x = x) -> map f l = l.
Proof.
  induction l as [|x l IH]; intros H; simpl; [reflexivity|].
  rewrite H by now left. f_equal. apply IH. intros y Hy. apply H. now right.
Qed.

Lemma filter_all_length {A : Type} (f : A -> bool) (l : list A) :
  (forall x, In x l -> f x = true) -> List.length (filter f l) = List.length l.
Proof.
  induction l as [|x l IH]; intros H; simpl; [reflexivity|].
  rewrite H by now left. simpl. f_equal. apply IH. intros y Hy. apply H. now right.
Qed.

Lemma filter_none_length {A : Type} (f : A -> bool) (l : list A) :
  (forall x, In x l -> f x = false) -> List.length (filter f l) = O.
Proof.
  induction l as [|x l IH]; intros H; simpl; [reflexivity|].
  rewrite H by now left. apply IH. intros y Hy. apply H. now right.
Qed.

(** X23. [balanceOperations] never removes, adds or reorders
    candidates: it keeps every record in place and multiplies its
    score by 0.6, 1 or 1.5.  It changes nothing in a session of fewer
    than four attempts, and nothing when a single operation is enabled
    and every attempt had it.  In a session of at least four attempts,
    the records of an enabled operation that was not attempted yet get
    the factor 1.5. *)
Theorem balanceOperations_rescales :
  forall (scored : list Scored) (sessionAttempts : list Attempt)
         (ops : list Operation),
    map record (balanceOperations scored sessionAttempts ops) = map record scored /\
    Forall2 (fun s s' =>
               (score s' == score s * 0.6)%Q \/ (score s' == score s)%Q \/
               (score s' == score s * 1.5)%Q)
            scored (balanceOperations scored sessionAttempts ops) /\
    ((List.length sessionAttempts < 4)%nat ->
     balanceOperations scored sessionAttempts ops = scored) /\
    (forall op : Operation,
       ops = [op] ->
       (forall a, In a sessionAttempts -> att_operation a = op) ->
       balanceOperations scored sessionAttempts ops = scored) /\
    (forall op : Operation,
       (4 <= List.length sessionAttempts)%nat ->
       In op ops ->
       (forall a, In a sessionAttempts -> att_operation a <> op) ->
       forall s : Scored,
         In s scored -> operation (record s) = op ->
         In (mkScored (record s) (score s * 1.5))
            (balanceOperations scored sessionAttempts ops)).
Proof.
  intros scored atts ops.
  split; [apply balanceOperations_records|]. split; [|split; [|split]].
  - unfold balanceOperations. destruct (List.length atts <? 4)%nat.
    + induction scored; constructor; auto. right. left. reflexivity.
    + induction scored as [|s l IH]; simpl; constructor; [|exact IH].
      destruct (countOps ops atts (operation (record s)));
        [|right; left; reflexivity].
      destruct (Qltb _ (_ * 0.7)); [right; right; reflexivity|].
      destruct (Qltb (_ * 1.3) _); [left; reflexivity | right; left; reflexivity].
  - intros H. unfold balanceOperations.
    replace (List.length atts <? 4)%nat with true
      by (symmetry; now apply Nat.ltb_lt).
    reflexivity.
  - intros op -> Hall. unfold balanceOperations.
    destruct (Nat.ltb_spec (List.length atts) 4) as [L|L]; [reflexivity|].
    apply map_fixed. intros s _. unfold countOps, includes. simpl existsb.
    destruct (Operation_eqb (operation (record s)) op) eqn:E; simpl orb; cbv iota;
      [|reflexivity].
    apply Operation_eqb_eq in E. rewrite E.
    rewrite filter_all_length
      by (intros a Ha; apply Operation_eqb_eq; now apply Hall).
    set (t := inject_Z (Z.of_nat (List.length atts))).
    assert (Ht : (0 < t)%Q).
    { subst t. change 0%Q with (inject_Z 0). rewrite <- Zlt_Qlt. lia. }
    assert (E1 : (t / t == 1)%Q) by (field; lra).
    assert (E2 : (1 / inject_Z (Z.of_nat (List.length [op])) == 1)%Q) by reflexivity.
    replace (Qltb (t / t) (1 / inject_Z (Z.of_nat (List.length [op])) * 0.7)) with false.
    + replace (Qltb (1 / inject_Z (Z.of_nat (List.length [op])) * 1.3) (t / t))
        with false; [reflexivity|].
      symmetry. unfold Qltb. apply negb_false_iff. apply Qle_bool_iff.
      rewrite E1, E2. lra.
    + symmetry. unfold Qltb. apply negb_false_iff. apply Qle_bool_iff.
      rewrite E1, E2. lra.
  - intros op L Hin Hnone s Hs Hop. unfold balanceOperations.
    replace (List.length atts <? 4)%nat with false
      by (symmetry; now apply Nat.ltb_ge).
    apply in_map_iff. exists s. split; [|exact Hs].
    assert (C : countOps ops atts (operation (record s)) = Some O).
    { unfold countOps, includes. rewrite Hop.
      replace (existsb (Operation_eqb op) ops) with true.
      - f_equal. apply filter_none_length. intros a Ha.
        apply Operation_eqb_neq. now apply Hnone.
      - symmetry. apply existsb_exists. exists op. split; [exact Hin|].
        now apply Operation_eqb_eq. }
    rewrite C.
    replace (Qltb (inject_Z (Z.of_nat 0) / inject_Z (Z.of_nat (List.length atts)))
                  (1 / inject_Z (Z.of_nat (List.length ops)) * 0.7)) with true;
      [reflexivity|].
    symmetry. apply Qltb_lt.
    assert (Hl : (0 < inject_Z (Z.of_nat (List.length ops)))%Q).
    { change 0%Q with (inject_Z 0). rewrite <- Zlt_Qlt.
      destruct ops; [contradiction | simpl; lia]. }
    assert (Z0 : (inject_Z (Z.of_nat 0) / inject_Z (Z.of_nat (List.length atts)) == 0)%Q)
      by (unfold Qdiv; simpl; ring).
    rewrite Z0.
    apply Qmult_lt_0_compat; [|lra].
    apply Qlt_shift_div_l; [exact Hl | lra].
Qed.

Lemma balanceOperations_witness :
  balanceOperations [mkScored freshRecord 75] sampleHistory [add; mul] =
  [mkScored freshRecord 75].
Proof.
  apply (balanceOperations_rescales [mkScored freshRecord 75] sampleHistory [add; mul]).
  simpl. lia.
Defined.
